(** * FoolGo: the UCT player ([src/player/uct_player.h])

    A shallow embedding of [UctPlayer<BOARD_LEN>]: the UCB child picker
    [MaxUcbChild], the recursive back-propagation routine
    [ModifyAverageProfitAndReturnNewProfit], the worker loop
    [SearchAndModifyNodes] and the final choice [BestChild].

    The board, the playout engine, the node record and the transposition
    table live in headers that this file only includes; they appear here as
    interfaces (type classes) or as small models written from their
    documented contract. *)

From Stdlib Require Import ZArith Lia List Bool.
From Stdlib Require Import Floats.SpecFloat.
From stdpp Require Import gmap list strings.

Open Scope Z_scope.

(** ** Machine integers *)

Module CInt.

Definition INT_MAX : Z := 2147483647.
Definition INT_MIN : Z := -2147483648.

Definition in_range (z : Z) : bool := (INT_MIN <=? z) && (z <=? INT_MAX).

  (** [std::atomic<int>] arithmetic is two's complement and never undefined. *)
Definition wrap (z : Z) : Z := (z - INT_MIN) mod 4294967296 + INT_MIN.

  (** The usual arithmetic conversion of an [int] compared against a
      [std::size_t] (64 bits). *)
Definition to_size_t (z : Z) : Z := z mod 18446744073709551616.

End CInt.

(** ** Outcomes of a call

    A call either returns, or stops for one of the reasons the language
    gives: a failed [assert], behaviour the standard leaves undefined
    (signed overflow, division by zero, reading an indeterminate value), or,
    for the recursive routines of the model, exhausted fuel. *)

Inductive failure : Type :=
| AssertionFailure
| UndefinedBehaviour
| OutOfRange
| OutOfFuel.

Inductive outcome (A : Type) : Type :=
| Done (a : A)
| Abort (f : failure).

Arguments Done {A} a.
Arguments Abort {A} f.

#[global] Instance outcome_ret : MRet outcome := fun A a => Done a.
#[global] Instance outcome_bind : MBind outcome := fun A B k m =>
  match m with
  | Done a => k a
  | Abort f => Abort f
  end.

Definition int_add (a b : Z) : outcome Z :=
  if CInt.in_range (a + b) then Done (a + b) else Abort UndefinedBehaviour.

(** [a % b] on [int]: truncated remainder; undefined for a zero divisor and
    for [INT_MIN % -1]. *)
Definition int_rem (a b : Z) : outcome Z :=
  if b =? 0 then Abort UndefinedBehaviour
  else if (a =? CInt.INT_MIN) && (b =? -1) then Abort UndefinedBehaviour
  else Done (Z.rem a b).

(** [std::vector::at] with an [int] argument. *)
Definition vector_at {A : Type} (v : list A) (i : Z) : outcome A :=
  match v !! Z.to_nat (CInt.to_size_t i) with
  | Some x => Done x
  | None => Abort OutOfRange
  end.

(** ** Floating point

    [float] is IEEE binary32 and [double] binary64, both evaluated in their
    own format with round-to-nearest-even. *)

Module F32.
Definition prec : Z := 24.
Definition emax : Z := 128.
Definition of_int (z : Z) : spec_float := binary_normalize prec emax z 0 false.
Definition add := SFadd prec emax.
Definition sub := SFsub prec emax.
Definition mul := SFmul prec emax.
Definition div := SFdiv prec emax.
  (** [a > b] *)
Definition gt (a b : spec_float) : bool := SFltb b a.
Definition le (a b : spec_float) : bool := SFleb a b.
Definition one : spec_float := S754_finite false 8388608 (-23).
Definition minus_one : spec_float := S754_finite true 8388608 (-23).
Definition zero : spec_float := S754_zero false.
End F32.

Module F64.
Definition prec : Z := 53.
Definition emax : Z := 1024.
Definition of_int (z : Z) : spec_float := binary_normalize prec emax z 0 false.
Definition add := SFadd prec emax.
Definition mul := SFmul prec emax.
Definition div := SFdiv prec emax.
Definition sqrt := SFsqrt prec emax.
  (** Promotion of a [float]: exact. *)
Definition of_float (x : spec_float) : spec_float :=
    match x with
    | S754_finite s m e => binary_normalize prec emax (cond_Zopp s (Zpos m)) e s
    | _ => x
    end.
  (** Conversion of a [double] to [float]: rounds. *)
Definition to_float (x : spec_float) : spec_float :=
    match x with
    | S754_finite s m e =>
        binary_normalize F32.prec F32.emax (cond_Zopp s (Zpos m)) e s
    | _ => x
    end.
End F64.

Definition is_nan (x : spec_float) : bool :=
  match x with S754_nan => true | _ => false end.

(** At or above zero: a zero, a positive number or plus infinity. *)
Definition zero_le (x : spec_float) : Prop := SFleb (S754_zero false) x = true.

Abbreviation float := spec_float (only parsing).
Abbreviation double := spec_float (only parsing).

(** [log] comes from the C library. *)
Class Libm := { log : double -> double }.

(** ** Board vocabulary ([board/force.h], [board/position.h]) *)

Inductive Force : Type := BLACK_FORCE | WHITE_FORCE.

#[global] Instance Force_eq_dec : EqDecision Force.
Proof. solve_decision. Defined.

Abbreviation PositionIndex := Z (only parsing).

Record Move : Type := MkMove { move_force : Force; move_index : PositionIndex }.

(** What the player consumes from [FullBoard<BOARD_LEN>] and from the free
    function [Play]. *)
Class BoardOps (FullBoard : Type) := {
  BOARD_LEN : Z;
  POSITION_INDEX_PASS : PositionIndex;
  NextForce : FullBoard -> Force;
  LastForce : FullBoard -> Force;
  PlayableIndexes : FullBoard -> Force -> list PositionIndex;
  IsSuicide : FullBoard -> Move -> bool;
  IsEnd : FullBoard -> bool;
  BlackRegion : FullBoard -> Z;
  Play : FullBoard -> PositionIndex -> FullBoard;
  Pass : FullBoard -> Force -> FullBoard
}.

(** Modelled from the spec: [BoardLenSquare<BOARD_LEN>()] of
    [board/position.h], the number of points of the board
    ("side_length²"). *)
Definition BoardLenSquare {FullBoard} `{BoardOps FullBoard} : Z :=
  BOARD_LEN * BOARD_LEN.

(** ** Playouts ([game/monte_carlo_game.h])

    A playout is built from a board and a seed; [Run] plays it to the end. *)
Record MonteCarloGame (FullBoard : Type) : Type := MkMonteCarloGame {
  GetFullBoard : FullBoard;
  mc_seed : Z
}.
Arguments MkMonteCarloGame {FullBoard} _ _.
Arguments GetFullBoard {FullBoard} _.
Arguments mc_seed {FullBoard} _.

Class PlayoutOps (FullBoard : Type) := {
  Run : MonteCarloGame FullBoard -> MonteCarloGame FullBoard
}.

(** ** Node records ([player/node_record.h])

    Modelled from the spec: the statistics bundle of one tree node, built by
    [NodeRecord(visited_times, average_profit, is_in_search)], read by the
    three getters and written by the three setters. *)
Record NodeRecord : Type := MkNodeRecord {
  GetVisitedTime : Z;
  GetAverageProfit : float;
  IsInSearch : bool
}.

Definition SetVisitedTimes (n : Z) (r : NodeRecord) : NodeRecord :=
  MkNodeRecord n (GetAverageProfit r) (IsInSearch r).
Definition SetAverageProfit (x : float) (r : NodeRecord) : NodeRecord :=
  MkNodeRecord (GetVisitedTime r) x (IsInSearch r).
Definition SetIsInSearch (b : bool) (r : NodeRecord) : NodeRecord :=
  MkNodeRecord (GetVisitedTime r) (GetAverageProfit r) b.

(** ** The anonymous namespace: [Ucb] and [GetRegionRatio] *)

(** [average + sqrt(2 * log(sum) / visits)]: the operands are promoted to
    [double], the result is converted back to [float]. *)
Definition ucb_value `{Libm} (node_record : NodeRecord) (visited_count_sum : Z)
  : float :=
  F64.to_float
    (F64.add (F64.of_float (GetAverageProfit node_record))
       (F64.sqrt
          (F64.div
             (F64.mul (F64.of_int 2) (log (F64.of_int visited_count_sum)))
             (F64.of_int (GetVisitedTime node_record))))).

Definition Ucb `{Libm} (node_record : NodeRecord) (visited_count_sum : Z)
  : outcome float :=
  if GetVisitedTime node_record >? 0 then
    Done (ucb_value node_record visited_count_sum)
  else Abort AssertionFailure.

Section Player.

Context {FullBoard : Type} `{Countable FullBoard}.
Context `{!BoardOps FullBoard} `{!PlayoutOps FullBoard} `{!Libm}.

Definition GetRegionRatio (full_board : FullBoard) (force : Force) : float :=
    let black_region := BlackRegion full_board in
    let black_ratio :=
      F32.div (F32.of_int black_region) (F32.of_int BoardLenSquare) in
    match force with
    | BLACK_FORCE => black_ratio
    | _ => F32.sub (F32.of_int 1) black_ratio
    end.

  (** ** The transposition table ([player/transposition_table.h])

      Modelled from the spec: a mapping from board states to node records;
      [GetChild] is the record of the state reached by playing the move. *)
Abbreviation TranspositionTable := (gmap FullBoard NodeRecord).

Definition Get (t : TranspositionTable) (full_board : FullBoard)
    : option NodeRecord := t !! full_board.

Definition GetChild (t : TranspositionTable) (full_board : FullBoard)
      (position_index : PositionIndex) : option NodeRecord :=
    Get t (Play full_board position_index).

Definition Insert (t : TranspositionTable) (full_board : FullBoard)
      (node_record : NodeRecord) : TranspositionTable :=
    <[full_board := node_record]> t.

  (** ** The player object: its three configuration fields *)
Record UctPlayer : Type := MkUctPlayer {
    mc_game_count_per_move_ : Z;
    seed_ : Z;
    thread_count_ : Z
  }.

  (** The constructor. *)
Definition UctPlayer_new (seed mc_game_count_per_move thread_count : Z)
    : UctPlayer :=
    {| seed_ := seed;
       mc_game_count_per_move_ := mc_game_count_per_move;
       thread_count_ := thread_count |}.

  (** ** [MaxUcbChild] *)

  (** First loop: children without a record are collected in [null_indexes];
      the visit counts are summed as long as none was found. *)
Fixpoint count_children (t : TranspositionTable) (full_board : FullBoard)
      (playable : list PositionIndex)
      (visited_count_sum : Z) (null_indexes : list PositionIndex)
    : outcome (Z * list PositionIndex) :=
    match playable with
    | [] => Done (visited_count_sum, null_indexes)
    | position_index :: rest =>
        match GetChild t full_board position_index with
        | None =>
            count_children t full_board rest visited_count_sum
              (null_indexes ++ [position_index])
        | Some node_record =>
            match null_indexes with
            | [] =>
                s ← int_add visited_count_sum (GetVisitedTime node_record);
                count_children t full_board rest s null_indexes
            | _ :: _ =>
                count_children t full_board rest visited_count_sum null_indexes
            end
        end
    end.

  (** Second loop: the running maximum over the children that are neither
      in search nor suicide. *)
Fixpoint select_max_ucb (t : TranspositionTable) (full_board : FullBoard)
      (visited_count_sum : Z) (playable : list PositionIndex)
      (max_ucb : float) (max_ucb_index : PositionIndex)
    : outcome PositionIndex :=
    match playable with
    | [] => Done max_ucb_index
    | position_index :: rest =>
        match GetChild t full_board position_index with
        | None =>
            select_max_ucb t full_board visited_count_sum rest
              max_ucb max_ucb_index
        | Some node_record =>
            if IsInSearch node_record then
              select_max_ucb t full_board visited_count_sum rest
                max_ucb max_ucb_index
            else
              ucb ← Ucb node_record visited_count_sum;
              if F32.gt ucb max_ucb
                 && negb (IsSuicide full_board
                            (MkMove (NextForce full_board) position_index))
              then
                select_max_ucb t full_board visited_count_sum rest
                  ucb position_index
              else
                select_max_ucb t full_board visited_count_sum rest
                  max_ucb max_ucb_index
        end
    end.

Definition MaxUcbChild_locked (p : UctPlayer) (t : TranspositionTable)
      (full_board : FullBoard) (thread_index : Z) : outcome PositionIndex :=
    let current_force := NextForce full_board in
    let playable_index_vector := PlayableIndexes full_board current_force in
    match playable_index_vector with
    | [] => Abort AssertionFailure
    | _ :: _ =>
        '(visited_count_sum, null_indexes) ←
          count_children t full_board playable_index_vector 0 [];
        match null_indexes with
        | _ :: _ =>
            index ← int_rem thread_index (thread_count_ p);
            if CInt.to_size_t index <? Z.of_nat (length null_indexes) then
              vector_at null_indexes index
            else
              vector_at null_indexes
                (if CInt.to_size_t index <? Z.of_nat (length null_indexes)
                 then index else 0)
        | [] =>
            select_max_ucb t full_board visited_count_sum
              playable_index_vector F32.minus_one POSITION_INDEX_PASS
        end
    end.

  (** ** [BestChild] *)

  (** [most_visited_index] starts out indeterminate: [None]. *)
Fixpoint most_visited (t : TranspositionTable) (full_board : FullBoard)
      (playable : list PositionIndex)
      (max_visited_count : Z) (most_visited_index : option PositionIndex)
    : outcome (option PositionIndex) :=
    match playable with
    | [] => Done most_visited_index
    | index :: rest =>
        match GetChild t full_board index with
        | None => Abort AssertionFailure
        | Some node_record =>
            if GetVisitedTime node_record >? max_visited_count then
              most_visited t full_board rest
                (GetVisitedTime node_record) (Some index)
            else
              most_visited t full_board rest
                max_visited_count most_visited_index
        end
    end.

Definition BestChild (t : TranspositionTable) (full_board : FullBoard)
    : outcome PositionIndex :=
    let force := NextForce full_board in
    let playable_index_vector := PlayableIndexes full_board force in
    r ← most_visited t full_board playable_index_vector (-1) None;
    match r with
    | Some index => Done index
    | None => Abort UndefinedBehaviour
    end.


(** ** Vocabulary of the selection rules

    The legal moves of a board, the ones whose child has no record yet, the
    visit count of a child and the sum over the children, and the children
    that are neither in search nor suicide. *)
Definition legal_moves (full_board : FullBoard) : list PositionIndex :=
  PlayableIndexes full_board (NextForce full_board).

Definition unknown_children (t : gmap FullBoard NodeRecord)
    (full_board : FullBoard) : list PositionIndex :=
  filter (fun i => GetChild t full_board i = None) (legal_moves full_board).

Definition child_visits (t : gmap FullBoard NodeRecord)
    (full_board : FullBoard) (i : PositionIndex) : Z :=
  match GetChild t full_board i with
  | Some r => GetVisitedTime r
  | None => 0
  end.

Definition visits_sum (t : gmap FullBoard NodeRecord)
    (full_board : FullBoard) (l : list PositionIndex) : Z :=
  foldr (fun i acc => child_visits t full_board i + acc) 0 l.

Definition selectable (t : gmap FullBoard NodeRecord)
    (full_board : FullBoard) (i : PositionIndex) : bool :=
  match GetChild t full_board i with
  | Some r =>
      negb (IsInSearch r)
      && negb (IsSuicide full_board (MkMove (NextForce full_board) i))
  | None => false
  end.

Definition selectable_children (t : gmap FullBoard NodeRecord)
    (full_board : FullBoard) : list PositionIndex :=
  filter (fun i => selectable t full_board i = true) (legal_moves full_board).

(** The UCB score of a child, with the visits of all children as the sum. *)
Definition child_ucb (t : gmap FullBoard NodeRecord)
    (full_board : FullBoard) (i : PositionIndex) : float :=
  match GetChild t full_board i with
  | Some r => ucb_value r (visits_sum t full_board (legal_moves full_board))
  | None => S754_nan
  end.

(** ** Shared state and what a worker does to it

    One worker's view of the shared objects: the transposition table, the
    atomic playout counter, and a log of the operations whose placement with
    respect to [mutex_] matters (lock, unlock, insertions, writes to a
    record) together with every playout construction. *)

Inductive Event : Type :=
| EvLock
| EvUnlock
| EvInsert (key : FullBoard) (node_record : NodeRecord)
| EvSetIsInSearch (key : FullBoard) (value : bool)
| EvSetAverageProfit (key : FullBoard) (value : float)
| EvSetVisitedTimes (key : FullBoard) (value : Z)
| EvMonteCarloGame (game : MonteCarloGame FullBoard).

Record State : Type := MkState {
  transposition_table_ : gmap FullBoard NodeRecord;
  mc_game_count : Z;
  trace : list Event
}.

Definition M (A : Type) : Type := State -> outcome (A * State).

#[global] Instance M_ret : MRet M := fun A a s => Done (a, s).
#[global] Instance M_bind : MBind M := fun A B k m s =>
  match m s with
  | Done (a, s') => k a s'
  | Abort f => Abort f
  end.

Definition lift {A : Type} (o : outcome A) : M A := fun s =>
  match o with
  | Done a => Done (a, s)
  | Abort f => Abort f
  end.

Definition emit (ev : Event) : M unit := fun s =>
  Done (tt, MkState (transposition_table_ s) (mc_game_count s) (trace s ++ [ev])).

Definition table : M (gmap FullBoard NodeRecord) := fun s =>
  Done (transposition_table_ s, s).

Definition counter : M Z := fun s => Done (mc_game_count s, s).

(** The pre-increment of the atomic counter behind [mc_game_count_ptr]. *)
Definition increment_counter : M unit := fun s =>
  Done (tt, MkState (transposition_table_ s)
              (CInt.wrap (mc_game_count s + 1)) (trace s)).

Definition lock : M unit := emit EvLock.
Definition unlock : M unit := emit EvUnlock.

(** [node_record_ptr] points into the table at the key it was fetched with;
    reading through it finds what the table holds there now. *)
Definition deref (key : FullBoard) : M NodeRecord := fun s =>
  match transposition_table_ s !! key with
  | Some r => Done (r, s)
  | None => Abort UndefinedBehaviour
  end.

Definition write (key : FullBoard) (f : NodeRecord -> NodeRecord) (ev : Event)
  : M unit := fun s =>
  Done (tt, MkState (alter f key (transposition_table_ s))
              (mc_game_count s) (trace s ++ [ev])).

Definition store_IsInSearch (key : FullBoard) (b : bool) : M unit :=
  write key (SetIsInSearch b) (EvSetIsInSearch key b).
Definition store_AverageProfit (key : FullBoard) (x : float) : M unit :=
  write key (SetAverageProfit x) (EvSetAverageProfit key x).
Definition store_VisitedTimes (key : FullBoard) (n : Z) : M unit :=
  write key (SetVisitedTimes n) (EvSetVisitedTimes key n).

Definition table_Insert (key : FullBoard) (node_record : NodeRecord) : M unit :=
  fun s =>
  Done (tt, MkState (Insert (transposition_table_ s) key node_record)
              (mc_game_count s) (trace s ++ [EvInsert key node_record])).

(** [MaxUcbChild]: the whole body runs under a [std::lock_guard]. *)
Definition MaxUcbChild (p : UctPlayer) (full_board : FullBoard)
    (thread_index : Z) : M PositionIndex :=
  lock;;
  t ← table;
  max_ucb_index ← lift (MaxUcbChild_locked p t full_board thread_index);
  unlock;;
  mret max_ucb_index.

(** The in-place move of lines 211-218: a pass when the side to move has
    nothing to play, the max-UCB child otherwise. *)
Definition descend (p : UctPlayer) (full_board : FullBoard) (thread_index : Z)
  : M FullBoard :=
  match PlayableIndexes full_board (NextForce full_board) with
  | [] => mret (Pass full_board (NextForce full_board))
  | _ :: _ =>
      max_ucb_index ← MaxUcbChild p full_board thread_index;
      mret (Play full_board max_ucb_index)
  end.

(** ** [ModifyAverageProfitAndReturnNewProfit]

    [fuel] bounds the depth of the recursion.  The playout works on its own
    copy of the board, so [LastForce] and the key of the insertion are those
    of the board the call received. *)
Fixpoint ModifyAverageProfitAndReturnNewProfit (fuel : nat) (p : UctPlayer)
    (full_board : FullBoard) (thread_index : Z) {struct fuel} : M float :=
  match fuel with
  | O => lift (Abort OutOfFuel)
  | S fuel' =>
      t ← table;
      match Get t full_board with
      | None =>
          let monte_carlo_game := MkMonteCarloGame full_board (seed_ p) in
          emit (EvMonteCarloGame monte_carlo_game);;
          let monte_carlo_game :=
            if IsEnd full_board then monte_carlo_game
            else Run monte_carlo_game in
          increment_counter;;
          let force := LastForce full_board in
          let new_profit :=
            GetRegionRatio (GetFullBoard monte_carlo_game) force in
          table_Insert full_board (MkNodeRecord 1 new_profit false);;
          mret new_profit
      | Some _ =>
          lock;;
          store_IsInSearch full_board true;;
          unlock;;
          new_profit ←
            (if IsEnd full_board then
               increment_counter;;
               r ← deref full_board;
               mret (GetAverageProfit r)
             else
               next_board ← descend p full_board thread_index;
               child_profit ←
                 ModifyAverageProfitAndReturnNewProfit fuel' p next_board
                   thread_index;
               let new_profit := F32.sub F32.one child_profit in
               r ← deref full_board;
               let previous_profit := GetAverageProfit r in
               n ← lift (int_add (GetVisitedTime r) 1);
               let modified_profit :=
                 F32.div
                   (F32.add
                      (F32.mul previous_profit (F32.of_int (GetVisitedTime r)))
                      new_profit)
                   (F32.of_int n) in
               store_AverageProfit full_board modified_profit;;
               mret new_profit);
          r ← deref full_board;
          n ← lift (int_add (GetVisitedTime r) 1);
          store_VisitedTimes full_board n;;
          lock;;
          store_IsInSearch full_board false;;
          unlock;;
          mret new_profit
      end
  end.

(** ** [SearchAndModifyNodes]: one worker's loop

    [fuel] bounds the number of iterations, [depth] the recursion of each
    descent. *)
Fixpoint SearchAndModifyNodes (fuel depth : nat) (p : UctPlayer)
    (full_board : FullBoard) (thread_index : Z) {struct fuel} : M unit :=
  match fuel with
  | O => lift (Abort OutOfFuel)
  | S fuel' =>
      c ← counter;
      if c <? mc_game_count_per_move_ p then
        max_ucb_index ← MaxUcbChild p full_board thread_index;
        let max_ucb_child := Play full_board max_ucb_index in
        _ ← ModifyAverageProfitAndReturnNewProfit depth p max_ucb_child
              thread_index;
        SearchAndModifyNodes fuel' depth p full_board thread_index
      else mret tt
  end.

(** ** [NextMoveWithPlayableBoard] with one worker

    With [thread_count_ = 1] the only worker has index 0; the counter starts
    at zero and the table is the one the player already holds. *)
Definition NextMoveWithPlayableBoard (fuel depth : nat) (p : UctPlayer)
    (t : gmap FullBoard NodeRecord) (full_board : FullBoard)
  : outcome (PositionIndex * State) :=
  '(_, s) ← SearchAndModifyNodes fuel depth p full_board 0 (MkState t 0 []);
  index ← BestChild (transposition_table_ s) full_board;
  mret (index, s).

(** ** The locking discipline, as a check on a worker's log

    Every insertion and every write to a record must fall between a [lock]
    and the matching [unlock]. *)
Definition is_mutation (ev : Event) : bool :=
  match ev with
  | EvInsert _ _ | EvSetIsInSearch _ _
  | EvSetAverageProfit _ _ | EvSetVisitedTimes _ _ => true
  | _ => false
  end.

Fixpoint mutations_under_mutex (held : bool) (tr : list Event) : bool :=
  match tr with
  | [] => true
  | EvLock :: tr' => mutations_under_mutex true tr'
  | EvUnlock :: tr' => mutations_under_mutex false tr'
  | ev :: tr' =>
      (if is_mutation ev then held else true) && mutations_under_mutex held tr'
  end.

(** The playouts constructed in a log. *)
Definition playouts (tr : list Event) : list (MonteCarloGame FullBoard) :=
  omap (fun ev => match ev with EvMonteCarloGame g => Some g | _ => None end) tr.

End Player.

Arguments Event FullBoard : clear implicits.
Arguments State FullBoard {_ _}.
Arguments M FullBoard {_ _} A.

(** ** A small concrete board

    A 2x2 board whose state is the list of moves played, newest first, with
    [-1] for a pass.  Black moves first, a point can be played once, point 3
    counts as suicide, the game ends when the board is full or after two
    consecutive passes, and black's region is the number of points black
    played.  The playout fills the free points, in ascending order for an
    even seed and in descending order for an odd one.  [log] is replaced by
    the integral part of the base-2 logarithm, taken as 0 below 1. *)
Module Toy.

Definition Board : Type := list Z.

Definition points : list Z := [0; 1; 2; 3].

Definition free (b : Board) : list Z :=
  filter (fun i => i ∉ b) points.

Definition next (b : Board) : Force :=
  if Nat.even (length b) then BLACK_FORCE else WHITE_FORCE.

Definition last (b : Board) : Force :=
  if Nat.even (length b) then WHITE_FORCE else BLACK_FORCE.

Definition is_end (b : Board) : bool :=
  match b with
  | -1 :: -1 :: _ => true
  | _ => match free b with [] => true | _ :: _ => false end
  end.

(** Moves in chronological order alternate black, white, black, ...; a
    point belongs to black when black played it. *)
Fixpoint black_played (i : Z) (chronological : list Z) (black_to_move : bool)
  : bool :=
  match chronological with
  | [] => false
  | j :: rest =>
      (black_to_move && (i =? j)) || black_played i rest (negb black_to_move)
  end.

Definition black_region (b : Board) : Z :=
  Z.of_nat (length (List.filter (fun i => black_played i (rev b) true) points)).

#[global] Instance board_ops : BoardOps Board := {|
  BOARD_LEN := 2;
  POSITION_INDEX_PASS := -1;
  NextForce := next;
  LastForce := last;
  PlayableIndexes := fun b _ => free b;
  IsSuicide := fun _ mv => move_index mv =? 3;
  IsEnd := is_end;
  BlackRegion := black_region;
  Play := fun b i => i :: b;
  Pass := fun b _ => -1 :: b
|}.

#[global] Instance playout_ops : PlayoutOps Board := {|
  Run := fun g =>
    let order := if Z.even (mc_seed g) then free (GetFullBoard g)
                 else rev (free (GetFullBoard g)) in
    MkMonteCarloGame (rev order ++ GetFullBoard g) (mc_seed g)
|}.

#[global] Instance libm : Libm := {|
  log := fun x =>
    match x with
    | S754_finite false m e =>
        F64.of_int (Z.max 0 (Zpos (digits2_pos m) + e - 1))
    | _ => S754_nan
    end
|}.

(** A player with four workers and a budget of six playouts. *)
Definition player4 : UctPlayer := UctPlayer_new 1 6 4.

(** A player with one worker and a budget of six playouts. *)
Definition player1 : UctPlayer := UctPlayer_new 1 6 1.

Definition half : spec_float := S754_finite false 8388608 (-24).

(** A table that knows the children 0 and 2 of the empty board. *)
Definition table02 : gmap Board NodeRecord :=
  <[ [2] := MkNodeRecord 1 F32.one false ]>
    (<[ [0] := MkNodeRecord 2 half false ]> ∅).

(** A table that knows all four children of the empty board. *)
Definition table0123 : gmap Board NodeRecord :=
  <[ [3] := MkNodeRecord 1 F32.one false ]>
    (<[ [1] := MkNodeRecord 3 half true ]> table02).

(** A full board, and a table holding its record. *)
Definition full : Board := [3; 2; 1; 0].
Definition table_full : gmap Board NodeRecord :=
  <[ full := MkNodeRecord 1 half false ]> ∅.

End Toy.


Section Invariants.

Context {FullBoard : Type} `{Countable FullBoard}.
Context `{!BoardOps FullBoard} `{!PlayoutOps FullBoard} `{!Libm}.

(** The UCB score of a child for a given sum of visits. *)
Definition ucb_at (t : gmap FullBoard NodeRecord) (full_board : FullBoard)
    (sum : Z) (i : PositionIndex) : float :=
  match GetChild t full_board i with
  | Some r => ucb_value r sum
  | None => S754_nan
  end.

(** What the second loop of [MaxUcbChild] has established after the moves
    [seen]: either nothing was selectable so far and the running maximum is
    still the initial pair, or the current index is the first selectable
    move with the greatest score. *)
Definition running_max (t : gmap FullBoard NodeRecord) (full_board : FullBoard)
    (sum : Z) (seen : list PositionIndex)
    (max_ucb : float) (max_ucb_index : PositionIndex) : Prop :=
  (max_ucb = F32.minus_one /\ max_ucb_index = POSITION_INDEX_PASS
   /\ filter (fun i => selectable t full_board i = true) seen = [])
  \/ exists pre post,
       filter (fun i => selectable t full_board i = true) seen
       = pre ++ max_ucb_index :: post
       /\ max_ucb = ucb_at t full_board sum max_ucb_index
       /\ Forall (fun j => F32.gt (ucb_at t full_board sum max_ucb_index)
                             (ucb_at t full_board sum j) = true) pre
       /\ Forall (fun j => F32.gt (ucb_at t full_board sum j)
                             (ucb_at t full_board sum max_ucb_index) = false) post.

(** The state in which a visit of a board with record [r0] starts its
    descent: the record is marked in search, under the mutex. *)
Definition marked (full_board : FullBoard) (r0 : NodeRecord)
    (s : State FullBoard) : State FullBoard :=
  MkState (<[full_board := SetIsInSearch true r0]> (transposition_table_ s))
    (mc_game_count s)
    (trace s ++ [EvLock; EvSetIsInSearch full_board true; EvUnlock]).

(** The state a visit leaves after it has updated the record [r] with the
    sample [x] on the way back. *)
Definition updated (full_board : FullBoard) (r : NodeRecord) (x : float)
    (s2 : State FullBoard) : State FullBoard :=
  let average :=
    F32.div
      (F32.add (F32.mul (GetAverageProfit r) (F32.of_int (GetVisitedTime r))) x)
      (F32.of_int (GetVisitedTime r + 1)) in
  MkState
    (<[full_board := MkNodeRecord (GetVisitedTime r + 1) average false]>
       (transposition_table_ s2))
    (mc_game_count s2)
    (trace s2 ++ [EvSetAverageProfit full_board average;
                  EvSetVisitedTimes full_board (GetVisitedTime r + 1);
                  EvLock; EvSetIsInSearch full_board false; EvUnlock]).

(** What the loop of a single worker maintains at the root: every record
    has been visited, the counter is non-negative, and as long as some root
    child has no record the playouts counted so far plus the children still
    to create do not exceed the target. *)
Definition root_progress (p : UctPlayer) (full_board : FullBoard)
    (s : State FullBoard) : Prop :=
  map_Forall (fun _ r => 1 <= GetVisitedTime r) (transposition_table_ s)
  /\ 0 <= mc_game_count s
  /\ (unknown_children (transposition_table_ s) full_board = []
      \/ mc_game_count s
         + Z.of_nat (length (unknown_children (transposition_table_ s) full_board))
         <= mc_game_count_per_move_ p).

(** What the loop of [BestChild] has established after the moves [seen]. *)
Definition visited_max (t : gmap FullBoard NodeRecord) (full_board : FullBoard)
    (seen : list PositionIndex)
    (max_visited_count : Z) (most_visited_index : option PositionIndex) : Prop :=
  match most_visited_index with
  | None =>
      max_visited_count = -1
      /\ Forall (fun j => child_visits t full_board j <= -1) seen
  | Some m =>
      exists pre post,
        seen = pre ++ m :: post
        /\ max_visited_count = child_visits t full_board m
        /\ Forall (fun j => child_visits t full_board j < max_visited_count) pre
        /\ Forall (fun j => child_visits t full_board j <= max_visited_count) post
  end.

End Invariants.

(** ** Rounding to binary32, on scaled integers

    A non-negative dyadic value [x] with exponent at least [-400] is
    represented by the integer [x * 2^400]. *)

Definition scale : Z := 2 ^ 400.

(** [m * 2^e], scaled. *)
Definition dyadic (m e : Z) : Z := m * 2 ^ (e + 400).

(** Round to nearest, ties to even, of [v / g] for a grid [g]. *)
Definition rne_grid (v g : Z) : Z :=
  let q := v / g in
  let r := v mod g in
  match Z.compare (2 * r) g with
  | Lt => q
  | Eq => if Z.even q then q else q + 1
  | Gt => q + 1
  end.

(** The binary32 number with mantissa [m <= 2^24] and exponent [e]. *)
Definition mk_float (m e : Z) : spec_float :=
  if m =? 0 then S754_zero false
  else if m <? 16777216 then S754_finite false (Z.to_pos m) e
  else S754_finite false 8388608 (e + 1).

(** The exponent of the binary32 numbers around a scaled value. *)
Definition grid_exponent (v : Z) : Z := Z.max (Zdigits2 v - 400 - 24) (-149).

(** The binary32 number nearest to a scaled value. *)
Definition RND (v : Z) : spec_float :=
  let e := grid_exponent v in
  mk_float (rne_grid v (2 ^ (e + 400))) e.

(** The scaled value of a non-negative binary32 number. *)
Definition sval (x : spec_float) : Z :=
  match x with
  | S754_finite false m e => dyadic (Zpos m) e
  | _ => 0
  end.

(** A well-formed binary32 number in [0, 1]. *)
Definition unit_float (x : spec_float) : Prop :=
  valid_binary 24 128 x = true
  /\ F32.le F32.zero x = true /\ F32.le x F32.one = true.

(** A mantissa and exponent as rounding to binary32 leaves them. *)
Definition rounded (m e : Z) : Prop :=
  0 <= m <= 16777216 /\ -149 <= e /\ (-149 < e -> 8388608 <= m).

(** A well-formed binary32 number that is a zero or positive and finite. *)
Definition nonneg_float (x : spec_float) : Prop :=
  valid_binary 24 128 x = true
  /\ match x with
     | S754_zero _ | S754_finite false _ _ => True
     | _ => False
     end.

(** Rounding, on scaled values. *)
Definition rnd (v : Z) : Z := sval (RND v).

Section ProfitInvariants.

Context {FullBoard : Type} `{Countable FullBoard}.

(** Every record holds an average in [0, 1] and at least one visit. *)
Definition profits_ok (t : gmap FullBoard NodeRecord) : Prop :=
  map_Forall (fun _ r => unit_float (GetAverageProfit r)
                         /\ 1 <= GetVisitedTime r) t.

(** Every average written by the events of a log is in [0, 1]. *)
Definition writes_ok (tr : list (Event FullBoard)) : Prop :=
  Forall (fun ev => match ev with
                    | EvInsert _ r => unit_float (GetAverageProfit r)
                    | EvSetAverageProfit _ x => unit_float x
                    | _ => True
                    end) tr.

End ProfitInvariants.

(** ** [LogProfits]

    The routine builds a formatter for the profit of a root move and
    returns without calling it, so that [NextMoveWithPlayableBoard] goes
    from the search to [BestChild] with the table untouched.
    [boost::lexical_cast] is the library's. *)

Class LexicalCast := { lexical_cast : float -> string }.

Section Logging.

Context {FullBoard : Type} `{Countable FullBoard}.
Context `{!BoardOps FullBoard} `{!LexicalCast}.

(** The lambda [get_profit_str]: the letter N and three blanks for a
    position that is not playable, the first four characters of the printed
    average otherwise. *)
Definition get_profit_str (t : gmap FullBoard NodeRecord)
    (full_board : FullBoard) (position_index : PositionIndex)
  : outcome string :=
  let force := NextForce full_board in
  let indexes := PlayableIndexes full_board force in
  if decide (position_index ∈ indexes) then
    match GetChild t full_board position_index with
    | None => Abort AssertionFailure
    | Some node_record =>
        let profit := GetAverageProfit node_record in
        Done (String.substring 0 4 (lexical_cast profit))
    end
  else
    Done ("N" +:+ "   ").

Definition LogProfits (full_board : FullBoard) : M FullBoard unit :=
  mret tt.

End Logging.

(** ** More vocabulary for a worker's log and table *)

Section Discipline.

Context {FullBoard : Type} `{Countable FullBoard}.

(** [std::mutex] is not recursive: a worker may lock it only when it does
    not hold it, and unlock it only when it does.  [mutex_after held tr]
    follows the log [tr] from a state where the worker holds the mutex or
    not; it is [None] when the log locks a held mutex, unlocks a free one or
    writes an in-search flag without holding it, and otherwise tells whether
    the mutex is held at the end. *)
Fixpoint mutex_after (held : bool) (tr : list (Event FullBoard)) : option bool :=
  match tr with
  | [] => Some held
  | EvLock :: tr' => if held then None else mutex_after true tr'
  | EvUnlock :: tr' => if held then mutex_after false tr' else None
  | EvSetIsInSearch _ _ :: tr' => if held then mutex_after held tr' else None
  | _ :: tr' => mutex_after held tr'
  end.

(** The boards the playouts of a log start from. *)
Definition playout_boards `{!PlayoutOps FullBoard}
    (tr : list (Event FullBoard)) : list FullBoard :=
  GetFullBoard <$> playouts tr.

(** Every record has between 1 and [bound] visits. *)
Definition visits_within (bound : Z) (t : gmap FullBoard NodeRecord) : Prop :=
  map_Forall (fun _ r => 1 <= GetVisitedTime r <= bound) t.

End Discipline.

(** ** Several workers in the update of one record

    Lines 222-229 hold no lock, so the accesses of other workers to the
    record may fall between those of a worker.  The update is taken here
    one access at a time: the worker reads the average, reads the visit
    count for one operand of the quotient and again for the other, writes
    the new average, reads the count and writes it incremented.  The
    language leaves open which operand of the quotient is evaluated first:
    [divisor_first] tells. *)

Section RacingUpdates.

Context {FullBoard : Type} `{Countable FullBoard}.

(** Where a worker stands in lines 222-229, with what it has read. *)
Inductive UpdatePoint : Type :=
| AtAverage
| AtFirstCount (previous_profit : float)
| AtSecondCount (previous_profit : float) (first_count : Z)
| AtSetAverage (modified_profit : float)
| AtCount
| AtSetCount (visited_times : Z)
| AtEnd.

(** A worker in the update, with the [new_profit] it brings. *)
Record Updater : Type := MkUpdater {
  new_profit : float;
  at_point : UpdatePoint
}.

(** Reading through [node_record_ptr]. *)
Definition through (t : gmap FullBoard NodeRecord) (full_board : FullBoard)
  : outcome NodeRecord :=
  match t !! full_board with
  | Some r => Done r
  | None => Abort UndefinedBehaviour
  end.

(** The next access of a worker to the record of [full_board]. *)
Definition update_access (divisor_first : bool) (full_board : FullBoard)
    (w : Updater) (t : gmap FullBoard NodeRecord)
  : outcome (Updater * gmap FullBoard NodeRecord) :=
  let x := new_profit w in
  match at_point w with
  | AtAverage =>
      r ← through t full_board;
      mret (MkUpdater x (AtFirstCount (GetAverageProfit r)), t)
  | AtFirstCount previous_profit =>
      r ← through t full_board;
      mret (MkUpdater x (AtSecondCount previous_profit (GetVisitedTime r)), t)
  | AtSecondCount previous_profit first_count =>
      r ← through t full_board;
      let second_count := GetVisitedTime r in
      let product_count := if divisor_first then second_count else first_count in
      let divisor_count := if divisor_first then first_count else second_count in
      n ← int_add divisor_count 1;
      let modified_profit :=
        F32.div
          (F32.add (F32.mul previous_profit (F32.of_int product_count)) x)
          (F32.of_int n) in
      mret (MkUpdater x (AtSetAverage modified_profit), t)
  | AtSetAverage modified_profit =>
      mret (MkUpdater x AtCount,
            alter (SetAverageProfit modified_profit) full_board t)
  | AtCount =>
      r ← through t full_board;
      n ← int_add (GetVisitedTime r) 1;
      mret (MkUpdater x (AtSetCount n), t)
  | AtSetCount visited_times =>
      mret (MkUpdater x AtEnd,
            alter (SetVisitedTimes visited_times) full_board t)
  | AtEnd => mret (w, t)
  end.

(** The workers take their accesses in the order of [schedule], a list of
    worker indexes. *)
Fixpoint interleave (divisor_first : bool) (full_board : FullBoard)
    (schedule : list nat) (workers : list Updater)
    (t : gmap FullBoard NodeRecord)
  : outcome (list Updater * gmap FullBoard NodeRecord) :=
  match schedule with
  | [] => Done (workers, t)
  | i :: rest =>
      match workers !! i with
      | None => interleave divisor_first full_board rest workers t
      | Some w =>
          '(w', t') ← update_access divisor_first full_board w t;
          interleave divisor_first full_board rest (<[i := w']> workers) t'
      end
  end.

(** The six accesses of one worker, in a row. *)
Definition whole_update (i : nat) : list nat := replicate 6 i.

End RacingUpdates.

(** ** The small board, continued

    [remaining] bounds the number of moves and passes a game can still
    take: three per free point, less the passes just made.  The printer
    knows three texts. *)
Module Small.

Import Toy.

Definition leading_passes (b : Board) : nat :=
  match b with
  | -1 :: -1 :: _ => 2
  | -1 :: _ => 1
  | _ => 0
  end.

(** The visit counts of [table0123] under other averages and marks. *)
Definition table0123_flat : gmap Board NodeRecord :=
  <[ [3] := MkNodeRecord 1 F32.zero false ]>
    (<[ [2] := MkNodeRecord 1 half true ]>
       (<[ [1] := MkNodeRecord 3 F32.one false ]>
          (<[ [0] := MkNodeRecord 2 F32.zero false ]> ∅))).

Definition remaining (b : Board) : nat :=
  (3 * length (free b) + 2 - leading_passes b)%nat.

(** Workers that each bring the sample 1/2 to the record of board [[0]],
    which starts with one visit and the average 1/2. *)
Definition updaters (n : nat) : list Updater :=
  replicate n (MkUpdater half AtAverage).

Definition racing_table : gmap Board NodeRecord :=
  <[ [0] := MkNodeRecord 1 half false ]> ∅.

(** Worker 0 goes as far as reading the count (1) for its increment and is
    held up; workers 1 to 5 update one after the other (the count reaches
    6); worker 6 reads the average and the count, worker 0 then writes its
    count (2), and worker 6 reads the count again and finishes. *)
Definition stale_schedule : list nat :=
  replicate 5 0%nat
  ++ whole_update 1 ++ whole_update 2 ++ whole_update 3
  ++ whole_update 4 ++ whole_update 5
  ++ [6; 6; 0; 6; 6; 6; 6]%nat.

(** Worker 0 reads the average and the count (1) and is held up; workers
    1 to 3 update one after the other (the count reaches 4); worker 0 then
    reads the count again and finishes. *)
Definition early_schedule : list nat :=
  [0; 0]%nat
  ++ whole_update 1 ++ whole_update 2 ++ whole_update 3
  ++ [0; 0; 0; 0]%nat.

(** The seven workers one after the other. *)
Definition serial_schedule : list nat :=
  whole_update 0 ++ whole_update 1 ++ whole_update 2 ++ whole_update 3
  ++ whole_update 4 ++ whole_update 5 ++ whole_update 6.

#[global] Instance lexical : LexicalCast := {|
  lexical_cast := fun x =>
    match x with
    | S754_zero _ => "0"
    | S754_finite false 8388608 (-23) => "1"
    | _ => "0.500000"
    end
|}.

End Small.

(** * Properties *)

(** ** Machine integers *)

Lemma wrap_in_range z : CInt.in_range z = true -> CInt.wrap z = z.
Proof.
  unfold CInt.in_range, CInt.wrap, CInt.INT_MIN, CInt.INT_MAX. intros Hr.
  apply andb_true_iff in Hr as [H1 H2].
  apply Z.leb_le in H1. apply Z.leb_le in H2.
  rewrite Z.mod_small; lia.
Qed.

Lemma to_size_t_small z : 0 <= z <= CInt.INT_MAX -> CInt.to_size_t z = z.
Proof. unfold CInt.to_size_t, CInt.INT_MAX. intros. apply Z.mod_small. lia. Qed.

Lemma in_range_iff z :
  CInt.in_range z = true <-> CInt.INT_MIN <= z <= CInt.INT_MAX.
Proof. unfold CInt.in_range. rewrite andb_true_iff, !Z.leb_le. tauto. Qed.

Lemma int_add_Done a b :
  CInt.INT_MIN <= a + b <= CInt.INT_MAX -> int_add a b = Done (a + b).
Proof.
  intros Hr. unfold int_add.
  destruct (CInt.in_range (a + b)) eqn:E; [done|].
  apply in_range_iff in Hr. congruence.
Qed.

Lemma int_add_inv a b c : int_add a b = Done c -> c = a + b /\ CInt.INT_MIN <= c <= CInt.INT_MAX.
Proof.
  unfold int_add. destruct (CInt.in_range (a + b)) eqn:E; [|discriminate].
  intros [= <-]. split; [done|]. by apply in_range_iff.
Qed.

Lemma int_rem_worker i n :
  0 <= i <= CInt.INT_MAX -> 0 < n -> int_rem i n = Done (Z.rem i n).
Proof.
  intros Hi Hn. unfold int_rem.
  destruct (n =? 0) eqn:E0; [apply Z.eqb_eq in E0; lia|].
  destruct (i =? CInt.INT_MIN) eqn:E1; [apply Z.eqb_eq in E1; unfold CInt.INT_MIN in *; lia|].
  done.
Qed.

Lemma vector_at_lookup {A} (v : list A) (i : Z) x :
  0 <= i <= CInt.INT_MAX -> v !! Z.to_nat i = Some x -> vector_at v i = Done x.
Proof.
  intros Hi Hx. unfold vector_at. rewrite to_size_t_small by done. by rewrite Hx.
Qed.

(** ** The order that [SFcompare] puts on floats *)

Lemma Pos_compare_cont_Eq m1 m2 :
  PosDef.Pos.compare_cont Eq m1 m2 = Pos.compare m1 m2.
Proof. reflexivity. Qed.

Lemma Z_compare_def a b : IntDef.Z.compare a b = Z.compare a b.
Proof. reflexivity. Qed.

Lemma SFltb_not_nan_l a b : SFltb a b = true -> is_nan a = false.
Proof. by destruct a. Qed.

Lemma SFltb_not_nan_r a b : SFltb a b = true -> is_nan b = false.
Proof. by destruct a, b. Qed.

Ltac cmp_cases :=
  repeat match goal with
  | |- context [Z.compare ?a ?b] =>
      destruct (Z.compare_spec a b); subst; cbv beta iota
  | |- context [PosDef.Pos.compare_cont Eq ?a ?b] =>
      change (PosDef.Pos.compare_cont Eq a b) with (Pos.compare a b);
      destruct (Pos.compare_spec a b); subst; cbv beta iota
  end; cbn [CompOpp]; intros; try done; try lia.

Lemma SFltb_trans a b c :
  SFltb a b = true -> SFltb b c = true -> SFltb a c = true.
Proof.
  unfold SFltb.
  destruct a as [sa|sa| |sa ma ea], b as [sb|sb| |sb mb eb], c as [sc|sc| |sc mc ec];
    simpl; try done;
    repeat match goal with s : bool |- _ => destruct s end; simpl; try done;
    cmp_cases.
Qed.

Lemma SFleb_ltb_trans a b c :
  SFleb a b = true -> SFltb b c = true -> SFltb a c = true.
Proof.
  unfold SFltb, SFleb.
  destruct a as [sa|sa| |sa ma ea], b as [sb|sb| |sb mb eb], c as [sc|sc| |sc mc ec];
    simpl; try done;
    repeat match goal with s : bool |- _ => destruct s end; simpl; try done;
    cmp_cases.
Qed.

Lemma SFleb_total a b :
  is_nan a = false -> is_nan b = false -> SFltb b a = false -> SFleb a b = true.
Proof.
  unfold SFltb, SFleb.
  destruct a as [sa|sa| |sa ma ea], b as [sb|sb| |sb mb eb];
    simpl; try done;
    repeat match goal with s : bool |- _ => destruct s end; simpl; try done;
    cmp_cases.
Qed.

Lemma SFltb_irrefl a : SFltb a a = false.
Proof.
  unfold SFltb. destruct a as [sa|sa| |sa ma ea]; simpl; try done;
    repeat match goal with s : bool |- _ => destruct s end; simpl; try done;
    rewrite ?Pos_compare_cont_Eq, ?Z_compare_def, ?Z.compare_refl, ?Pos.compare_refl; done.
Qed.

Section SelectionProofs.

Context {FullBoard : Type} `{Countable FullBoard}.
Context `{!BoardOps FullBoard} `{!PlayoutOps FullBoard} `{!Libm}.

Implicit Types (t : gmap FullBoard NodeRecord) (b : FullBoard).

(** *** The first loop of [MaxUcbChild] *)

Lemma count_children_started t b l s n0 n :
  count_children t b l s (n0 :: n)
  = Done (s, (n0 :: n) ++ filter (fun i => GetChild t b i = None) l).
Proof.
  revert n0 n. induction l as [|i l IH]; intros n0 n; simpl.
  - by rewrite app_nil_r.
  - destruct (GetChild t b i) as [r|] eqn:E.
    + rewrite filter_cons_False by congruence. apply IH.
    + rewrite filter_cons_True by done.
      change ((n0 :: n) ++ [i]) with (n0 :: (n ++ [i])).
      rewrite IH. simpl. by rewrite <- app_assoc.
Qed.

Lemma visits_sum_cons t b i l :
  visits_sum t b (i :: l) = child_visits t b i + visits_sum t b l.
Proof. reflexivity. Qed.

Lemma visits_sum_nonneg t b l :
  Forall (fun i => 0 <= child_visits t b i) l -> 0 <= visits_sum t b l.
Proof.
  induction 1 as [|i l Hi _ IH]; [done|]. rewrite visits_sum_cons. lia.
Qed.

Lemma count_children_fresh t b l s :
  0 <= s ->
  Forall (fun i => 0 <= child_visits t b i) l ->
  s + visits_sum t b l <= CInt.INT_MAX ->
  exists s',
    count_children t b l s []
    = Done (s', filter (fun i => GetChild t b i = None) l)
    /\ (filter (fun i => GetChild t b i = None) l = [] ->
        s' = s + visits_sum t b l).
Proof.
  intros Hs Hl. revert s Hs.
  induction Hl as [|i l Hi Hl IH]; intros s Hs Hsum.
  - exists s. split; [done|]. intros _. unfold visits_sum. simpl. lia.
  - pose proof (visits_sum_nonneg _ _ _ Hl) as Hnn.
    rewrite !visits_sum_cons in *. cbn [count_children].
    unfold child_visits in Hi, Hsum |- *.
    destruct (GetChild t b i) as [r|] eqn:E.
    + rewrite filter_cons_False by congruence.
      rewrite int_add_Done by (unfold CInt.INT_MIN; lia).
      change (Done (s + GetVisitedTime r) ≫= ?k)
        with (k (s + GetVisitedTime r)). cbv beta.
      destruct (IH (s + GetVisitedTime r)) as (s' & -> & Hs'); [lia|lia|].
      exists s'. split; [done|]. intros Hf. rewrite (Hs' Hf). lia.
    + rewrite filter_cons_True by done.
      change ([] ++ [i]) with [i].
      rewrite count_children_started. exists s. split; [done|]. done.
Qed.

(** *** The second loop of [MaxUcbChild] *)

Lemma selectable_inv t b i :
  selectable t b i = true ->
  exists r, GetChild t b i = Some r /\ IsInSearch r = false
            /\ IsSuicide b (MkMove (NextForce b) i) = false.
Proof.
  unfold selectable. destruct (GetChild t b i) as [r|]; [|done].
  intros [H1 H2]%andb_true_iff. exists r.
  apply negb_true_iff in H1. apply negb_true_iff in H2. done.
Qed.

Lemma select_max_ucb_spec t b sum l :
  forall seen max_ucb max_ucb_index,
  Forall (fun i => forall r, GetChild t b i = Some r -> 0 < GetVisitedTime r) l ->
  Forall (fun i => selectable t b i = true ->
            F32.gt (ucb_at t b sum i) F32.minus_one = true) (seen ++ l) ->
  running_max t b sum seen max_ucb max_ucb_index ->
  exists m,
    select_max_ucb t b sum l max_ucb max_ucb_index = Done m
    /\ exists mx, running_max t b sum (seen ++ l) mx m.
Proof.
  induction l as [|i l IH]; intros seen mx idx Hpos Hgt Hinv.
  - simpl. exists idx. split; [done|]. exists mx. by rewrite app_nil_r.
  - simpl. apply Forall_cons in Hpos as [Hi Hpos].
    assert (Hgt' : Forall (fun i => selectable t b i = true ->
              F32.gt (ucb_at t b sum i) F32.minus_one = true) ((seen ++ [i]) ++ l))
      by (by rewrite <- app_assoc).
    assert (Hgti : selectable t b i = true ->
              F32.gt (ucb_at t b sum i) F32.minus_one = true).
    { rewrite Forall_app in Hgt. destruct Hgt as [_ Hgt].
      by apply Forall_cons in Hgt as [Hgt _]. }
    assert (Hseen : Forall (fun i => selectable t b i = true ->
              F32.gt (ucb_at t b sum i) F32.minus_one = true) seen).
    { rewrite Forall_app in Hgt. by destruct Hgt as [Hgt _]. }
    assert (Hskip : selectable t b i = false ->
              running_max t b sum (seen ++ [i]) mx idx).
    { intros Hsel. unfold running_max in *.
      rewrite filter_app, filter_cons_False, filter_nil, app_nil_r
        by (rewrite Hsel; done). done. }
    replace (seen ++ i :: l) with ((seen ++ [i]) ++ l)
      by (by rewrite <- app_assoc).
    unfold selectable in Hskip, Hgti. unfold ucb_at in Hgti.
    destruct (GetChild t b i) as [r|] eqn:E.
    2:{ apply (IH (seen ++ [i])); auto. }
    destruct (IsInSearch r) eqn:Es.
    { apply (IH (seen ++ [i])); auto. }
    unfold Ucb. specialize (Hi r eq_refl).
    destruct (GetVisitedTime r >? 0) eqn:Ev; [|rewrite Z.gtb_ltb in Ev; apply Z.ltb_ge in Ev; lia].
    change (Done (ucb_value r sum) ≫= ?k) with (k (ucb_value r sum)).
    cbv beta.
    destruct (IsSuicide b (MkMove (NextForce b) i)) eqn:Esu.
    { rewrite andb_false_r. apply (IH (seen ++ [i])); auto. }
    simpl in Hgti. specialize (Hgti eq_refl).
    rewrite andb_true_r.
    assert (Hsel : selectable t b i = true).
    { unfold selectable. by rewrite E, Es, Esu. }
    destruct (F32.gt (ucb_value r sum) mx) eqn:Egt.
    + apply (IH (seen ++ [i])); auto.
      unfold running_max in *. rewrite filter_app, filter_cons_True, filter_nil by done.
      destruct Hinv as [(-> & -> & Hnone)|(pre & post & Hdec & -> & Hpre & Hpost)].
      * right. exists [], []. rewrite Hnone. simpl.
        unfold ucb_at. rewrite E. repeat split; auto.
      * right. exists (pre ++ idx :: post), []. rewrite Hdec.
        unfold ucb_at at 1. rewrite E. repeat split; auto.
        unfold ucb_at at 1. rewrite E.
        assert (Hsub : forall j, j ∈ pre ++ idx :: post -> selectable t b j = true
                  /\ j ∈ seen).
        { intros j Hj. rewrite <- Hdec in Hj. apply list_elem_of_filter in Hj. done. }
        apply Forall_forall. intros j Hj.
        destruct (Hsub j Hj) as [Hjs Hjseen].
        rewrite Forall_forall in Hseen. specialize (Hseen j Hjseen Hjs).
        unfold F32.gt in *.
        apply elem_of_app in Hj as [Hj|Hj].
        { rewrite Forall_forall in Hpre. specialize (Hpre j Hj).
          eapply SFltb_trans; eauto. }
        apply elem_of_cons in Hj as [->|Hj]; [done|].
        rewrite Forall_forall in Hpost. specialize (Hpost j Hj).
        eapply SFleb_ltb_trans; [|exact Egt].
        apply SFleb_total; auto.
        -- eapply SFltb_not_nan_r; eauto.
        -- eapply SFltb_not_nan_l; eauto.
    + apply (IH (seen ++ [i])); auto.
      unfold running_max in *. rewrite filter_app, filter_cons_True, filter_nil by done.
      destruct Hinv as [(-> & -> & Hnone)|(pre & post & Hdec & -> & Hpre & Hpost)].
      * congruence.
      * right. exists pre, (post ++ [i]). rewrite Hdec, <- app_assoc. simpl.
        repeat split; auto.
        apply Forall_app. split; [done|]. apply Forall_singleton.
        unfold ucb_at at 1. by rewrite E.
Qed.

End SelectionProofs.

(** ** Binary digits *)

Lemma digits2_pos_bounds p :
  2 ^ (Zpos (digits2_pos p) - 1) <= Zpos p < 2 ^ Zpos (digits2_pos p).
Proof.
  induction p as [p IH|p IH|]; cbn [digits2_pos].
  - rewrite Pos2Z.inj_succ.
    replace (Z.succ (Zpos (digits2_pos p)) - 1) with (Z.succ (Zpos (digits2_pos p) - 1)) by lia.
    rewrite !Z.pow_succ_r by lia. lia.
  - rewrite Pos2Z.inj_succ.
    replace (Z.succ (Zpos (digits2_pos p)) - 1) with (Z.succ (Zpos (digits2_pos p) - 1)) by lia.
    rewrite !Z.pow_succ_r by lia. lia.
  - simpl. lia.
Qed.

Lemma Zdigits2_bounds m :
  0 < m -> 2 ^ (Zdigits2 m - 1) <= m < 2 ^ Zdigits2 m.
Proof.
  destruct m as [|p|p]; try lia. intros _. apply digits2_pos_bounds.
Qed.

Lemma Zdigits2_nonneg m : 0 <= Zdigits2 m.
Proof. destruct m; simpl; lia. Qed.

Lemma Zdigits2_pos m : 0 < m -> 0 < Zdigits2 m.
Proof. destruct m; simpl; lia. Qed.

Lemma pow2_lt_inv a b : 0 <= b -> 2 ^ a < 2 ^ b -> a < b.
Proof.
  intros Hb Hlt. destruct (Z_lt_le_dec a b) as [|Hle]; [done|].
  assert (2 ^ b <= 2 ^ a) by (apply Z.pow_le_mono_r; lia). lia.
Qed.

Lemma Zdigits2_unique m d :
  0 < m -> 2 ^ (d - 1) <= m < 2 ^ d -> Zdigits2 m = d.
Proof.
  intros Hm [Hlo Hhi]. pose proof (Zdigits2_bounds m Hm) as [Hlo' Hhi'].
  pose proof (Zdigits2_pos m Hm).
  assert (0 <= d).
  { destruct (Z_lt_le_dec d 0) as [Hd|]; [|done].
    rewrite Z.pow_neg_r in Hhi by done. lia. }
  assert (Zdigits2 m - 1 < d) by (apply pow2_lt_inv; lia).
  assert (d - 1 < Zdigits2 m).
  { destruct (Z_lt_le_dec (d - 1) 0); [lia|]. apply pow2_lt_inv; lia. }
  lia.
Qed.

Lemma Zdigits2_le m n : 0 <= m <= n -> Zdigits2 m <= Zdigits2 n.
Proof.
  intros [Hm Hmn]. destruct (Z.eq_dec m 0) as [->|Hne].
  { apply Zdigits2_nonneg. }
  pose proof (Zdigits2_bounds m ltac:(lia)) as [Hlo _].
  pose proof (Zdigits2_bounds n ltac:(lia)) as [_ Hhi].
  pose proof (Zdigits2_pos n ltac:(lia)).
  assert (Zdigits2 m - 1 < Zdigits2 n) by (apply pow2_lt_inv; lia). lia.
Qed.

Lemma Zdigits2_mul_pow2 m j :
  0 < m -> 0 <= j -> Zdigits2 (m * 2 ^ j) = Zdigits2 m + j.
Proof.
  intros Hm Hj. pose proof (Zdigits2_bounds m Hm) as [Hlo Hhi].
  pose proof (Zdigits2_pos m Hm).
  assert (0 < 2 ^ j) by (apply Z.pow_pos_nonneg; lia).
  apply Zdigits2_unique; [lia|].
  replace (Zdigits2 m + j - 1) with ((Zdigits2 m - 1) + j) by lia.
  rewrite !Z.pow_add_r by lia. nia.
Qed.

Lemma Zdigits2_div_pow2 m k :
  0 < m -> 0 <= k -> k < Zdigits2 m ->
  Zdigits2 (m / 2 ^ k) = Zdigits2 m - k.
Proof.
  intros Hm Hk Hlt. pose proof (Zdigits2_bounds m Hm) as [Hlo Hhi].
  assert (Hp : 0 < 2 ^ k) by (apply Z.pow_pos_nonneg; lia).
  assert (Hq : 2 ^ (Zdigits2 m - k - 1) <= m / 2 ^ k).
  { apply Z.div_le_lower_bound; [done|].
    rewrite <- Z.pow_add_r by lia.
    replace (k + (Zdigits2 m - k - 1)) with (Zdigits2 m - 1) by lia. done. }
  assert (Hq' : m / 2 ^ k < 2 ^ (Zdigits2 m - k)).
  { apply Z.div_lt_upper_bound; [done|].
    rewrite <- Z.pow_add_r by lia.
    replace (k + (Zdigits2 m - k)) with (Zdigits2 m) by lia. done. }
  assert (0 < 2 ^ (Zdigits2 m - k - 1)) by (apply Z.pow_pos_nonneg; lia).
  apply Zdigits2_unique; [lia|]. split; [|done].
  replace (Zdigits2 m - k - 1) with (Zdigits2 m - k - 1) by lia. done.
Qed.

Lemma div_pow2_small m k :
  0 <= m -> Zdigits2 m <= k -> m / 2 ^ k = 0.
Proof.
  intros Hm Hk. destruct (Z.eq_dec m 0) as [->|Hne]; [apply Z.div_0_l|].
  { pose proof (Zdigits2_nonneg 0). apply Z.pow_nonzero; lia. }
  pose proof (Zdigits2_bounds m ltac:(lia)) as [_ Hhi].
  pose proof (Zdigits2_pos m ltac:(lia)).
  apply Z.div_small. split; [done|].
  assert (2 ^ Zdigits2 m <= 2 ^ k) by (apply Z.pow_le_mono_r; lia). lia.
Qed.

Lemma Z_div_eucl_eq a b : Z.div_eucl a b = (a / b, a mod b).
Proof. unfold Z.div, Z.modulo. destruct (Z.div_eucl a b). reflexivity. Qed.

(** ** [fexp] for binary32 *)

Lemma fexp_32 x : fexp 24 128 x = Z.max (x - 24) (-149).
Proof. reflexivity. Qed.

(** ** Shifting a mantissa right *)

Lemma pow2_pred k : 0 < k -> 2 ^ k = 2 ^ (k - 1) * 2.
Proof.
  intros Hk. replace k with (Z.succ (k - 1)) at 1 by lia.
  rewrite Z.pow_succ_r by lia. lia.
Qed.

Lemma iter_pos_comm {A} (f : A -> A) p : forall x,
  SpecFloat.iter_pos f p (f x) = f (SpecFloat.iter_pos f p x).
Proof.
  induction p as [p IH|p IH|]; intros x; cbn [SpecFloat.iter_pos].
  - by rewrite !IH.
  - by rewrite !IH.
  - done.
Qed.

Lemma iter_pos_succ {A} (f : A -> A) p : forall x,
  SpecFloat.iter_pos f (Pos.succ p) x = f (SpecFloat.iter_pos f p x).
Proof.
  induction p as [p IH|p IH|]; intros x; simpl.
  - by rewrite !IH, !iter_pos_comm.
  - by rewrite !iter_pos_comm.
  - done.
Qed.

Lemma shr_1_nonneg m r s :
  0 <= m ->
  shr_1 (Build_shr_record m r s)
  = Build_shr_record (m / 2) (Z.odd m) (r || s).
Proof.
  intros Hm. rewrite <- Z.div2_div.
  destruct m as [|[p|p|]|p]; try lia; reflexivity.
Qed.

Lemma shr_iter m r0 s0 p :
  0 <= m ->
  SpecFloat.iter_pos shr_1 p (Build_shr_record m r0 s0)
  = Build_shr_record (m / 2 ^ Zpos p)
      (Z.odd (m / 2 ^ (Zpos p - 1)))
      (negb (m mod 2 ^ (Zpos p - 1) =? 0) || (r0 || s0)).
Proof.
  intros Hm. induction p as [|p IH] using Pos.peano_ind.
  - cbn [SpecFloat.iter_pos]. rewrite shr_1_nonneg by done.
    change (Zpos 1 - 1) with 0. rewrite Z.pow_0_r, Z.div_1_r, Z.mod_1_r.
    reflexivity.
  - rewrite iter_pos_succ, IH.
    assert (Hp : 0 < 2 ^ Zpos p) by (apply Z.pow_pos_nonneg; lia).
    assert (Hp1 : 0 < 2 ^ (Zpos p - 1)) by (apply Z.pow_pos_nonneg; lia).
    rewrite shr_1_nonneg by (apply Z.div_pos; lia).
    rewrite Pos2Z.inj_succ.
    replace (Z.succ (Zpos p) - 1) with (Zpos p) by lia.
    rewrite Z.pow_succ_r by lia.
    rewrite Z.div_div by lia. rewrite (Z.mul_comm (2 ^ Zpos p) 2).
    f_equal.
    assert (Hsplit : m mod 2 ^ Zpos p
                     = m mod 2 ^ (Zpos p - 1)
                       + 2 ^ (Zpos p - 1) * ((m / 2 ^ (Zpos p - 1)) mod 2)).
    { rewrite (pow2_pred (Zpos p)) by lia. apply Z.rem_mul_r; lia. }
    pose proof (Z.mod_pos_bound m (2 ^ (Zpos p - 1)) Hp1) as Hb.
    rewrite Zmod_odd in Hsplit.
    destruct (Z.odd (m / 2 ^ (Zpos p - 1))) eqn:Eo; simpl.
    + destruct (m mod 2 ^ Zpos p =? 0) eqn:E0; [apply Z.eqb_eq in E0; lia|done].
    + destruct (m mod 2 ^ (Zpos p - 1) =? 0) eqn:E1.
      * apply Z.eqb_eq in E1.
        destruct (m mod 2 ^ Zpos p =? 0) eqn:E0; [done|apply Z.eqb_neq in E0; lia].
      * apply Z.eqb_neq in E1.
        destruct (m mod 2 ^ Zpos p =? 0) eqn:E0; [apply Z.eqb_eq in E0; lia|done].
Qed.

(** The mantissa after rounding the shifted record. *)
Lemma round_shr_bounds m r0 s0 p :
  0 <= m ->
  let mrs := SpecFloat.iter_pos shr_1 p (Build_shr_record m r0 s0) in
  m / 2 ^ Zpos p <= round_nearest_even (shr_m mrs) (loc_of_shr_record mrs)
                 <= m / 2 ^ Zpos p + 1.
Proof.
  intros Hm mrs. subst mrs. rewrite shr_iter by done.
  cbn [shr_m loc_of_shr_record].
  destruct (Z.odd _), (_ || _); cbn [round_nearest_even]; try lia.
  destruct (Z.even _); lia.
Qed.

Lemma round_shr_exact m p :
  0 <= m ->
  let mrs := SpecFloat.iter_pos shr_1 p (Build_shr_record m false false) in
  round_nearest_even (shr_m mrs) (loc_of_shr_record mrs)
  = rne_grid m (2 ^ Zpos p).
Proof.
  intros Hm mrs. subst mrs. rewrite shr_iter by done.
  cbn [shr_m loc_of_shr_record]. unfold rne_grid.
  assert (Hp1 : 0 < 2 ^ (Zpos p - 1)) by (apply Z.pow_pos_nonneg; lia).
  assert (Hpow : 2 ^ Zpos p = 2 ^ (Zpos p - 1) * 2) by (apply pow2_pred; lia).
  assert (Hsplit : m mod 2 ^ Zpos p
                   = m mod 2 ^ (Zpos p - 1)
                     + 2 ^ (Zpos p - 1) * ((m / 2 ^ (Zpos p - 1)) mod 2)).
  { rewrite Hpow. apply Z.rem_mul_r; lia. }
  pose proof (Z.mod_pos_bound m (2 ^ (Zpos p - 1)) Hp1) as Hb.
  rewrite Zmod_odd in Hsplit. rewrite orb_false_r.
  destruct (Z.odd (m / 2 ^ (Zpos p - 1))) eqn:Eo;
    destruct (m mod 2 ^ (Zpos p - 1) =? 0) eqn:E1;
    [apply Z.eqb_eq in E1|apply Z.eqb_neq in E1
    |apply Z.eqb_eq in E1|apply Z.eqb_neq in E1];
    cbn [negb loc_of_shr_record round_nearest_even];
    destruct (Z.compare_spec (2 * (m mod 2 ^ Zpos p)) (2 ^ Zpos p));
    try lia; reflexivity.
Qed.

Lemma rne_grid_exact m : rne_grid m 1 = m.
Proof.
  unfold rne_grid. rewrite Z.div_1_r, Z.mod_1_r. reflexivity.
Qed.

Lemma rne_grid_bounds v g :
  0 < g -> v / g <= rne_grid v g <= v / g + 1.
Proof.
  intros Hg. unfold rne_grid.
  destruct (2 * (v mod g) ?= g); [destruct (Z.even _)| |]; lia.
Qed.

(** ** What [binary_round_aux] returns *)

Lemma loc_of_shr_record_of_loc m l :
  loc_of_shr_record (shr_record_of_loc m l) = l.
Proof. destruct l as [|[]]; reflexivity. Qed.

Lemma shr_m_of_loc m l : shr_m (shr_record_of_loc m l) = m.
Proof. destruct l as [|[]]; reflexivity. Qed.

Lemma shr_nonpos mrs e n : n <= 0 -> shr mrs e n = (mrs, e).
Proof. destruct n; try lia; reflexivity. Qed.

Lemma round_nearest_even_bounds m l :
  m <= round_nearest_even m l <= m + 1.
Proof. destruct l as [|[]]; simpl; try lia. destruct (Z.even m); lia. Qed.

(** The first shift and the rounding. *)
Lemma first_round M e lx k :
  0 <= M -> 0 <= k ->
  exists m2,
    (let '(mrs, e') := shr (shr_record_of_loc M lx) e k in
     (round_nearest_even (shr_m mrs) (loc_of_shr_record mrs), e'))
    = (m2, e + k)
    /\ M / 2 ^ k <= m2 <= M / 2 ^ k + 1
    /\ (lx = loc_Exact -> m2 = rne_grid M (2 ^ k)).
Proof.
  intros HM Hk. destruct k as [|p|p]; [| |lia].
  - rewrite shr_nonpos by lia. rewrite Z.add_0_r, Z.pow_0_r, Z.div_1_r.
    rewrite shr_m_of_loc, loc_of_shr_record_of_loc.
    eexists. split; [reflexivity|]. split; [apply round_nearest_even_bounds|].
    intros ->. by rewrite rne_grid_exact.
  - cbn [shr].
    assert (Hrec : exists r0 s0, shr_record_of_loc M lx = Build_shr_record M r0 s0
                     /\ (lx = loc_Exact -> r0 = false /\ s0 = false)).
    { destruct lx as [|[]]; simpl; eexists _, _; split; try reflexivity;
        intros; try discriminate; done. }
    destruct Hrec as (r0 & s0 & -> & Hex).
    eexists. split; [reflexivity|]. split; [by apply round_shr_bounds|].
    intros Hl. destruct (Hex Hl) as [-> ->]. by apply round_shr_exact.
Qed.

Lemma mantissa_after_shift M e k :
  0 <= M -> k = fexp 24 128 (Zdigits2 M + e) - e -> 0 <= k ->
  M / 2 ^ k < 16777216 /\ (-149 < e + k -> 8388608 <= M / 2 ^ k).
Proof.
  intros HM Hkdef Hk. rewrite fexp_32 in Hkdef.
  destruct (Z.eq_dec M 0) as [->|Hne].
  { rewrite Z.div_0_l by (apply Z.pow_nonzero; lia). simpl in Hkdef. lia. }
  pose proof (Zdigits2_pos M ltac:(lia)) as Hd.
  destruct (Z_lt_le_dec k (Zdigits2 M)) as [Hlt|Hge].
  - pose proof (Zdigits2_div_pow2 M k ltac:(lia) Hk Hlt) as Hdig.
    assert (Hpos : 0 < M / 2 ^ k).
    { apply Z.div_str_pos. split; [apply Z.pow_pos_nonneg; lia|].
      pose proof (Zdigits2_bounds M ltac:(lia)) as [Hlo _].
      assert (2 ^ k <= 2 ^ (Zdigits2 M - 1)) by (apply Z.pow_le_mono_r; lia). lia. }
    pose proof (Zdigits2_bounds _ Hpos) as [Hlo Hhi]. rewrite Hdig in Hlo, Hhi.
    split.
    + assert (2 ^ (Zdigits2 M - k) <= 2 ^ 24) by (apply Z.pow_le_mono_r; lia).
      change (2 ^ 24) with 16777216 in *. lia.
    + intros Hn. assert (Zdigits2 M - k = 24) as Heq by lia.
      rewrite Heq in Hlo. change (2 ^ (24 - 1)) with 8388608 in Hlo. lia.
  - rewrite div_pow2_small by lia. split; [lia|]. lia.
Qed.

Lemma second_round m2 e1 :
  rounded m2 e1 -> e1 <= 103 ->
  (let '(mrs, e') := shr_fexp 24 128 m2 e1 loc_Exact in
   match shr_m mrs with
   | Z0 => S754_zero false
   | Zpos m => if e' <=? 128 - 24 then S754_finite false m e'
               else S754_infinity false
   | Zneg _ => S754_nan
   end) = mk_float m2 e1.
Proof.
  intros ([Hlo Hhi] & He & Hn) Hmax. unfold shr_fexp, mk_float.
  rewrite fexp_32. cbn [shr_record_of_loc].
  destruct (Z.eq_dec m2 16777216) as [->|Hne].
  - change (Zdigits2 16777216) with 25.
    replace (Z.max (25 + e1 - 24) (-149) - e1) with 1 by lia.
    cbn [shr SpecFloat.iter_pos]. rewrite shr_1_nonneg by lia.
    cbn [shr_m]. change (16777216 / 2) with 8388608.
    change (16777216 =? 0) with false. change (16777216 <? 16777216) with false.
    cbv iota. destruct (e1 + 1 <=? 128 - 24) eqn:E; [done|].
    apply Z.leb_gt in E. lia.
  - assert (Hk2 : Z.max (Zdigits2 m2 + e1 - 24) (-149) - e1 <= 0).
    { destruct (Z.eq_dec m2 0) as [->|Hpos]; [simpl; lia|].
      pose proof (Zdigits2_bounds m2 ltac:(lia)) as [Hd _].
      assert (Zdigits2 m2 - 1 < 24).
      { apply pow2_lt_inv; [lia|]. change (2 ^ 24) with 16777216. lia. }
      lia. }
    rewrite shr_nonpos by done. cbn [shr_m].
    destruct m2 as [|p|p]; [done| |lia].
    change (Zpos p =? 0) with false. cbv iota.
    destruct (Zpos p <? 16777216) eqn:E1; [|apply Z.ltb_ge in E1; lia].
    destruct (e1 <=? 128 - 24) eqn:E2; [done|apply Z.leb_gt in E2; lia].
Qed.

Lemma binary_round_aux_spec M e lx :
  0 <= M ->
  let k := fexp 24 128 (Zdigits2 M + e) - e in
  0 <= k -> e + k <= 103 ->
  exists m2,
    binary_round_aux 24 128 false M e lx = mk_float m2 (e + k)
    /\ M / 2 ^ k <= m2 <= M / 2 ^ k + 1
    /\ rounded m2 (e + k)
    /\ (lx = loc_Exact -> m2 = rne_grid M (2 ^ k)).
Proof.
  intros HM k Hk Hmax.
  destruct (first_round M e lx k HM Hk) as (m2 & Hfirst & Hb & Hex).
  destruct (mantissa_after_shift M e k HM eq_refl Hk) as [Hsmall Hnormal].
  assert (Hr : rounded m2 (e + k)).
  { split; [|split].
    - assert (0 <= M / 2 ^ k) by (apply Z.div_pos; [lia|apply Z.pow_pos_nonneg; lia]).
      lia.
    - subst k. rewrite fexp_32. lia.
    - intros Hn. specialize (Hnormal Hn). lia. }
  exists m2. split; [|done].
  unfold binary_round_aux. unfold shr_fexp at 1. fold k.
  destruct (shr (shr_record_of_loc M lx) e k) as [mrs e'] eqn:Es.
  injection Hfirst as Hm2 He'. rewrite Hm2, He'.
  by apply second_round.
Qed.

(** ** Rounding to nearest on a grid *)

Lemma rne_grid_scale v g c :
  0 < g -> 0 < c -> rne_grid (v * c) (g * c) = rne_grid v g.
Proof.
  intros Hg Hc. unfold rne_grid.
  rewrite Z.div_mul_cancel_r by lia. rewrite Z.mul_mod_distr_r by lia.
  replace (2 * (v mod g * c)) with ((2 * (v mod g)) * c) by lia.
  rewrite <- Zmult_compare_compat_r by lia. reflexivity.
Qed.

Lemma rne_grid_mono v v' g :
  0 < g -> v <= v' -> rne_grid v g <= rne_grid v' g.
Proof.
  intros Hg Hle.
  pose proof (Z.div_le_mono v v' g Hg Hle) as Hq.
  pose proof (rne_grid_bounds v g Hg) as [_ Hup].
  pose proof (rne_grid_bounds v' g Hg) as [Hlo' _].
  destruct (Z.eq_dec (v / g) (v' / g)) as [Heq|Hne]; [|lia].
  pose proof (Z.div_mod v g ltac:(lia)) as Ev.
  pose proof (Z.div_mod v' g ltac:(lia)) as Ev'.
  assert (Hr : v mod g <= v' mod g) by nia.
  unfold rne_grid. rewrite <- Heq.
  destruct (Z.compare_spec (2 * (v mod g)) g);
    destruct (Z.compare_spec (2 * (v' mod g)) g);
    try lia; destruct (Z.even (v / g)); lia.
Qed.

Lemma rne_grid_multiple c g : 0 < g -> rne_grid (c * g) g = c.
Proof.
  intros Hg. unfold rne_grid. rewrite Z.div_mul, Z.mod_mul by lia.
  destruct (Z.compare_spec (2 * 0) g); lia.
Qed.

(** ** Exponents of the grid *)

Lemma grid_exponent_dyadic M e :
  0 < M -> -400 <= e ->
  grid_exponent (dyadic M e) = fexp 24 128 (Zdigits2 M + e).
Proof.
  intros HM He. unfold grid_exponent, dyadic.
  rewrite Zdigits2_mul_pow2 by lia. rewrite fexp_32. lia.
Qed.

Lemma grid_exponent_mono v v' :
  0 <= v <= v' -> grid_exponent v <= grid_exponent v'.
Proof.
  intros Hv. unfold grid_exponent. pose proof (Zdigits2_le v v' Hv). lia.
Qed.

Lemma grid_exponent_min v : -149 <= grid_exponent v.
Proof. unfold grid_exponent. lia. Qed.

(** ** [binary_round_aux] on an exact value is [RND] *)

Lemma binary_round_aux_exact M e :
  0 < M -> -400 <= e ->
  0 <= fexp 24 128 (Zdigits2 M + e) - e ->
  fexp 24 128 (Zdigits2 M + e) <= 103 ->
  binary_round_aux 24 128 false M e loc_Exact = RND (dyadic M e)
  /\ rounded (rne_grid (dyadic M e) (2 ^ (grid_exponent (dyadic M e) + 400)))
       (grid_exponent (dyadic M e)).
Proof.
  intros HM He Hk Hmax.
  assert (Hmax' : e + (fexp 24 128 (Zdigits2 M + e) - e) <= 103) by lia.
  assert (HM' : 0 <= M) by lia.
  pose proof (binary_round_aux_spec M e loc_Exact HM') as Hspec.
  cbv zeta in Hspec.
  destruct (Hspec Hk Hmax') as (m2 & Heq & _ & Hr & Hex). clear Hspec.
  specialize (Hex eq_refl).
  set (k := fexp 24 128 (Zdigits2 M + e) - e) in *.
  assert (Hg : grid_exponent (dyadic M e) = e + k).
  { rewrite grid_exponent_dyadic by done. subst k. lia. }
  clearbody k.
  assert (Hm : rne_grid (dyadic M e) (2 ^ (e + k + 400)) = m2).
  { rewrite Hex. unfold dyadic.
    replace (e + k + 400) with (k + (e + 400)) by lia.
    rewrite (Z.pow_add_r 2 k (e + 400)) by lia.
    apply rne_grid_scale; apply Z.pow_pos_nonneg; lia. }
  unfold RND. rewrite Hg, Hm. done.
Qed.

Lemma RND_rounded v :
  0 <= v -> grid_exponent v <= 103 ->
  rounded (rne_grid v (2 ^ (grid_exponent v + 400))) (grid_exponent v).
Proof.
  intros Hv Hmax. destruct (Z.eq_dec v 0) as [->|Hne].
  - change (grid_exponent 0) with (-149) in *.
    replace (rne_grid 0 (2 ^ (-149 + 400))) with 0 by reflexivity.
    repeat split; lia.
  - assert (Hd : dyadic v (-400) = v).
    { unfold dyadic. change (-400 + 400) with 0. rewrite Z.pow_0_r. lia. }
    pose proof (grid_exponent_dyadic v (-400) ltac:(lia) ltac:(lia)) as Hg.
    rewrite Hd in Hg.
    destruct (binary_round_aux_exact v (-400)) as [_ Hr]; try lia.
    + rewrite <- Hg. pose proof (grid_exponent_min v). lia.
    + by rewrite Hd in Hr.
Qed.

(** ** Comparing rounded numbers *)

Lemma SFleb_finite m e m' e' :
  SFleb (S754_finite false m e) (S754_finite false m' e') = true
  <-> e < e' \/ (e = e' /\ (m <= m')%positive).
Proof.
  unfold SFleb, SFcompare.
  change (PosDef.Pos.compare_cont Eq m m') with (Pos.compare m m').
  destruct (Z.compare_spec e e'); [destruct (Pos.compare_spec m m')| |];
    split; intros; try done; try lia.
Qed.

Lemma mk_float_le_same m m' e :
  rounded m e -> rounded m' e -> m <= m' ->
  SFleb (mk_float m e) (mk_float m' e) = true.
Proof.
  intros ([H0 H1] & He & Hn) ([H0' H1'] & _ & Hn') Hle. unfold mk_float.
  destruct (m =? 0) eqn:E0; [apply Z.eqb_eq in E0|apply Z.eqb_neq in E0];
    destruct (m' =? 0) eqn:E0'; [apply Z.eqb_eq in E0'|apply Z.eqb_neq in E0'
                                |apply Z.eqb_eq in E0'|apply Z.eqb_neq in E0'];
    try lia; try done.
  - destruct (m' <? 16777216); done.
  - destruct (m <? 16777216) eqn:E1; [apply Z.ltb_lt in E1|apply Z.ltb_ge in E1];
      destruct (m' <? 16777216) eqn:E1'; [apply Z.ltb_lt in E1'|apply Z.ltb_ge in E1'
                                         |apply Z.ltb_lt in E1'|apply Z.ltb_ge in E1'];
      apply SFleb_finite; lia.
Qed.

Lemma mk_float_le_lower m m' e e' :
  rounded m e -> rounded m' e' -> e < e' ->
  SFleb (mk_float m e) (mk_float m' e') = true.
Proof.
  intros ([H0 H1] & He & Hn) ([H0' H1'] & _ & Hn') Hlt. unfold mk_float.
  specialize (Hn' ltac:(lia)).
  destruct (m' =? 0) eqn:E0'; [apply Z.eqb_eq in E0'; lia|].
  destruct (m =? 0) eqn:E0; [destruct (m' <? 16777216); done|apply Z.eqb_neq in E0].
  destruct (m <? 16777216) eqn:E1; [apply Z.ltb_lt in E1|apply Z.ltb_ge in E1];
    destruct (m' <? 16777216) eqn:E1'; [apply Z.ltb_lt in E1'|apply Z.ltb_ge in E1'
                                       |apply Z.ltb_lt in E1'|apply Z.ltb_ge in E1'];
    apply SFleb_finite; lia.
Qed.

(** [RND] is monotone. *)
Lemma RND_mono v v' :
  0 <= v <= v' -> grid_exponent v' <= 103 ->
  SFleb (RND v) (RND v') = true.
Proof.
  intros Hv Hmax. pose proof (grid_exponent_mono v v' Hv) as He.
  pose proof (RND_rounded v ltac:(lia) ltac:(lia)) as Hr.
  pose proof (RND_rounded v' ltac:(lia) ltac:(lia)) as Hr'.
  unfold RND. destruct (Z.eq_dec (grid_exponent v) (grid_exponent v')) as [Heq|Hne].
  - rewrite Heq in *. apply mk_float_le_same; [done|done|].
    apply rne_grid_mono; [|lia]. apply Z.pow_pos_nonneg; [lia|].
    pose proof (grid_exponent_min v'). lia.
  - apply mk_float_le_lower; [done|done|lia].
Qed.

(** ** Well-formed numbers *)

Lemma valid_finite_inv s m e :
  valid_binary 24 128 (S754_finite s m e) = true ->
  fexp 24 128 (Zdigits2 (Zpos m) + e) = e
  /\ e <= 104 /\ Zpos m < 16777216 /\ rounded (Zpos m) e.
Proof.
  cbn [valid_binary]. unfold bounded, canonical_mantissa.
  intros [Hc He]%andb_true_iff. apply Z.eqb_eq in Hc. apply Z.leb_le in He.
  change (Zpos (digits2_pos m)) with (Zdigits2 (Zpos m)) in Hc.
  split; [done|]. split; [lia|].
  rewrite fexp_32 in Hc.
  pose proof (Zdigits2_bounds (Zpos m) ltac:(lia)) as [Hlo Hhi].
  pose proof (Zdigits2_pos (Zpos m) ltac:(lia)) as Hd.
  assert (Hdig : Zdigits2 (Zpos m) <= 24) by lia.
  assert (H24 : 2 ^ Zdigits2 (Zpos m) <= 2 ^ 24) by (apply Z.pow_le_mono_r; lia).
  change (2 ^ 24) with 16777216 in H24.
  split; [lia|]. split; [lia|]. split; [lia|].
  intros Hn. assert (Zdigits2 (Zpos m) = 24) as Heq by lia.
  rewrite Heq in Hlo. change (2 ^ (24 - 1)) with 8388608 in Hlo. lia.
Qed.

Lemma mk_float_valid m e :
  rounded m e -> e <= 103 -> valid_binary 24 128 (mk_float m e) = true.
Proof.
  intros ([H0 H1] & He & Hn) Hmax. unfold mk_float.
  destruct (m =? 0) eqn:E0; [done|apply Z.eqb_neq in E0].
  destruct (m <? 16777216) eqn:E1; [apply Z.ltb_lt in E1|apply Z.ltb_ge in E1].
  - cbn [valid_binary]. unfold bounded, canonical_mantissa.
    apply andb_true_iff. split; [|apply Z.leb_le; lia].
    apply Z.eqb_eq. destruct m as [|p|p]; try lia. cbn [Z.to_pos].
    change (Zpos (digits2_pos p)) with (Zdigits2 (Zpos p)).
    rewrite fexp_32.
    pose proof (Zdigits2_bounds (Zpos p) ltac:(lia)) as [Hlo Hhi].
    assert (Zdigits2 (Zpos p) - 1 < 24).
    { apply pow2_lt_inv; [lia|]. change (2 ^ 24) with 16777216. lia. }
    destruct (Z.eq_dec e (-149)) as [->|Hne]; [lia|].
    specialize (Hn ltac:(lia)).
    assert (23 < Zdigits2 (Zpos p)).
    { pose proof (Zdigits2_pos (Zpos p) ltac:(lia)).
      apply pow2_lt_inv; [lia|]. change (2 ^ 23) with 8388608. lia. }
    lia.
  - cbn [valid_binary]. unfold bounded, canonical_mantissa.
    apply andb_true_iff. split; [|apply Z.leb_le; lia].
    apply Z.eqb_eq. change (Zpos (digits2_pos 8388608)) with 24.
    rewrite fexp_32. lia.
Qed.

Lemma sval_mk_float m e :
  rounded m e -> sval (mk_float m e) = dyadic m e.
Proof.
  intros ([H0 H1] & He & Hn). unfold mk_float, dyadic.
  destruct (m =? 0) eqn:E0; [apply Z.eqb_eq in E0; subst; done|apply Z.eqb_neq in E0].
  destruct (m <? 16777216) eqn:E1; [apply Z.ltb_lt in E1|apply Z.ltb_ge in E1].
  - cbn [sval]. unfold dyadic. rewrite Z2Pos.id by lia. done.
  - cbn [sval]. unfold dyadic. assert (m = 16777216) as -> by lia.
    replace (e + 1 + 400) with (Z.succ (e + 400)) by lia.
    rewrite Z.pow_succ_r by lia. lia.
Qed.

(** Rounding a binary32 number gives it back. *)
Lemma RND_sval s m e :
  valid_binary 24 128 (S754_finite s m e) = true ->
  RND (dyadic (Zpos m) e) = S754_finite false m e.
Proof.
  intros Hv. destruct (valid_finite_inv _ _ _ Hv) as (Hc & He & Hm & Hr).
  destruct Hr as (_ & Hmin & _).
  unfold RND. rewrite grid_exponent_dyadic by lia. rewrite Hc.
  unfold dyadic. rewrite rne_grid_multiple by (apply Z.pow_pos_nonneg; lia).
  unfold mk_float. change (Zpos m =? 0) with false. cbv iota.
  destruct (Zpos m <? 16777216) eqn:E; [done|apply Z.ltb_ge in E; lia].
Qed.

Lemma RND_zero : RND 0 = S754_zero false.
Proof. reflexivity. Qed.

(** ** Scaled values *)

Lemma scale_pos : 0 < scale.
Proof. unfold scale. apply Z.pow_pos_nonneg; lia. Qed.

Lemma dyadic_pos m e : 0 < m -> -400 <= e -> 0 < dyadic m e.
Proof.
  intros Hm He. unfold dyadic.
  assert (0 < 2 ^ (e + 400)) by (apply Z.pow_pos_nonneg; lia). nia.
Qed.

Lemma dyadic_shift m e j :
  0 <= j -> -400 <= e -> dyadic (m * 2 ^ j) e = dyadic m (e + j).
Proof.
  intros Hj He. unfold dyadic.
  replace (e + j + 400) with (j + (e + 400)) by lia.
  rewrite (Z.pow_add_r 2 j (e + 400)) by lia. lia.
Qed.

Lemma dyadic_0_scale n : dyadic n 0 = n * scale.
Proof. reflexivity. Qed.

Lemma grid_exponent_small v :
  0 <= v <= 2 ^ 432 -> grid_exponent v <= 103.
Proof.
  intros [H0 H1]. unfold grid_exponent.
  assert (Zdigits2 v <= Zdigits2 (2 ^ 432)) by (apply Zdigits2_le; lia).
  assert (Zdigits2 (2 ^ 432) = 433) by (vm_compute; reflexivity).
  lia.
Qed.

(** ** Non-negative numbers and their order *)

Lemma nonneg_float_cases x :
  nonneg_float x ->
  (exists s, x = S754_zero s)
  \/ exists m e, x = S754_finite false m e
                 /\ valid_binary 24 128 (S754_finite false m e) = true.
Proof.
  intros [Hv Hs]. destruct x as [s|s| |[] m e]; try done.
  - left. eauto.
  - right. eauto.
Qed.

Lemma sval_nonneg x : 0 <= sval x.
Proof.
  destruct x as [s|s| |[] m e]; simpl; try lia.
  unfold dyadic. destruct (Z_lt_le_dec (e + 400) 0).
  - rewrite Z.pow_neg_r by lia. lia.
  - assert (0 < 2 ^ (e + 400)) by (apply Z.pow_pos_nonneg; lia). nia.
Qed.

Lemma sval_finite_pos m e :
  valid_binary 24 128 (S754_finite false m e) = true ->
  0 < sval (S754_finite false m e).
Proof.
  intros Hv. destruct (valid_finite_inv _ _ _ Hv) as (_ & _ & _ & _ & He & _).
  simpl. apply dyadic_pos; lia.
Qed.

Lemma RND_of_sval x :
  nonneg_float x -> sval (RND (sval x)) = sval x.
Proof.
  intros Hx. destruct (nonneg_float_cases x Hx) as [[s ->]|(m & e & -> & Hv)].
  - reflexivity.
  - cbn [sval]. by rewrite (RND_sval false m e Hv).
Qed.

Lemma rnd_sval x : nonneg_float x -> rnd (sval x) = sval x.
Proof. apply RND_of_sval. Qed.

Lemma sval_small_bound x : nonneg_float x -> sval x <= 2 ^ 528.
Proof.
  intros Hx. destruct (nonneg_float_cases x Hx) as [[s ->]|(m & e & -> & Hv)].
  - simpl. apply Z.pow_nonneg. lia.
  - destruct (valid_finite_inv _ _ _ Hv) as (_ & He & Hm & _ & Hmin & _).
    cbn [sval]. unfold dyadic.
    assert (2 ^ (e + 400) <= 2 ^ 504) by (apply Z.pow_le_mono_r; lia).
    assert (0 < 2 ^ (e + 400)) by (apply Z.pow_pos_nonneg; lia).
    change (2 ^ 528) with (16777216 * 2 ^ 504). nia.
Qed.

Lemma SFleb_sval x y :
  nonneg_float x -> nonneg_float y ->
  (SFleb x y = true <-> sval x <= sval y).
Proof.
  intros Hx Hy.
  destruct (nonneg_float_cases x Hx) as [[s ->]|(m & e & -> & Hv)];
    destruct (nonneg_float_cases y Hy) as [[s' ->]|(m' & e' & -> & Hv')].
  - simpl. split; [lia|done].
  - pose proof (sval_finite_pos _ _ Hv') as Hp.
    change (sval (S754_zero s)) with 0. split; [lia|done].
  - pose proof (sval_finite_pos _ _ Hv) as Hp. split; [done|].
    intros Hle. exfalso. change (sval (S754_zero s')) with 0 in Hle. lia.
  - rewrite SFleb_finite.
    destruct (valid_finite_inv _ _ _ Hv) as (_ & _ & Hm & (_ & Hmin & Hn)).
    destruct (valid_finite_inv _ _ _ Hv') as (_ & _ & Hm' & (_ & Hmin' & Hn')).
    cbn [sval]. unfold dyadic.
    assert (Hp : 0 < 2 ^ (e + 400)) by (apply Z.pow_pos_nonneg; lia).
    assert (Hp' : 0 < 2 ^ (e' + 400)) by (apply Z.pow_pos_nonneg; lia).
    destruct (Z.compare_spec e e') as [->|Hlt|Hgt].
    + split.
      * intros [?|[_ Hle]]; [lia|]. apply Z.mul_le_mono_nonneg_r; lia.
      * intros Hle. right. split; [done|].
        apply Z.mul_le_mono_pos_r in Hle; lia.
    + split; [|intros; left; done]. intros _.
      specialize (Hn' ltac:(lia)).
      assert (Hpow : 2 ^ (e' + 400) = 2 ^ (e' - e) * 2 ^ (e + 400)).
      { rewrite <- Z.pow_add_r by lia. f_equal. lia. }
      assert (H2 : 2 ^ 1 <= 2 ^ (e' - e)) by (apply Z.pow_le_mono_r; lia).
      change (2 ^ 1) with 2 in H2. rewrite Hpow. nia.
    + split; [intros [?|[? _]]; lia|]. intros Hle. exfalso.
      specialize (Hn ltac:(lia)).
      assert (Hpow : 2 ^ (e + 400) = 2 ^ (e - e') * 2 ^ (e' + 400)).
      { rewrite <- Z.pow_add_r by lia. f_equal. lia. }
      assert (H2 : 2 ^ 1 <= 2 ^ (e - e')) by (apply Z.pow_le_mono_r; lia).
      change (2 ^ 1) with 2 in H2. rewrite Hpow in Hle. nia.
Qed.

Lemma RND_nonneg v :
  0 <= v -> grid_exponent v <= 103 -> nonneg_float (RND v).
Proof.
  intros Hv Hmax. pose proof (RND_rounded v Hv Hmax) as Hr.
  split; [by apply mk_float_valid|].
  unfold RND, mk_float. destruct (_ =? 0); [done|]. destruct (_ <? _); done.
Qed.

Lemma rnd_mono v v' :
  0 <= v <= v' -> grid_exponent v' <= 103 -> rnd v <= rnd v'.
Proof.
  intros Hv Hmax. unfold rnd.
  pose proof (grid_exponent_mono v v' Hv).
  apply SFleb_sval; [apply RND_nonneg; lia|apply RND_nonneg; lia|].
  by apply RND_mono.
Qed.

Lemma unit_float_iff x :
  unit_float x <-> nonneg_float x /\ sval x <= scale.
Proof.
  assert (Hone : nonneg_float F32.one) by (split; reflexivity).
  assert (Hs1 : sval F32.one = scale) by reflexivity.
  unfold unit_float, F32.le. split.
  - intros (Hv & H0 & H1).
    assert (Hx : nonneg_float x).
    { split; [done|]. destruct x as [s|[]| |[] m e]; try done. }
    split; [done|]. rewrite <- Hs1. by apply SFleb_sval.
  - intros [Hx Hle]. split; [apply Hx|]. split.
    + destruct (nonneg_float_cases x Hx) as [[s ->]|(m & e & -> & _)]; done.
    + apply SFleb_sval; [done|done|]. by rewrite Hs1.
Qed.

(** ** [binary_round] and [binary_normalize] *)

Lemma pos_iter_xO m d : Zpos (Pos.iter xO m d) = Zpos m * 2 ^ Zpos d.
Proof.
  induction d as [|d IH] using Pos.peano_ind.
  - simpl. lia.
  - rewrite Pos.iter_succ, Pos2Z.inj_xO, IH, Pos2Z.inj_succ.
    rewrite Z.pow_succ_r by lia. lia.
Qed.

Lemma shl_align_spec mx ex ex' :
  let '(mz, ez) := shl_align mx ex ex' in
  ez = Z.min ex ex' /\ Zpos mz = Zpos mx * 2 ^ (ex - ez).
Proof.
  unfold shl_align. destruct (ex' - ex) as [|d|d] eqn:Ed.
  - split; [lia|]. rewrite Z.sub_diag. simpl. lia.
  - split; [lia|]. rewrite Z.sub_diag. simpl. lia.
  - split; [lia|]. rewrite pos_iter_xO. f_equal. f_equal. lia.
Qed.

Lemma shl_align_fst mx ex ez :
  ez <= ex -> Zpos (fst (shl_align mx ex ez)) = Zpos mx * 2 ^ (ex - ez).
Proof.
  intros Hle. pose proof (shl_align_spec mx ex ez) as Hs.
  destruct (shl_align mx ex ez) as [mz e']. destruct Hs as [He' Hmz].
  cbn [fst]. rewrite Hmz. f_equal. f_equal. lia.
Qed.

Lemma binary_round_RND mx ex :
  -400 <= ex -> dyadic (Zpos mx) ex <= 2 ^ 432 ->
  binary_round 24 128 false mx ex = RND (dyadic (Zpos mx) ex).
Proof.
  intros He Hsmall. unfold binary_round.
  pose proof (shl_align_spec mx ex (fexp 24 128 (Zpos (digits2_pos mx) + ex))) as Hs.
  change (Zpos (digits2_pos mx)) with (Zdigits2 (Zpos mx)) in *.
  destruct (shl_align mx ex _) as [mz ez]. destruct Hs as [Hez Hmz].
  assert (Hmin : -149 <= fexp 24 128 (Zdigits2 (Zpos mx) + ex))
    by (rewrite fexp_32; lia).
  assert (Hval : dyadic (Zpos mz) ez = dyadic (Zpos mx) ex).
  { rewrite Hmz. rewrite dyadic_shift by lia. f_equal. lia. }
  assert (Hdig : Zdigits2 (Zpos mz) + ez = Zdigits2 (Zpos mx) + ex).
  { rewrite Hmz. rewrite Zdigits2_mul_pow2 by lia. lia. }
  pose proof (dyadic_pos (Zpos mx) ex ltac:(lia) He) as Hpos.
  pose proof (grid_exponent_small (dyadic (Zpos mx) ex) ltac:(lia)) as Hg.
  rewrite grid_exponent_dyadic in Hg by lia.
  rewrite <- Hval.
  apply binary_round_aux_exact; try lia; rewrite Hdig; lia.
Qed.

Lemma binary_normalize_RND M e :
  0 <= M -> -400 <= e -> dyadic M e <= 2 ^ 432 ->
  binary_normalize 24 128 M e false = RND (dyadic M e).
Proof.
  intros HM He Hsmall. destruct M as [|p|p]; [reflexivity| |lia].
  cbn [binary_normalize]. by apply binary_round_RND.
Qed.

(** ** Conversion from [int] *)

Lemma of_int_RND n :
  0 <= n <= 2 ^ 32 -> F32.of_int n = RND (n * scale).
Proof.
  intros Hn. unfold F32.of_int. rewrite <- dyadic_0_scale.
  apply binary_normalize_RND; [lia|lia|].
  rewrite dyadic_0_scale. change (2 ^ 432) with (2 ^ 32 * scale).
  pose proof scale_pos. nia.
Qed.

Lemma of_int_nonneg n :
  0 <= n <= 2 ^ 32 -> nonneg_float (F32.of_int n) /\ sval (F32.of_int n) = rnd (n * scale).
Proof.
  intros Hn. rewrite of_int_RND by done. split; [|done].
  pose proof scale_pos.
  apply RND_nonneg; [nia|]. apply grid_exponent_small.
  change (2 ^ 432) with (2 ^ 32 * scale). nia.
Qed.

(** ** Signs, in any format

    What follows holds for [float] and [double] alike: the operations of
    [Ucb] keep a number at or above zero there. *)

Section Signs.

Variables prec emax : Z.

Lemma zero_le_cases x :
  zero_le x <->
  match x with
  | S754_zero _ | S754_finite false _ _ | S754_infinity false => True
  | _ => False
  end.
Proof. unfold zero_le. destruct x as [s|[]| |[] m e]; simpl; split; done. Qed.

Lemma shr_m_nonneg m l e n :
  0 <= m -> 0 <= shr_m (fst (shr (shr_record_of_loc m l) e n)).
Proof.
  intros Hm. destruct n as [|p|p].
  - simpl. by rewrite shr_m_of_loc.
  - cbn [shr fst].
    assert (Hrec : exists r0 s0, shr_record_of_loc m l = Build_shr_record m r0 s0).
    { destruct l as [|[]]; simpl; eauto. }
    destruct Hrec as (r0 & s0 & ->). rewrite shr_iter by done. cbn [shr_m].
    apply Z.div_pos; [done|]. apply Z.pow_pos_nonneg; lia.
  - simpl. by rewrite shr_m_of_loc.
Qed.

Lemma binary_round_aux_zero_le mx ex lx :
  0 <= mx -> zero_le (binary_round_aux prec emax false mx ex lx).
Proof.
  intros Hm. unfold binary_round_aux, shr_fexp.
  pose proof (shr_m_nonneg mx lx ex (fexp prec emax (Zdigits2 mx + ex) - ex) Hm) as H1.
  destruct (shr (shr_record_of_loc mx lx) ex _) as [mrs e'].
  cbn [fst] in H1.
  pose proof (round_nearest_even_bounds (shr_m mrs) (loc_of_shr_record mrs)) as [H2 _].
  set (m2 := round_nearest_even (shr_m mrs) (loc_of_shr_record mrs)) in *.
  pose proof (shr_m_nonneg m2 loc_Exact e'
                (fexp prec emax (Zdigits2 m2 + e') - e') ltac:(lia)) as H3.
  destruct (shr (shr_record_of_loc m2 loc_Exact) e' _) as [mrs' e''].
  cbn [fst] in H3. apply zero_le_cases.
  destruct (shr_m mrs') as [|p|p]; [done| |lia].
  destruct (e'' <=? emax - prec); done.
Qed.

Lemma binary_round_zero_le mx ex :
  zero_le (binary_round prec emax false mx ex).
Proof.
  unfold binary_round. destruct (shl_align mx ex _) as [mz ez].
  apply binary_round_aux_zero_le. lia.
Qed.

Lemma binary_normalize_zero_le M e :
  0 <= M -> zero_le (binary_normalize prec emax M e false).
Proof.
  intros HM. destruct M as [|p|p]; [done| |lia].
  apply binary_round_zero_le.
Qed.

Lemma SFmul_zero_le m e y :
  zero_le y -> zero_le (SFmul prec emax (S754_finite false m e) y).
Proof.
  intros Hy. apply zero_le_cases in Hy.
  destruct y as [s|[]| |[] m' e']; try done; cbn [SFmul xorb].
  apply binary_round_aux_zero_le. lia.
Qed.

Lemma SFdiv_zero_le x m e :
  zero_le x -> zero_le (SFdiv prec emax x (S754_finite false m e)).
Proof.
  intros Hx. apply zero_le_cases in Hx.
  destruct x as [s|[]| |[] m' e']; try done; cbn [SFdiv xorb].
  unfold SFdiv_core_binary.
  set (m0 := match _ with Z0 => _ | Zpos _ => _ | Zneg _ => _ end).
  assert (Hm0 : 0 <= m0).
  { subst m0. destruct (_ - _ - _) as [|p|p]; try lia.
    apply Z.shiftl_nonneg. lia. }
  rewrite Z_div_eucl_eq.
  apply binary_round_aux_zero_le. apply Z.div_pos; lia.
Qed.

Lemma SFsqrt_zero_le x : zero_le x -> zero_le (SFsqrt prec emax x).
Proof.
  intros Hx. apply zero_le_cases in Hx.
  destruct x as [s|[]| |[] m e]; try done; cbn [SFsqrt].
  unfold SFsqrt_core_binary.
  set (m0 := match _ with Z0 => _ | Zpos _ => _ | Zneg _ => _ end).
  pose proof (Z.sqrtrem_sqrt m0) as Hs. pose proof (Z.sqrt_nonneg m0) as Hn.
  destruct (Z.sqrtrem m0) as [q r]. cbn [fst] in Hs. subst q.
  apply binary_round_aux_zero_le. done.
Qed.

Lemma SFadd_zero_le x y :
  zero_le x -> zero_le y -> zero_le (SFadd prec emax x y).
Proof.
  intros Hx Hy. apply zero_le_cases in Hx. apply zero_le_cases in Hy.
  destruct x as [s|[]| |[] m e]; try done;
    destruct y as [s'|[]| |[] m' e']; try done; cbn [SFadd cond_Zopp].
  - by destruct s, s'.
  - apply binary_normalize_zero_le. lia.
Qed.

End Signs.

Lemma F64_of_float_zero_le x : zero_le x -> zero_le (F64.of_float x).
Proof.
  intros Hx. apply zero_le_cases in Hx.
  destruct x as [s|[]| |[] m e]; try done. cbn [F64.of_float cond_Zopp].
  destruct (binary_normalize _ _ _ _ _) eqn:E; rewrite <- E;
    apply binary_normalize_zero_le; lia.
Qed.

Lemma F64_to_float_zero_le x : zero_le x -> zero_le (F64.to_float x).
Proof.
  intros Hx. apply zero_le_cases in Hx.
  destruct x as [s|[]| |[] m e]; try done. cbn [F64.to_float cond_Zopp].
  apply binary_normalize_zero_le. lia.
Qed.

(** An [int] converts to a finite [double]. *)
Lemma F64_of_int_finite n :
  0 < n <= CInt.INT_MAX ->
  exists m e, F64.of_int n = S754_finite false m e.
Proof.
  intros Hn. unfold CInt.INT_MAX in Hn. destruct n as [|p|p]; try lia.
  unfold F64.of_int, F64.prec, F64.emax. cbn [binary_normalize].
  unfold binary_round.
  change (Zpos (digits2_pos p)) with (Zdigits2 (Zpos p)).
  pose proof (Zdigits2_pos (Zpos p) ltac:(lia)) as Hd0.
  assert (Hd : Zdigits2 (Zpos p) <= 31).
  { pose proof (Zdigits2_bounds (Zpos p) ltac:(lia)) as [Hlo _].
    assert (Zdigits2 (Zpos p) - 1 < 31); [|lia].
    apply pow2_lt_inv; [lia|]. change (2 ^ 31) with 2147483648. lia. }
  set (d := Zdigits2 (Zpos p)) in *.
  assert (Hf : fexp 53 1024 (d + 0) = d - 53).
  { unfold fexp, emin. lia. }
  rewrite Hf.
  pose proof (shl_align_spec p 0 (d - 53)) as Hs.
  destruct (shl_align p 0 (d - 53)) as [mz ez]. destruct Hs as [Hez Hmz].
  rewrite Z.min_r in Hez by lia. subst ez.
  assert (Hdz : Zdigits2 (Zpos mz) = 53).
  { rewrite Hmz. rewrite Zdigits2_mul_pow2 by lia. fold d. lia. }
  unfold binary_round_aux, shr_fexp. rewrite Hdz.
  assert (Hf2 : fexp 53 1024 (53 + (d - 53)) - (d - 53) = 0).
  { unfold fexp, emin. lia. }
  rewrite Hf2. cbn [shr_record_of_loc shr shr_m loc_of_shr_record round_nearest_even].
  rewrite Hdz, Hf2. cbn [shr shr_m].
  destruct (d - 53 <=? 1024 - 53) eqn:E; [eauto|].
  apply Z.leb_gt in E. lia.
Qed.

(** With an average at or above zero, a positive visit count and a
    logarithm at or above zero, the score is above the initial [-1.0f]. *)
Lemma ucb_value_above_initial `{Libm} (r : NodeRecord) (sum : Z) :
  zero_le (GetAverageProfit r) ->
  0 < GetVisitedTime r <= CInt.INT_MAX ->
  zero_le (log (F64.of_int sum)) ->
  F32.gt (ucb_value r sum) F32.minus_one = true.
Proof.
  intros Havg Hv Hlog.
  assert (Hu : zero_le (ucb_value r sum)).
  { unfold ucb_value. apply F64_to_float_zero_le.
    apply SFadd_zero_le; [by apply F64_of_float_zero_le|].
    apply SFsqrt_zero_le.
    destruct (F64_of_int_finite (GetVisitedTime r)) as (m & e & ->); [lia|].
    apply SFdiv_zero_le.
    change (F64.of_int 2) with (S754_finite false 4503599627370496 (-51)).
    by apply SFmul_zero_le. }
  apply zero_le_cases in Hu. unfold F32.gt, F32.minus_one.
  destruct (ucb_value r sum) as [s|[]| |[] m e]; try done.
Qed.

(** ** Multiplication, addition and subtraction of non-negative numbers *)

Lemma rnd_0 : rnd 0 = 0.
Proof. reflexivity. Qed.

Lemma RND_small_nonneg v : 0 <= v <= 2 ^ 432 -> nonneg_float (RND v).
Proof.
  intros Hv. apply RND_nonneg; [lia|]. by apply grid_exponent_small.
Qed.

Lemma Zdigits2_mul_lower a b :
  0 < a -> 0 < b -> Zdigits2 a + Zdigits2 b - 1 <= Zdigits2 (a * b).
Proof.
  intros Ha Hb.
  pose proof (Zdigits2_bounds a Ha) as [Hla _].
  pose proof (Zdigits2_bounds b Hb) as [Hlb _].
  pose proof (Zdigits2_bounds (a * b) ltac:(nia)) as [_ Hhab].
  pose proof (Zdigits2_pos a Ha). pose proof (Zdigits2_pos b Hb).
  pose proof (Zdigits2_pos (a * b) ltac:(nia)).
  assert (Hp : 2 ^ (Zdigits2 a - 1 + (Zdigits2 b - 1)) <= a * b).
  { rewrite Z.pow_add_r by lia.
    assert (0 < 2 ^ (Zdigits2 a - 1)) by (apply Z.pow_pos_nonneg; lia).
    assert (0 < 2 ^ (Zdigits2 b - 1)) by (apply Z.pow_pos_nonneg; lia).
    nia. }
  assert (Zdigits2 a - 1 + (Zdigits2 b - 1) < Zdigits2 (a * b))
    by (apply pow2_lt_inv; lia).
  lia.
Qed.

Lemma mul_sval x y :
  nonneg_float x -> nonneg_float y ->
  sval x * sval y <= 2 ^ 432 * scale ->
  nonneg_float (F32.mul x y)
  /\ exists v, 0 <= v /\ v * scale = sval x * sval y
               /\ sval (F32.mul x y) = rnd v.
Proof.
  intros Hx Hy Hsmall. unfold F32.mul, F32.prec, F32.emax.
  destruct (nonneg_float_cases x Hx) as [[s ->]|(m & e & -> & Hv)];
    destruct (nonneg_float_cases y Hy) as [[s' ->]|(m' & e' & -> & Hv')];
    try (split; [split; done|]; exists 0; cbn [sval];
         repeat split; try lia; reflexivity).
  destruct (valid_finite_inv _ _ _ Hv) as (Hc & _ & Hm & (_ & Hmin & _)).
  destruct (valid_finite_inv _ _ _ Hv') as (Hc' & _ & Hm' & (_ & Hmin' & _)).
  rewrite fexp_32 in Hc, Hc'.
  cbn [SFmul xorb sval] in *.
  assert (Hprod : dyadic (Zpos (m * m')) (e + e') * scale
                  = dyadic (Zpos m) e * dyadic (Zpos m') e').
  { unfold dyadic, scale. rewrite Pos2Z.inj_mul.
    replace (Zpos m * Zpos m' * 2 ^ (e + e' + 400) * 2 ^ 400)
      with (Zpos m * Zpos m' * (2 ^ (e + e' + 400) * 2 ^ 400)) by lia.
    rewrite <- Z.pow_add_r by lia.
    replace (Zpos m * 2 ^ (e + 400) * (Zpos m' * 2 ^ (e' + 400)))
      with (Zpos m * Zpos m' * (2 ^ (e + 400) * 2 ^ (e' + 400))) by lia.
    rewrite <- Z.pow_add_r by lia. f_equal. f_equal. lia. }
  pose proof scale_pos as Hsc.
  assert (Hv432 : dyadic (Zpos (m * m')) (e + e') <= 2 ^ 432) by nia.
  pose proof (dyadic_pos (Zpos (m * m')) (e + e') ltac:(lia) ltac:(lia)) as Hpos.
  pose proof (Zdigits2_mul_lower (Zpos m) (Zpos m') ltac:(lia) ltac:(lia)) as Hd.
  pose proof (Zdigits2_pos (Zpos m) ltac:(lia)).
  pose proof (Zdigits2_pos (Zpos m') ltac:(lia)).
  pose proof (grid_exponent_small _ (conj (Z.lt_le_incl _ _ Hpos) Hv432)) as Hg.
  rewrite grid_exponent_dyadic in Hg by lia.
  destruct (binary_round_aux_exact (Zpos (m * m')) (e + e')) as [Heq _];
    try lia.
  { rewrite fexp_32. rewrite Pos2Z.inj_mul. lia. }
  rewrite Heq. split; [apply RND_small_nonneg; lia|].
  exists (dyadic (Zpos (m * m')) (e + e')). repeat split; [lia|done].
Qed.

Lemma add_sval x y :
  nonneg_float x -> nonneg_float y ->
  sval x + sval y <= 2 ^ 432 ->
  nonneg_float (F32.add x y)
  /\ sval (F32.add x y) = rnd (sval x + sval y).
Proof.
  intros Hx Hy Hsmall. unfold F32.add, F32.prec, F32.emax.
  destruct (nonneg_float_cases x Hx) as [[s ->]|(m & e & -> & Hv)];
    destruct (nonneg_float_cases y Hy) as [[s' ->]|(m' & e' & -> & Hv')].
  - destruct s, s'; split; try (split; done); reflexivity.
  - cbn [SFadd]. split; [done|]. change (sval (S754_zero s)) with 0.
    rewrite Z.add_0_l. symmetry. by apply rnd_sval.
  - cbn [SFadd]. split; [done|]. change (sval (S754_zero s')) with 0.
    rewrite Z.add_0_r. symmetry. by apply rnd_sval.
  - destruct (valid_finite_inv _ _ _ Hv) as (_ & _ & _ & (_ & Hmin & _)).
    destruct (valid_finite_inv _ _ _ Hv') as (_ & _ & _ & (_ & Hmin' & _)).
    cbn [SFadd cond_Zopp sval] in *.
    rewrite !shl_align_fst by lia.
    set (ez := Z.min e e').
    assert (Hsum : dyadic (Zpos m * 2 ^ (e - ez) + Zpos m' * 2 ^ (e' - ez)) ez
                   = dyadic (Zpos m) e + dyadic (Zpos m') e').
    { unfold dyadic. rewrite Z.mul_add_distr_r.
      rewrite <- !Z.mul_assoc, <- !Z.pow_add_r by lia.
      f_equal; f_equal; f_equal; lia. }
    assert (0 < 2 ^ (e - ez)) by (apply Z.pow_pos_nonneg; lia).
    assert (0 < 2 ^ (e' - ez)) by (apply Z.pow_pos_nonneg; lia).
    rewrite binary_normalize_RND; [|nia|lia|rewrite Hsum; lia].
    rewrite Hsum. split; [|done].
    apply RND_small_nonneg. split; [|done].
    pose proof (dyadic_pos (Zpos m) e). pose proof (dyadic_pos (Zpos m') e'). lia.
Qed.

Lemma rnd_scale : rnd scale = scale.
Proof. vm_compute. reflexivity. Qed.

Lemma sub_one_unit y :
  unit_float y -> unit_float (F32.sub F32.one y).
Proof.
  intros Hy. apply unit_float_iff in Hy as [Hy Hle].
  apply unit_float_iff. unfold F32.sub, F32.one, F32.prec, F32.emax.
  destruct (nonneg_float_cases y Hy) as [[s ->]|(m & e & -> & Hv)].
  - cbn [SFsub]. split; [split; reflexivity|]. reflexivity.
  - destruct (valid_finite_inv _ _ _ Hv) as (_ & _ & _ & (_ & Hmin & _)).
    cbn [SFsub cond_Zopp sval] in *.
    rewrite !shl_align_fst by lia.
    set (ez := Z.min (-23) e).
    assert (Hdiff : dyadic (8388608 * 2 ^ (-23 - ez) - Zpos m * 2 ^ (e - ez)) ez
                    = scale - dyadic (Zpos m) e).
    { unfold dyadic. rewrite Z.mul_sub_distr_r.
      rewrite <- !Z.mul_assoc, <- !Z.pow_add_r by lia.
      replace (-23 - ez + (ez + 400)) with 377 by lia.
      replace (e - ez + (ez + 400)) with (e + 400) by lia. reflexivity. }
    assert (Hp : 0 < 2 ^ (ez + 400)) by (apply Z.pow_pos_nonneg; lia).
    assert (HM : 0 <= 8388608 * 2 ^ (-23 - ez) - Zpos m * 2 ^ (e - ez)).
    { apply (Z.mul_nonneg_cancel_r _ (2 ^ (ez + 400)) Hp).
      fold (dyadic (8388608 * 2 ^ (-23 - ez) - Zpos m * 2 ^ (e - ez)) ez).
      rewrite Hdiff. lia. }
    pose proof (dyadic_pos (Zpos m) e ltac:(lia) ltac:(lia)) as Hpos.
    assert (Hsc : scale <= 2 ^ 432) by (apply Z.pow_le_mono_r; lia).
    rewrite binary_normalize_RND; [|done|lia|rewrite Hdiff; lia].
    rewrite Hdiff. split; [apply RND_small_nonneg; lia|].
    fold (rnd (scale - dyadic (Zpos m) e)). rewrite <- rnd_scale at 2.
    apply rnd_mono; [lia|]. apply grid_exponent_small. pose proof scale_pos. lia.
Qed.

(** ** Division of a number by a greater one *)

Lemma unit_float_zero s : unit_float (S754_zero s).
Proof. destruct s; repeat split; reflexivity. Qed.

Lemma new_location_0 n : new_location n 0 = loc_Exact.
Proof.
  unfold new_location, new_location_even, new_location_odd.
  destruct (Z.even n); reflexivity.
Qed.

Lemma mk_float_unit m2 e1 :
  rounded m2 e1 -> e1 <= 0 -> m2 <= 2 ^ (- e1) -> unit_float (mk_float m2 e1).
Proof.
  intros Hr He Hm. apply unit_float_iff. split.
  - split; [apply mk_float_valid; [done|lia]|].
    unfold mk_float. destruct (_ =? 0); [done|]. destruct (_ <? _); done.
  - rewrite sval_mk_float by done. destruct Hr as (_ & Hmin & _).
    unfold dyadic, scale.
    assert (Hp : 0 < 2 ^ (e1 + 400)) by (apply Z.pow_pos_nonneg; lia).
    replace (2 ^ 400) with (2 ^ (- e1) * 2 ^ (e1 + 400)).
    + apply Z.mul_le_mono_nonneg_r; lia.
    + rewrite <- Z.pow_add_r by lia. f_equal. lia.
Qed.

(** The scaled order, without the scale. *)
Lemma dyadic_le_inv m e m' e' :
  -400 <= e -> -400 <= e' ->
  dyadic m e <= dyadic m' e' ->
  m * 2 ^ (e - Z.min e e') <= m' * 2 ^ (e' - Z.min e e').
Proof.
  intros He He' Hle. unfold dyadic in Hle.
  set (z := Z.min e e') in *.
  assert (Hz : -400 <= z /\ z <= e /\ z <= e') by (subst z; lia). clearbody z.
  assert (Hp : 0 < 2 ^ (z + 400)) by (apply Z.pow_pos_nonneg; lia).
  replace (2 ^ (e + 400)) with (2 ^ (e - z) * 2 ^ (z + 400)) in Hle
    by (rewrite <- Z.pow_add_r by lia; f_equal; lia).
  replace (2 ^ (e' + 400)) with (2 ^ (e' - z) * 2 ^ (z + 400)) in Hle
    by (rewrite <- Z.pow_add_r by lia; f_equal; lia).
  rewrite !Z.mul_assoc in Hle.
  by apply Z.mul_le_mono_pos_r in Hle.
Qed.

Lemma div_unit x y :
  nonneg_float x -> nonneg_float y -> 0 < sval y -> sval x <= sval y ->
  unit_float (F32.div x y).
Proof.
  intros Hx Hy Hypos Hle. unfold F32.div, F32.prec, F32.emax.
  destruct (nonneg_float_cases y Hy) as [[s' ->]|(m' & e' & -> & Hv')];
    [simpl in Hypos; lia|].
  destruct (nonneg_float_cases x Hx) as [[s ->]|(m & e & -> & Hv)].
  { cbn [SFdiv]. apply unit_float_zero. }
  destruct (valid_finite_inv _ _ _ Hv) as (Hc & _ & Hm & (_ & Hmin & _)).
  destruct (valid_finite_inv _ _ _ Hv') as (Hc' & _ & Hm' & (_ & Hmin' & _)).
  rewrite fexp_32 in Hc, Hc'.
  cbn [SFdiv xorb sval] in *. unfold SFdiv_core_binary.
  set (d1 := Zdigits2 (Zpos m)) in *. set (d2 := Zdigits2 (Zpos m')) in *.
  assert (Hd1 : 2 ^ (d1 - 1) <= Zpos m < 2 ^ d1)
    by (apply Zdigits2_bounds; lia).
  assert (Hd2 : 2 ^ (d2 - 1) <= Zpos m' < 2 ^ d2)
    by (apply Zdigits2_bounds; lia).
  assert (Hd1p : 0 < d1) by (apply Zdigits2_pos; lia).
  assert (Hd2p : 0 < d2) by (apply Zdigits2_pos; lia).
  clearbody d1 d2.
  (* magnitudes *)
  assert (Hmag : d1 + e <= d2 + e').
  { unfold dyadic in Hle.
    assert (H1 : 2 ^ (d1 - 1 + (e + 400)) <= Zpos m * 2 ^ (e + 400)).
    { rewrite (Z.pow_add_r 2 (d1 - 1) (e + 400)) by lia.
      apply Z.mul_le_mono_nonneg_r; [|lia]. apply Z.pow_nonneg; lia. }
    assert (H2 : Zpos m' * 2 ^ (e' + 400) < 2 ^ (d2 + (e' + 400))).
    { rewrite (Z.pow_add_r 2 d2 (e' + 400)) by lia.
      apply Z.mul_lt_mono_pos_r; [|lia]. apply Z.pow_pos_nonneg; lia. }
    assert (d1 - 1 + (e + 400) < d2 + (e' + 400)).
    { apply pow2_lt_inv; lia. }
    lia. }
  rewrite fexp_32.
  set (e0 := Z.min (Z.max (d1 + e - (d2 + e') - 24) (-149)) (e - e')) in *.
  assert (He0 : e0 <= -24 /\ e0 <= e - e'
                /\ (-149 < e0 -> e0 = d1 + e - d2 - e' - 24)) by (subst e0; lia).
  clearbody e0. destruct He0 as (He0 & He0' & He0n).
  set (sh := e - e' - e0) in *.
  assert (Hsh : 0 <= sh) by (subst sh; lia).
  assert (Hm0 : match sh with
                | Z0 => Zpos m
                | Zpos _ => Z.shiftl (Zpos m) sh
                | Zneg _ => 0
                end = Zpos m * 2 ^ sh).
  { destruct sh as [|p|p]; [simpl; lia| |lia].
    rewrite Z.shiftl_mul_pow2 by lia. reflexivity. }
  rewrite Hm0. clear Hm0.
  set (m0 := Zpos m * 2 ^ sh) in *.
  assert (Hpsh : 0 < 2 ^ sh) by (apply Z.pow_pos_nonneg; lia).
  assert (Hpe0 : 0 < 2 ^ (- e0)) by (apply Z.pow_pos_nonneg; lia).
  assert (Hm0le : m0 <= Zpos m' * 2 ^ (- e0)).
  { apply dyadic_le_inv in Hle; [|lia|lia]. subst m0 sh.
    destruct (Z_le_gt_dec e' e) as [Hee|Hee].
    - rewrite Z.min_r in Hle by lia. rewrite Z.sub_diag, Z.pow_0_r, Z.mul_1_r in Hle.
      replace (e - e' - e0) with ((e - e') + (- e0)) by lia.
      rewrite Z.pow_add_r by lia. rewrite Z.mul_assoc.
      apply Z.mul_le_mono_nonneg_r; lia.
    - rewrite Z.min_l in Hle by lia. rewrite Z.sub_diag, Z.pow_0_r, Z.mul_1_r in Hle.
      assert (Hp : 0 < 2 ^ (e' - e)) by (apply Z.pow_pos_nonneg; lia).
      apply (Z.mul_le_mono_pos_r _ _ (2 ^ (e' - e)) Hp).
      rewrite <- !Z.mul_assoc, <- !Z.pow_add_r by lia.
      replace (e - e' - e0 + (e' - e)) with (- e0) by lia.
      replace (- e0 + (e' - e)) with ((e' - e) + (- e0)) by lia.
      rewrite Z.pow_add_r by lia. rewrite Z.mul_assoc.
      apply Z.mul_le_mono_nonneg_r; lia. }
  assert (Hm0pos : 0 < m0) by (subst m0; apply Z.mul_pos_pos; lia).
  rewrite Z_div_eucl_eq.
  pose proof (Z.div_mod m0 (Zpos m') ltac:(lia)) as Hdm.
  pose proof (Z.mod_pos_bound m0 (Zpos m') ltac:(lia)) as Hrb.
  set (q := m0 / Zpos m') in *. set (r := m0 mod Zpos m') in *.
  (* the quotient *)
  assert (Hq0 : 0 <= q) by (subst q; apply Z.div_pos; lia).
  assert (Hqle : q <= 2 ^ (- e0)).
  { subst q. apply Z.div_le_upper_bound; lia. }
  assert (Hdq : Zdigits2 q + e0 <= 1).
  { destruct (Z.eq_dec q 0) as [->|Hqne]; [simpl; lia|].
    pose proof (Zdigits2_bounds q ltac:(lia)) as [Hlo _].
    pose proof (Zdigits2_pos q ltac:(lia)).
    destruct (Z_le_gt_dec (Zdigits2 q - 1) (- e0)) as [|Hgt]; [lia|].
    assert (2 ^ (- e0 + 1) <= 2 ^ (Zdigits2 q - 1)) by (apply Z.pow_le_mono_r; lia).
    rewrite Z.pow_add_r in * by lia. lia. }
  assert (Hk : 0 <= fexp 24 128 (Zdigits2 q + e0) - e0).
  { rewrite fexp_32. destruct (Z_le_gt_dec e0 (-149)) as [|Hn]; [lia|].
    specialize (He0n ltac:(lia)).
    assert (Hs : sh = 24 + d2 - d1) by (subst sh; lia).
    assert (Hlow : 8388608 * Zpos m' <= m0).
    { subst m0. rewrite Hs.
      replace (24 + d2 - d1) with ((23 + d2) - (d1 - 1)) by lia.
      assert (H23 : 2 ^ (23 + d2) <= Zpos m * 2 ^ (23 + d2 - (d1 - 1))).
      { replace (2 ^ (23 + d2)) with (2 ^ (d1 - 1) * 2 ^ (23 + d2 - (d1 - 1))).
        - apply Z.mul_le_mono_nonneg_r; [apply Z.pow_nonneg|]; lia.
        - rewrite <- Z.pow_add_r by lia. f_equal. lia. }
      rewrite Z.pow_add_r in H23 by lia. change (2 ^ 23) with 8388608 in H23.
      assert (8388608 * Zpos m' <= 8388608 * 2 ^ d2)
        by (apply Z.mul_le_mono_nonneg_l; lia).
      lia. }
    assert (Hq23 : 8388608 <= q).
    { subst q. apply Z.div_le_lower_bound; lia. }
    assert (23 < Zdigits2 q).
    { pose proof (Zdigits2_bounds q ltac:(lia)) as [_ Hhi].
      pose proof (Zdigits2_pos q ltac:(lia)).
      apply pow2_lt_inv; [lia|]. change (2 ^ 23) with 8388608. lia. }
    lia. }
  pose proof (binary_round_aux_spec q e0 (new_location (Zpos m') r) Hq0) as Hspec.
  cbv zeta in Hspec.
  assert (He1 : e0 + (fexp 24 128 (Zdigits2 q + e0) - e0) <= -23)
    by (rewrite fexp_32; lia).
  destruct (Hspec Hk ltac:(lia)) as (m2 & -> & [_ Hm2] & Hr & Hex). clear Hspec.
  set (k := fexp 24 128 (Zdigits2 q + e0) - e0) in *.
  set (e1 := e0 + k) in *.
  assert (Hpk : 0 < 2 ^ k) by (apply Z.pow_pos_nonneg; lia).
  assert (Hpow : 2 ^ (- e0) = 2 ^ (- e1) * 2 ^ k).
  { rewrite <- Z.pow_add_r by lia. f_equal. lia. }
  apply mk_float_unit; [done|lia|].
  assert (Hqk : q / 2 ^ k <= 2 ^ (- e1)).
  { apply Z.div_le_upper_bound; [done|]. lia. }
  destruct (Z.eq_dec (q / 2 ^ k) (2 ^ (- e1))) as [Heq|Hne]; [|lia].
  assert (Hqeq : q = 2 ^ (- e0)).
  { pose proof (Z.mul_div_le q (2 ^ k) Hpk) as Hmd.
    rewrite Heq, Z.mul_comm, <- Hpow in Hmd. lia. }
  assert (Hr0 : r = 0) by (rewrite Hqeq in Hdm; lia).
  rewrite Hr0, new_location_0 in Hex. rewrite (Hex eq_refl).
  rewrite Hqeq, Hpow. rewrite rne_grid_multiple by done. lia.
Qed.

(** ** Rounding integers *)

Lemma rnd_eq v :
  0 <= v <= 2 ^ 432 ->
  rnd v = rne_grid v (2 ^ (grid_exponent v + 400)) * 2 ^ (grid_exponent v + 400).
Proof.
  intros Hv. unfold rnd, RND. rewrite sval_mk_float.
  - reflexivity.
  - apply RND_rounded; [lia|]. by apply grid_exponent_small.
Qed.

Lemma grid_exponent_int m :
  0 < m -> grid_exponent (m * scale) = Z.max (Zdigits2 m - 24) (-149).
Proof.
  intros Hm. unfold grid_exponent, scale.
  rewrite Zdigits2_mul_pow2 by lia. lia.
Qed.

Lemma rnd_int_small m :
  0 <= m -> Zdigits2 m <= 24 -> rnd (m * scale) = m * scale.
Proof.
  intros Hm Hd. destruct (Z.eq_dec m 0) as [->|Hne]; [reflexivity|].
  pose proof (Zdigits2_pos m ltac:(lia)) as Hdp.
  pose proof (Zdigits2_bounds m ltac:(lia)) as [_ Hhi].
  assert (H24 : 2 ^ Zdigits2 m <= 2 ^ 24) by (apply Z.pow_le_mono_r; lia).
  pose proof scale_pos as Hsc.
  assert (Hsmall : m * scale <= 2 ^ 432).
  { change (2 ^ 432) with (2 ^ 32 * scale).
    apply Z.mul_le_mono_nonneg_r; [lia|].
    change (2 ^ 24) with 16777216 in H24. change (2 ^ 32) with 4294967296. lia. }
  rewrite rnd_eq by (split; [nia|done]).
  rewrite grid_exponent_int by lia.
  set (g := Z.max (Zdigits2 m - 24) (-149)).
  assert (Hg : -149 <= g <= 0) by (subst g; lia). clearbody g.
  assert (Hsplit : scale = 2 ^ (- g) * 2 ^ (g + 400)).
  { unfold scale. rewrite <- Z.pow_add_r by lia. f_equal. lia. }
  rewrite Hsplit at 1. rewrite Z.mul_assoc.
  rewrite rne_grid_multiple by (apply Z.pow_pos_nonneg; lia).
  rewrite Hsplit. lia.
Qed.

Lemma rnd_int_large m :
  0 < m <= 2 ^ 32 -> 24 <= Zdigits2 m ->
  rnd (m * scale)
  = rne_grid m (2 ^ (Zdigits2 m - 24)) * 2 ^ (Zdigits2 m - 24) * scale.
Proof.
  intros Hm Hd. pose proof scale_pos as Hsc.
  assert (Hsmall : m * scale <= 2 ^ 432).
  { change (2 ^ 432) with (2 ^ 32 * scale). apply Z.mul_le_mono_nonneg_r; lia. }
  rewrite rnd_eq by (split; [nia|done]).
  rewrite grid_exponent_int by lia.
  rewrite Z.max_l by lia.
  replace (Zdigits2 m - 24 + 400) with ((Zdigits2 m - 24) + 400) by lia.
  rewrite Z.pow_add_r by lia. fold scale.
  rewrite rne_grid_scale; [lia| |done]. apply Z.pow_pos_nonneg; lia.
Qed.

(** Adding one to a rounded integer and rounding again stays below the
    rounding of the successor. *)
Lemma rnd_succ_int n :
  1 <= n < 2 ^ 31 ->
  rnd (rnd (n * scale) + scale) <= rnd ((n + 1) * scale).
Proof.
  intros Hn. pose proof scale_pos as Hsc.
  assert (Hsmall : (n + 1) * scale <= 2 ^ 432).
  { change (2 ^ 432) with (2 ^ 32 * scale).
    apply Z.mul_le_mono_nonneg_r; [lia|]. change (2 ^ 32) with (2 * 2 ^ 31). lia. }
  assert (Hg : grid_exponent ((n + 1) * scale) <= 103)
    by (apply grid_exponent_small; nia).
  destruct (Z_le_gt_dec (rnd (n * scale)) (n * scale)) as [Hle|Hgt].
  { apply rnd_mono; [|done]. pose proof (sval_nonneg (RND (n * scale))).
    unfold rnd in *. lia. }
  (* the rounding of [n] went up *)
  destruct (Z_le_gt_dec (Zdigits2 n) 24) as [Hd|Hd].
  { rewrite rnd_int_small in Hgt by lia. lia. }
  set (d := Zdigits2 n) in *.
  pose proof (Zdigits2_bounds n ltac:(lia)) as [Hlo Hhi]. fold d in Hlo, Hhi.
  assert (Hd31 : d <= 31).
  { assert (d - 1 < 31) by (apply pow2_lt_inv; lia). lia. }
  rewrite rnd_int_large in Hgt |- * by (fold d; lia). fold d in Hgt |- *.
  set (P := 2 ^ (d - 24)) in *.
  assert (HP : 2 <= P).
  { subst P. change 2 with (2 ^ 1) at 1. apply Z.pow_le_mono_r; lia. }
  assert (HPd : 2 ^ d = 16777216 * P).
  { subst P. change 16777216 with (2 ^ 24). rewrite <- Z.pow_add_r by lia.
    f_equal. lia. }
  assert (HPd1 : 2 ^ (d - 1) = 8388608 * P).
  { subst P. change 8388608 with (2 ^ 23). rewrite <- Z.pow_add_r by lia.
    f_equal. lia. }
  assert (HPdef : 2 ^ (d - 24) = P) by reflexivity.
  clearbody P.
  pose proof (Z.div_mod n P ltac:(lia)) as Hdm.
  pose proof (Z.mod_pos_bound n P ltac:(lia)) as Hrb.
  pose proof (rne_grid_bounds n P ltac:(lia)) as [Hq0 Hq1].
  set (q := n / P) in *. set (r := n mod P) in *.
  assert (Hup : rne_grid n P = q + 1).
  { assert (Hgt' : n < rne_grid n P * P).
    { apply (Z.mul_lt_mono_pos_r scale); lia. }
    destruct (Z.eq_dec (rne_grid n P) q) as [Heq|Hne]; [|lia].
    rewrite Heq in Hgt'. rewrite (Z.mul_comm q P) in Hgt'. lia. }
  rewrite Hup.
  assert (Hq : 8388608 <= q < 16777216).
  { rewrite HPd1 in Hlo. rewrite HPd in Hhi. subst q. split.
    - apply Z.div_le_lower_bound; lia.
    - apply Z.div_lt_upper_bound; lia. }
  (* the value to round again, and an upper bound on the right *)
  assert (Hrhs : (q + 1) * P * scale <= rnd ((n + 1) * scale)).
  { transitivity (rnd (n * scale)).
    - rewrite rnd_int_large by (fold d; lia). fold d.
      rewrite HPdef. rewrite Hup. lia.
    - apply rnd_mono; [|done]. split.
      + apply Z.mul_nonneg_nonneg; lia.
      + apply Z.mul_le_mono_nonneg_r; lia. }
  etransitivity; [|exact Hrhs].
  replace ((q + 1) * P * scale + scale) with (((q + 1) * P + 1) * scale) by lia.
  set (n' := (q + 1) * P + 1).
  assert (HqP : 8388608 * P <= (q + 1) * P <= 16777216 * P).
  { split; apply Z.mul_le_mono_nonneg_r; lia. }
  assert (Hn' : 0 < n' <= 2 ^ 32).
  { subst n'. change (2 ^ 32) with (2 * 2 ^ 31).
    assert (2 ^ d <= 2 ^ 31) by (apply Z.pow_le_mono_r; lia). lia. }
  destruct (Z.eq_dec (q + 1) 16777216) as [Hfull|Hnot].
  - (* the mantissa overflowed into the next binade *)
    assert (Hdn' : Zdigits2 n' = d + 1).
    { apply Zdigits2_unique; [lia|]. replace (d + 1 - 1) with d by lia.
      rewrite Z.pow_add_r by lia. change (2 ^ 1) with 2. subst n'.
      rewrite Hfull. lia. }
    rewrite rnd_int_large by lia. rewrite Hdn'.
    replace (2 ^ (d + 1 - 24)) with (2 * P).
    2:{ replace (d + 1 - 24) with (Z.succ (d - 24)) by lia.
        rewrite Z.pow_succ_r by lia. lia. }
    assert (Hdiv : n' / (2 * P) = 8388608 /\ n' mod (2 * P) = 1).
    { assert (n' = 8388608 * (2 * P) + 1) by (subst n'; rewrite Hfull; lia).
      split.
      - symmetry. apply (Z.div_unique n' (2 * P) 8388608 1); lia.
      - symmetry. apply (Z.mod_unique n' (2 * P) 8388608 1); lia. }
    destruct Hdiv as [Hdq Hdr].
    unfold rne_grid. rewrite Hdq, Hdr.
    destruct (Z.compare_spec (2 * 1) (2 * P)); [lia| |lia].
    rewrite Hfull. lia.
  - (* same binade *)
    assert (Hdn' : Zdigits2 n' = d).
    { apply Zdigits2_unique; [lia|]. subst n'.
      assert ((q + 1) * P <= 16777215 * P)
        by (apply Z.mul_le_mono_nonneg_r; lia).
      lia. }
    rewrite rnd_int_large by lia. rewrite Hdn', HPdef.
    assert (Hdiv : n' / P = q + 1 /\ n' mod P = 1).
    { split.
      - symmetry. apply (Z.div_unique n' P (q + 1) 1); subst n'; lia.
      - symmetry. apply (Z.mod_unique n' P (q + 1) 1); subst n'; lia. }
    destruct Hdiv as [Hdq Hdr].
    assert (Hrne : rne_grid n' P = q + 1); [|rewrite Hrne; lia].
    unfold rne_grid. rewrite Hdq, Hdr.
    destruct (Z.compare_spec (2 * 1) P) as [HP2|HP2|HP2]; try lia.
    (* a tie: the mantissa is even, because [n] was a tie rounded up *)
    assert (Heven : Z.even (q + 1) = true); [|by rewrite Heven].
    unfold rne_grid in Hup. fold q r in Hup.
    assert (r = 0 \/ r = 1) as [Hr|Hr] by lia; rewrite Hr in Hup.
    + destruct (Z.compare_spec (2 * 0) P); lia.
    + destruct (Z.compare_spec (2 * 1) P); try lia.
      destruct (Z.even q) eqn:Eq; [lia|].
      rewrite Z.even_add, Eq. reflexivity.
Qed.

(** ** The two formulas of the player stay in [0, 1] *)

Lemma rnd_int_pos n : 1 <= n <= 2 ^ 32 -> scale <= rnd (n * scale).
Proof.
  intros Hn. pose proof scale_pos. rewrite <- rnd_scale at 1.
  apply rnd_mono; [nia|]. apply grid_exponent_small.
  change (2 ^ 432) with (2 ^ 32 * scale). nia.
Qed.

Lemma rnd_int_mono a b :
  0 <= a <= b -> b <= 2 ^ 32 -> rnd (a * scale) <= rnd (b * scale).
Proof.
  intros Hab Hb. pose proof scale_pos. apply rnd_mono; [nia|].
  apply grid_exponent_small. change (2 ^ 432) with (2 ^ 32 * scale). nia.
Qed.

Lemma rnd_int_bound n : 0 <= n <= 2 ^ 31 -> rnd (n * scale) <= 2 ^ 31 * scale.
Proof.
  intros Hn.
  assert (H31 : rnd (2 ^ 31 * scale) = 2 ^ 31 * scale) by (vm_compute; reflexivity).
  rewrite <- H31. apply rnd_int_mono; [lia|].
  change (2 ^ 32) with (2 * 2 ^ 31). lia.
Qed.

Lemma region_ratio_unit black_region points :
  0 <= black_region <= points -> 1 <= points <= 2 ^ 31 ->
  unit_float (F32.div (F32.of_int black_region) (F32.of_int points)).
Proof.
  intros Hb Hp.
  assert (H32 : 2 ^ 31 <= 2 ^ 32) by (apply Z.pow_le_mono_r; lia).
  destruct (of_int_nonneg black_region ltac:(lia)) as [Hn1 Hs1].
  destruct (of_int_nonneg points ltac:(lia)) as [Hn2 Hs2].
  pose proof (rnd_int_pos points ltac:(lia)). pose proof scale_pos.
  apply div_unit; [done|done|lia|].
  rewrite Hs1, Hs2. apply rnd_int_mono; lia.
Qed.

Lemma update_unit avg x n :
  unit_float avg -> unit_float x ->
  1 <= n -> n + 1 <= CInt.INT_MAX ->
  unit_float
    (F32.div (F32.add (F32.mul avg (F32.of_int n)) x) (F32.of_int (n + 1))).
Proof.
  intros Havg Hx Hn Hmax. unfold CInt.INT_MAX in Hmax.
  apply unit_float_iff in Havg as [Havg Havg1].
  apply unit_float_iff in Hx as [Hx Hx1].
  pose proof scale_pos as Hsc.
  assert (H31 : 2 ^ 31 = 2147483648) by reflexivity.
  assert (H32 : 2 ^ 32 = 4294967296) by reflexivity.
  destruct (of_int_nonneg n ltac:(lia)) as [Hfn Hsn].
  destruct (of_int_nonneg (n + 1) ltac:(lia)) as [Hfd Hsd].
  pose proof (rnd_int_bound n ltac:(lia)) as Hnb.
  pose proof (sval_nonneg avg) as Havg0. pose proof (sval_nonneg x) as Hx0.
  pose proof (sval_nonneg (F32.of_int n)) as Hfn0.
  (* the product *)
  destruct (mul_sval avg (F32.of_int n) Havg Hfn) as (Hp & v & Hv0 & Hv & Hsp).
  { rewrite Hsn. change (2 ^ 432) with (2 ^ 32 * scale). nia. }
  assert (Hvle : v <= sval (F32.of_int n)) by nia.
  assert (Hple : sval (F32.mul avg (F32.of_int n)) <= sval (F32.of_int n)).
  { rewrite Hsp. rewrite <- (rnd_sval (F32.of_int n)) by done.
    apply rnd_mono; [lia|]. apply grid_exponent_small.
    rewrite Hsn. change (2 ^ 432) with (2 ^ 32 * scale). nia. }
  (* the sum *)
  assert (Hsum432 : sval (F32.of_int n) + scale <= 2 ^ 432).
  { rewrite Hsn. change (2 ^ 432) with (2 ^ 32 * scale). nia. }
  destruct (add_sval (F32.mul avg (F32.of_int n)) x Hp Hx) as [Hs Hss]; [lia|].
  pose proof (sval_nonneg (F32.mul avg (F32.of_int n))) as Hp0.
  assert (Hsle : sval (F32.add (F32.mul avg (F32.of_int n)) x)
                 <= sval (F32.of_int (n + 1))).
  { rewrite Hss, Hsd. etransitivity; [|apply rnd_succ_int; lia].
    rewrite <- Hsn. apply rnd_mono; [lia|].
    apply grid_exponent_small. lia. }
  apply div_unit; [done|done| |done].
  rewrite Hsd. pose proof (rnd_int_pos (n + 1) ltac:(lia)). lia.
Qed.

Section SelectionTheorems.

Context {FullBoard : Type} `{Countable FullBoard}.
Context `{!BoardOps FullBoard} `{!PlayoutOps FullBoard} `{!Libm}.

Implicit Types (t : gmap FullBoard NodeRecord) (b : FullBoard).

Lemma all_known_no_unknown t b :
  Forall (fun i => is_Some (GetChild t b i)) (legal_moves b) ->
  unknown_children t b = [].
Proof.
  intros Hk. unfold unknown_children.
  induction Hk as [|i l [r Hr] _ IH]; [done|].
  rewrite filter_cons_False by congruence. done.
Qed.

Lemma child_visits_le_sum t b l i :
  Forall (fun j => 0 <= child_visits t b j) l -> i ∈ l ->
  child_visits t b i <= visits_sum t b l.
Proof.
  induction 1 as [|j l Hj Hl IH]; intros Hi; [by apply elem_of_nil in Hi|].
  rewrite visits_sum_cons. pose proof (visits_sum_nonneg _ _ _ Hl).
  apply elem_of_cons in Hi as [->|Hi]; [lia|]. specialize (IH Hi). lia.
Qed.

(** *** [BestChild] *)

Lemma most_visited_spec t b l :
  forall seen max_visited_count most_visited_index,
  Forall (fun i => is_Some (GetChild t b i)) l ->
  visited_max t b seen max_visited_count most_visited_index ->
  exists mx r,
    most_visited t b l max_visited_count most_visited_index = Done r
    /\ visited_max t b (seen ++ l) mx r.
Proof.
  induction l as [|i l IH]; intros seen mx cur Hk Hinv.
  - exists mx, cur. rewrite app_nil_r. done.
  - apply Forall_cons in Hk as [[r Hr] Hk]. cbn [most_visited]. rewrite Hr.
    replace (seen ++ i :: l) with ((seen ++ [i]) ++ l)
      by (by rewrite <- app_assoc).
    assert (Hv : child_visits t b i = GetVisitedTime r)
      by (unfold child_visits; by rewrite Hr).
    destruct (GetVisitedTime r >? mx) eqn:E.
    + rewrite Z.gtb_ltb in E. apply Z.ltb_lt in E.
      apply (IH (seen ++ [i])); [done|].
      exists seen, []. rewrite Hv. repeat split; auto.
      destruct cur as [m|]; simpl in Hinv.
      * destruct Hinv as (pre & post & -> & -> & Hpre & Hpost).
        apply Forall_app. split.
        { eapply Forall_impl; [exact Hpre|]. simpl. intros; lia. }
        apply Forall_cons. split; [lia|].
        eapply Forall_impl; [exact Hpost|]. simpl. intros; lia.
      * destruct Hinv as [-> Hall].
        eapply Forall_impl; [exact Hall|]. simpl. intros; lia.
    + rewrite Z.gtb_ltb in E. apply Z.ltb_ge in E.
      apply (IH (seen ++ [i])); [done|].
      destruct cur as [m|]; simpl in Hinv |- *.
      * destruct Hinv as (pre & post & -> & -> & Hpre & Hpost).
        exists pre, (post ++ [i]). rewrite <- app_assoc. repeat split; auto.
        apply Forall_app. split; [done|]. apply Forall_singleton. lia.
      * destruct Hinv as [-> Hall]. split; [done|].
        apply Forall_app. split; [done|]. apply Forall_singleton. lia.
Qed.

(** C5: when the root has a legal move and every legal move has a child
    record (with a non-negative visit count, as the data model has it),
    [BestChild] returns a legal move [m] whose child has the greatest visit
    count, and it is the first such move in the playable order: the legal
    moves split as [pre ++ m :: post] with strictly smaller counts in [pre]
    and no greater count in [post]. *)
Theorem BestChild_first_most_visited t b :
  legal_moves b <> [] ->
  Forall (fun i => is_Some (GetChild t b i)) (legal_moves b) ->
  Forall (fun i => 0 <= child_visits t b i) (legal_moves b) ->
  exists m pre post,
    BestChild t b = Done m
    /\ legal_moves b = pre ++ m :: post
    /\ Forall (fun j => child_visits t b j < child_visits t b m) pre
    /\ Forall (fun j => child_visits t b j <= child_visits t b m) post.
Proof.
  intros Hne Hk Hpos. unfold BestChild. fold (legal_moves b).
  destruct (most_visited_spec t b (legal_moves b) [] (-1) None Hk)
    as (mx & r & -> & Hinv).
  { simpl. split; [done|]. constructor. }
  simpl in Hinv. destruct r as [m|]; simpl in Hinv.
  - destruct Hinv as (pre & post & Hdec & -> & Hpre & Hpost).
    exists m, pre, post. done.
  - destruct Hinv as [_ Hall]. exfalso.
    destruct (legal_moves b) as [|i l]; [done|].
    apply Forall_cons in Hall as [Hi _]. apply Forall_cons in Hpos as [Hi' _]. lia.
Qed.

(** *** [MaxUcbChild] *)

(** C1, as the code has it: with some child still without a record,
    [MaxUcbChild] returns [unknown[i]] for [i = thread_index % thread_count_]
    when [i] is below the number of unknown children, and [unknown[0]]
    otherwise, where [unknown] lists the legal moves without a child record
    in the playable order.  (Worker ids are non-negative,
    [thread_count_] is positive, and the visit counts summed on the way do
    not overflow.) *)
Theorem MaxUcbChild_unknown_choice (p : UctPlayer) t b thread_index :
  0 <= thread_index <= CInt.INT_MAX ->
  0 < thread_count_ p ->
  Forall (fun i => 0 <= child_visits t b i) (legal_moves b) ->
  visits_sum t b (legal_moves b) <= CInt.INT_MAX ->
  unknown_children t b <> [] ->
  exists m,
    MaxUcbChild_locked p t b thread_index = Done m
    /\ unknown_children t b
       !! Z.to_nat (let index := Z.rem thread_index (thread_count_ p) in
                    if index <? Z.of_nat (length (unknown_children t b))
                    then index else 0)
       = Some m.
Proof.
  intros Hidx Htc Hpos Hsum Hunk.
  unfold MaxUcbChild_locked. fold (legal_moves b).
  destruct (count_children_fresh t b (legal_moves b) 0) as (s' & Hcc & _);
    [lia|done|lia|].
  fold (unknown_children t b) in Hcc.
  destruct (legal_moves b) as [|i0 l0] eqn:El.
  { unfold unknown_children in Hunk. rewrite El in Hunk. done. }
  rewrite Hcc.
  change (Done (s', unknown_children t b) ≫= ?k)
    with (k (s', unknown_children t b)). cbv beta iota.
  destruct (unknown_children t b) as [|u0 us] eqn:Eu; [done|].
  rewrite int_rem_worker by done.
  change (Done (Z.rem thread_index (thread_count_ p)) ≫= ?k)
    with (k (Z.rem thread_index (thread_count_ p))). cbv beta zeta.
  assert (Hr : 0 <= Z.rem thread_index (thread_count_ p) <= CInt.INT_MAX).
  { pose proof (Z.rem_nonneg thread_index (thread_count_ p)).
    pose proof (Z.rem_bound_pos thread_index (thread_count_ p)).
    assert (Z.rem thread_index (thread_count_ p) <= thread_index).
    { rewrite Z.rem_mod_nonneg by lia. apply Z.mod_le; lia. }
    lia. }
  rewrite to_size_t_small by done.
  destruct (Z.rem thread_index (thread_count_ p) <? Z.of_nat (length (u0 :: us)))
    eqn:E.
  - apply Z.ltb_lt in E.
    destruct (lookup_lt_is_Some_2 (u0 :: us)
                (Z.to_nat (Z.rem thread_index (thread_count_ p)))) as [m Hm];
      [lia|].
    exists m. split; [|done]. by apply vector_at_lookup.
  - exists u0. split; [|done]. apply vector_at_lookup; [unfold CInt.INT_MAX; lia|done].
Qed.

Lemma MaxUcbChild_known_choice_scores (p : UctPlayer) t b thread_index :
  legal_moves b <> [] ->
  Forall (fun i => is_Some (GetChild t b i)) (legal_moves b) ->
  Forall (fun i => 0 < child_visits t b i) (legal_moves b) ->
  visits_sum t b (legal_moves b) <= CInt.INT_MAX ->
  Forall (fun i => F32.gt (child_ucb t b i) F32.minus_one = true)
    (selectable_children t b) ->
  exists m,
    MaxUcbChild_locked p t b thread_index = Done m
    /\ match selectable_children t b with
       | [] => m = POSITION_INDEX_PASS
       | _ :: _ =>
           exists pre post,
             selectable_children t b = pre ++ m :: post
             /\ Forall (fun j => F32.gt (child_ucb t b m) (child_ucb t b j) = true) pre
             /\ Forall (fun j => F32.gt (child_ucb t b j) (child_ucb t b m) = false) post
       end
    /\ (selectable_children t b = [] \/
        (m ∈ legal_moves b
         /\ IsSuicide b (MkMove (NextForce b) m) = false
         /\ exists r, GetChild t b m = Some r /\ IsInSearch r = false)).
Proof.
  intros Hne Hk Hpos Hsum Hgt.
  unfold MaxUcbChild_locked. fold (legal_moves b).
  destruct (count_children_fresh t b (legal_moves b) 0) as (s' & Hcc & Hs');
    [lia| |lia|].
  { eapply Forall_impl; [exact Hpos|]. simpl. intros; lia. }
  fold (unknown_children t b) in Hcc, Hs'.
  rewrite (all_known_no_unknown _ _ Hk) in Hcc, Hs'.
  specialize (Hs' eq_refl). simpl in Hs'. subst s'.
  destruct (select_max_ucb_spec t b (visits_sum t b (legal_moves b))
              (legal_moves b) [] F32.minus_one POSITION_INDEX_PASS)
    as (m & Hm & mx & Hinv).
  { eapply Forall_impl; [exact Hpos|]. simpl. intros i Hi r Hr.
    unfold child_visits in Hi. by rewrite Hr in Hi. }
  { simpl. apply Forall_forall. intros i Hi Hsel.
    rewrite Forall_forall in Hgt. apply Hgt.
    unfold selectable_children. apply list_elem_of_filter. done. }
  { left. done. }
  destruct (legal_moves b) as [|i0 l0] eqn:El; [done|]. rewrite <- El in *.
  rewrite Hcc.
  change (Done (visits_sum t b (legal_moves b), []) ≫= ?k)
    with (k (visits_sum t b (legal_moves b), @nil Z)). cbv beta iota.
  exists m. split; [exact Hm|].
  simpl in Hinv. unfold running_max in Hinv.
  fold (selectable_children t b) in Hinv.
  destruct Hinv as [(_ & -> & Hnone)|(pre & post & Hdec & _ & Hpre & Hpost)].
  - rewrite Hnone. split; [done|]. by left.
  - assert (Hin : m ∈ selectable_children t b).
    { rewrite Hdec. apply elem_of_app. right. apply elem_of_cons. by left. }
    split.
    + destruct (selectable_children t b) as [|x xs] eqn:Esel;
        [by apply elem_of_nil in Hin|].
      exists pre, post. done.
    + right. unfold selectable_children in Hin.
      apply list_elem_of_filter in Hin as [Hsel Hin].
      destruct (selectable_inv _ _ _ Hsel) as (r & Hr & Hs & Hsu).
      split; [done|]. split; [done|]. by exists r.
Qed.

(** C6: when every legal move has a child record, [MaxUcbChild] goes
    through the children that are neither in search nor suicide: it returns
    the PASS sentinel when there is none, and otherwise the first of them
    whose UCB score no other exceeds (earlier ones score strictly less); the
    move returned is therefore never a suicide.  The records are as the
    search leaves them (positive visit counts whose sum fits an [int],
    averages at or above zero) and the logarithm of an integer from 1 on is
    at or above zero. *)
Theorem MaxUcbChild_known_choice (p : UctPlayer) t b thread_index :
  legal_moves b <> [] ->
  Forall (fun i => is_Some (GetChild t b i)) (legal_moves b) ->
  Forall (fun i => 0 < child_visits t b i) (legal_moves b) ->
  visits_sum t b (legal_moves b) <= CInt.INT_MAX ->
  Forall (fun i => forall r, GetChild t b i = Some r ->
                              zero_le (GetAverageProfit r)) (legal_moves b) ->
  (forall n, 1 <= n <= CInt.INT_MAX -> zero_le (log (F64.of_int n))) ->
  exists m,
    MaxUcbChild_locked p t b thread_index = Done m
    /\ match selectable_children t b with
       | [] => m = POSITION_INDEX_PASS
       | _ :: _ =>
           exists pre post,
             selectable_children t b = pre ++ m :: post
             /\ Forall (fun j => F32.gt (child_ucb t b m) (child_ucb t b j) = true) pre
             /\ Forall (fun j => F32.gt (child_ucb t b j) (child_ucb t b m) = false) post
       end
    /\ (selectable_children t b = [] \/
        (m ∈ legal_moves b
         /\ IsSuicide b (MkMove (NextForce b) m) = false
         /\ exists r, GetChild t b m = Some r /\ IsInSearch r = false)).
Proof.
  intros Hne Hk Hpos Hsum Havg Hlog.
  apply MaxUcbChild_known_choice_scores; try done.
  assert (Hnn : Forall (fun i => 0 <= child_visits t b i) (legal_moves b)).
  { eapply Forall_impl; [exact Hpos|]. simpl. intros; lia. }
  assert (Hsum1 : 1 <= visits_sum t b (legal_moves b)).
  { destruct (legal_moves b) as [|i0 l0]; [done|].
    apply Forall_cons in Hpos as [Hi0 _]. apply Forall_cons in Hnn as [_ Hl0].
    rewrite visits_sum_cons. pose proof (visits_sum_nonneg _ _ _ Hl0). lia. }
  apply Forall_forall. intros i Hi.
  unfold selectable_children in Hi. apply list_elem_of_filter in Hi as [_ Hi].
  rewrite Forall_forall in Hk, Hpos, Havg.
  destruct (Hk i Hi) as [r Hr]. specialize (Hpos i Hi). specialize (Havg i Hi r Hr).
  pose proof (child_visits_le_sum t b (legal_moves b) i Hnn Hi) as Hle.
  unfold child_ucb. unfold child_visits in Hpos, Hle. rewrite Hr in *.
  apply ucb_value_above_initial; [done|lia|]. apply Hlog. lia.
Qed.

End SelectionTheorems.

Section VisitTheorems.

Context {FullBoard : Type} `{Countable FullBoard}.
Context `{!BoardOps FullBoard} `{!PlayoutOps FullBoard} `{!Libm}.

Implicit Types (t : gmap FullBoard NodeRecord) (b : FullBoard) (s : State FullBoard).

(** *** Running the state monad *)

Lemma M_bind_Done {A B} (m : M FullBoard A) (k : A -> M FullBoard B) s a s' :
  m s = Done (a, s') -> (m ≫= k) s = k a s'.
Proof. intros Hm. unfold mbind, M_bind. by rewrite Hm. Qed.

Lemma M_bind_inv {A B} (m : M FullBoard A) (k : A -> M FullBoard B) s y s'' :
  (m ≫= k) s = Done (y, s'') ->
  exists a s', m s = Done (a, s') /\ k a s' = Done (y, s'').
Proof.
  unfold mbind, M_bind. destruct (m s) as [[a s']|f]; [|done]. eauto.
Qed.

Lemma alter_present t b (f : NodeRecord -> NodeRecord) r :
  t !! b = Some r -> alter f b t = <[b := f r]> t.
Proof.
  intros Hr. apply map_eq. intros k.
  destruct (decide (b = k)) as [->|Hne].
  - by rewrite lookup_alter_eq, lookup_insert_eq, Hr.
  - by rewrite lookup_alter_ne, lookup_insert_ne.
Qed.

Ltac run :=
  unfold mbind, M_bind, mret, M_ret, lock, unlock, emit, table, counter,
    increment_counter, deref, store_IsInSearch, store_AverageProfit,
    store_VisitedTimes, write, table_Insert, lift; cbn [transposition_table_ mc_game_count trace].

Lemma visit_absent_eq fuel (p : UctPlayer) b thread_index s :
  Get (transposition_table_ s) b = None ->
  let game := MkMonteCarloGame b (seed_ p) in
  let final := GetFullBoard (if IsEnd b then game else Run game) in
  let profit := GetRegionRatio final (LastForce b) in
  ModifyAverageProfitAndReturnNewProfit (S fuel) p b thread_index s
  = Done (profit,
          MkState (<[b := MkNodeRecord 1 profit false]> (transposition_table_ s))
            (CInt.wrap (mc_game_count s + 1))
            (trace s ++ [EvMonteCarloGame game;
                         EvInsert b (MkNodeRecord 1 profit false)])).
Proof.
  intros Hnone game final profit.
  cbn [ModifyAverageProfitAndReturnNewProfit]. run. rewrite Hnone. run.
  rewrite <- app_assoc. reflexivity.
Qed.

(** C8: on a board without a record, the call builds a playout, runs it
    unless the board is already terminal, increments the counter, takes as
    profit the region ratio of the playout's final board for the side that
    moved last (black region over the number of points for black, one minus
    that for white), inserts the record (1, profit, false) under the board
    and returns the profit. *)
Theorem visit_absent_record fuel (p : UctPlayer) b thread_index s :
  Get (transposition_table_ s) b = None ->
  let game := MkMonteCarloGame b (seed_ p) in
  let final := GetFullBoard (if IsEnd b then game else Run game) in
  let black_ratio :=
    F32.div (F32.of_int (BlackRegion final)) (F32.of_int (BOARD_LEN * BOARD_LEN)) in
  let profit :=
    match LastForce b with
    | BLACK_FORCE => black_ratio
    | WHITE_FORCE => F32.sub F32.one black_ratio
    end in
  ModifyAverageProfitAndReturnNewProfit (S fuel) p b thread_index s
  = Done (profit,
          MkState (<[b := MkNodeRecord 1 profit false]> (transposition_table_ s))
            (CInt.wrap (mc_game_count s + 1))
            (trace s ++ [EvMonteCarloGame game;
                         EvInsert b (MkNodeRecord 1 profit false)]))
  /\ (CInt.INT_MIN <= mc_game_count s < CInt.INT_MAX ->
      CInt.wrap (mc_game_count s + 1) = mc_game_count s + 1).
Proof.
  intros Hnone game final black_ratio profit. split.
  - rewrite (visit_absent_eq fuel p b thread_index s Hnone).
    assert (Hp : GetRegionRatio final (LastForce b) = profit).
    { unfold GetRegionRatio, profit, black_ratio, BoardLenSquare.
      destruct (LastForce b); reflexivity. }
    fold game. fold final. rewrite Hp. reflexivity.
  - intros Hc. apply wrap_in_range. apply in_range_iff.
    unfold CInt.INT_MIN, CInt.INT_MAX in *. lia.
Qed.

Lemma visit_terminal_eq fuel (p : UctPlayer) b thread_index s r :
  Get (transposition_table_ s) b = Some r ->
  IsEnd b = true ->
  CInt.INT_MIN <= GetVisitedTime r + 1 <= CInt.INT_MAX ->
  ModifyAverageProfitAndReturnNewProfit (S fuel) p b thread_index s
  = Done (GetAverageProfit r,
          MkState
            (<[b := MkNodeRecord (GetVisitedTime r + 1) (GetAverageProfit r) false]>
               (transposition_table_ s))
            (CInt.wrap (mc_game_count s + 1))
            (trace s ++ [EvLock; EvSetIsInSearch b true; EvUnlock;
                         EvSetVisitedTimes b (GetVisitedTime r + 1);
                         EvLock; EvSetIsInSearch b false; EvUnlock])).
Proof.
  intros Hr Hend Hv. unfold Get in Hr.
  cbn [ModifyAverageProfitAndReturnNewProfit]. run. unfold Get. rewrite Hr, Hend. run.
  rewrite (alter_present _ _ _ _ Hr). rewrite lookup_insert_eq.
  cbn [transposition_table_ mc_game_count trace GetVisitedTime SetIsInSearch
       GetAverageProfit].
  rewrite lookup_insert_eq.
  cbn [transposition_table_ mc_game_count trace GetVisitedTime SetIsInSearch
       GetAverageProfit].
  rewrite int_add_Done by (unfold CInt.INT_MIN, CInt.INT_MAX in *; lia).
  cbn [transposition_table_ mc_game_count trace].
  f_equal. f_equal. f_equal.
  - unfold SetVisitedTimes, SetIsInSearch.
    rewrite (alter_present _ _ _ _ (lookup_insert_eq _ _ _)).
    rewrite (alter_present _ _ _ _ (lookup_insert_eq _ _ _)).
    rewrite !insert_insert_eq. reflexivity.
  - rewrite <- !app_assoc. reflexivity.
Qed.

(** C2, as the code has it: on a terminal board with a record, the call
    increments the counter, returns the stored average and leaves the
    average untouched, but it does count the visit: the record ends with
    its visit count incremented by one (and not in search). *)
Theorem visit_terminal_record fuel (p : UctPlayer) b thread_index s r :
  Get (transposition_table_ s) b = Some r ->
  IsEnd b = true ->
  CInt.INT_MIN <= GetVisitedTime r < CInt.INT_MAX ->
  ModifyAverageProfitAndReturnNewProfit (S fuel) p b thread_index s
  = Done (GetAverageProfit r,
          MkState
            (<[b := MkNodeRecord (GetVisitedTime r + 1) (GetAverageProfit r) false]>
               (transposition_table_ s))
            (CInt.wrap (mc_game_count s + 1))
            (trace s ++ [EvLock; EvSetIsInSearch b true; EvUnlock;
                         EvSetVisitedTimes b (GetVisitedTime r + 1);
                         EvLock; EvSetIsInSearch b false; EvUnlock])).
Proof.
  intros Hr Hend Hv. apply visit_terminal_eq; [done|done|].
  unfold CInt.INT_MIN, CInt.INT_MAX in *. lia.
Qed.

(** *** The branch that updates the average *)

Lemma descend_inv (p : UctPlayer) b thread_index s next s1 :
  descend p b thread_index s = Done (next, s1) ->
  transposition_table_ s1 = transposition_table_ s
  /\ mc_game_count s1 = mc_game_count s
  /\ (trace s1 = trace s \/ trace s1 = trace s ++ [EvLock; EvUnlock])
  /\ ((legal_moves b = [] /\ next = Pass b (NextForce b))
      \/ exists m, legal_moves b <> []
           /\ MaxUcbChild_locked p (transposition_table_ s) b thread_index = Done m
           /\ next = Play b m).
Proof.
  unfold descend, legal_moves.
  destruct (PlayableIndexes b (NextForce b)) as [|i0 l0] eqn:El.
  - intros [= <- <-]. repeat split; auto.
  - unfold MaxUcbChild. run.
    destruct (MaxUcbChild_locked p (transposition_table_ s) b thread_index)
      as [m|f] eqn:Em; [|done].
    intros [= <- <-]. cbn [transposition_table_ mc_game_count trace].
    repeat split; auto.
    + right. by rewrite <- app_assoc.
    + right. exists m. done.
Qed.

(** The state in which [descend] starts: the record is marked in search. *)
Lemma visit_present_inv fuel (p : UctPlayer) b thread_index s r0 x s' :
  Get (transposition_table_ s) b = Some r0 ->
  IsEnd b = false ->
  ModifyAverageProfitAndReturnNewProfit (S fuel) p b thread_index s = Done (x, s') ->
  exists next s1 child_profit s2 r,
    descend p b thread_index (marked b r0 s) = Done (next, s1)
    /\ ModifyAverageProfitAndReturnNewProfit fuel p next thread_index s1
       = Done (child_profit, s2)
    /\ Get (transposition_table_ s2) b = Some r
    /\ CInt.INT_MIN <= GetVisitedTime r + 1 <= CInt.INT_MAX
    /\ x = F32.sub F32.one child_profit
    /\ s' = updated b r x s2.
Proof.
  intros Hr Hend. unfold Get in Hr.
  cbn [ModifyAverageProfitAndReturnNewProfit]. run. unfold Get. rewrite Hr, Hend. run.
  rewrite (alter_present _ _ _ _ Hr). rewrite <- !app_assoc.
  change ([EvLock] ++ [EvSetIsInSearch b true] ++ [EvUnlock])
    with [EvLock; EvSetIsInSearch b true; EvUnlock].
  fold (marked b r0 s).
  destruct (descend p b thread_index (marked b r0 s)) as [[next s1]|f] eqn:Ed;
    [|done].
  destruct (ModifyAverageProfitAndReturnNewProfit fuel p next thread_index s1)
    as [[child_profit s2]|f] eqn:Ev; [|done].
  destruct (transposition_table_ s2 !! b) as [r|] eqn:Er; [|done].
  destruct (int_add (GetVisitedTime r) 1) as [n|f] eqn:En; [|done].
  apply int_add_inv in En as [-> Hn].
  cbn [transposition_table_ mc_game_count trace].
  rewrite (alter_present _ _ _ _ Er). rewrite lookup_insert_eq.
  cbn [GetVisitedTime SetAverageProfit].
  rewrite int_add_Done by done.
  cbn [transposition_table_ mc_game_count trace].
  intros [= <- <-].
  exists next, s1, child_profit, s2, r. repeat split; auto; try lia.
  unfold updated. f_equal.
  - unfold SetVisitedTimes, SetIsInSearch, SetAverageProfit.
    rewrite (alter_present _ _ _ _ (lookup_insert_eq _ _ _)).
    rewrite (alter_present _ _ _ _ (lookup_insert_eq _ _ _)).
    rewrite !insert_insert_eq. reflexivity.
  - rewrite <- !app_assoc. reflexivity.
Qed.

(** C7: in the branch that finds a record on a board that is not terminal,
    once the descent has returned the child's profit, the record (read as
    it is then: visits [n], average [avg]) is updated with the sample
    [x = 1 - child profit]: the average becomes [(avg * n + x) / (n + 1)]
    in [float] arithmetic and the visit count [n + 1]; the two writes follow
    each other directly. *)
Theorem visit_update_law fuel (p : UctPlayer) b thread_index s
    r0 next s1 child_profit s2 r :
  Get (transposition_table_ s) b = Some r0 ->
  IsEnd b = false ->
  descend p b thread_index (marked b r0 s) = Done (next, s1) ->
  ModifyAverageProfitAndReturnNewProfit fuel p next thread_index s1
  = Done (child_profit, s2) ->
  Get (transposition_table_ s2) b = Some r ->
  CInt.INT_MIN <= GetVisitedTime r < CInt.INT_MAX ->
  let x := F32.sub F32.one child_profit in
  let average :=
    F32.div
      (F32.add (F32.mul (GetAverageProfit r) (F32.of_int (GetVisitedTime r))) x)
      (F32.of_int (GetVisitedTime r + 1)) in
  ModifyAverageProfitAndReturnNewProfit (S fuel) p b thread_index s
  = Done (x,
          MkState
            (<[b := MkNodeRecord (GetVisitedTime r + 1) average false]>
               (transposition_table_ s2))
            (mc_game_count s2)
            (trace s2 ++ [EvSetAverageProfit b average;
                          EvSetVisitedTimes b (GetVisitedTime r + 1);
                          EvLock; EvSetIsInSearch b false; EvUnlock])).
Proof.
  intros Hr Hend Hd Hv Hr2 Hn x average. unfold Get in Hr, Hr2.
  cbn [ModifyAverageProfitAndReturnNewProfit]. run. unfold Get. rewrite Hr, Hend. run.
  rewrite (alter_present _ _ _ _ Hr). rewrite <- !app_assoc.
  change ([EvLock] ++ [EvSetIsInSearch b true] ++ [EvUnlock])
    with [EvLock; EvSetIsInSearch b true; EvUnlock].
  fold (marked b r0 s). rewrite Hd, Hv, Hr2.
  rewrite int_add_Done by (unfold CInt.INT_MIN, CInt.INT_MAX in *; lia).
  cbn [transposition_table_ mc_game_count trace].
  rewrite (alter_present _ _ _ _ Hr2). rewrite lookup_insert_eq.
  cbn [GetVisitedTime SetAverageProfit].
  rewrite int_add_Done by (unfold CInt.INT_MIN, CInt.INT_MAX in *; lia).
  cbn [transposition_table_ mc_game_count trace].
  f_equal. f_equal. f_equal.
  - unfold SetVisitedTimes, SetIsInSearch, SetAverageProfit.
    rewrite (alter_present _ _ _ _ (lookup_insert_eq _ _ _)).
    rewrite (alter_present _ _ _ _ (lookup_insert_eq _ _ _)).
    rewrite !insert_insert_eq. reflexivity.
  - rewrite <- !app_assoc. reflexivity.
Qed.

Lemma visit_terminal_inv fuel (p : UctPlayer) b thread_index s r x s' :
  Get (transposition_table_ s) b = Some r ->
  IsEnd b = true ->
  ModifyAverageProfitAndReturnNewProfit (S fuel) p b thread_index s = Done (x, s') ->
  CInt.INT_MIN <= GetVisitedTime r + 1 <= CInt.INT_MAX.
Proof.
  intros Hr Hend. unfold Get in Hr.
  cbn [ModifyAverageProfitAndReturnNewProfit]. run. unfold Get. rewrite Hr, Hend. run.
  rewrite (alter_present _ _ _ _ Hr). rewrite lookup_insert_eq.
  cbn [transposition_table_ mc_game_count trace GetVisitedTime SetIsInSearch
       GetAverageProfit].
  rewrite lookup_insert_eq.
  cbn [transposition_table_ mc_game_count trace GetVisitedTime SetIsInSearch
       GetAverageProfit].
  destruct (int_add (GetVisitedTime r) 1) as [n|f] eqn:En; [|done].
  apply int_add_inv in En as [-> Hn]. done.
Qed.

End VisitTheorems.

Section SearchTheorems.

Context {FullBoard : Type} `{Countable FullBoard}.
Context `{!BoardOps FullBoard} `{!PlayoutOps FullBoard} `{!Libm}.

Implicit Types (t : gmap FullBoard NodeRecord) (b : FullBoard) (s : State FullBoard).

Lemma playouts_app (tr1 tr2 : list (Event FullBoard)) :
  playouts (tr1 ++ tr2) = playouts tr1 ++ playouts tr2.
Proof. unfold playouts. apply omap_app. Qed.

Lemma MaxUcbChild_inv (p : UctPlayer) b thread_index s m s1 :
  MaxUcbChild p b thread_index s = Done (m, s1) ->
  MaxUcbChild_locked p (transposition_table_ s) b thread_index = Done m
  /\ s1 = MkState (transposition_table_ s) (mc_game_count s)
            (trace s ++ [EvLock; EvUnlock]).
Proof.
  unfold MaxUcbChild, mbind, M_bind, mret, M_ret, lock, unlock, emit, table, lift.
  cbn [transposition_table_ mc_game_count trace].
  destruct (MaxUcbChild_locked p (transposition_table_ s) b thread_index)
    as [m'|f]; [|done].
  intros [= <- <-]. split; [done|]. by rewrite <- app_assoc.
Qed.

(** *** What one visit does to the shared state *)

Lemma visit_effects fuel (p : UctPlayer) : forall b thread_index s x s',
  ModifyAverageProfitAndReturnNewProfit fuel p b thread_index s = Done (x, s') ->
  (exists new, trace s' = trace s ++ new
               /\ Forall (fun g => mc_seed g = seed_ p) (playouts new))
  /\ mc_game_count s' = CInt.wrap (mc_game_count s + 1)
  /\ (forall k, is_Some (transposition_table_ s !! k) ->
                is_Some (transposition_table_ s' !! k))
  /\ (map_Forall (fun _ r => 1 <= GetVisitedTime r) (transposition_table_ s) ->
      map_Forall (fun _ r => 1 <= GetVisitedTime r) (transposition_table_ s')).
Proof.
  induction fuel as [|fuel IH]; intros b idx s x s' Hv; [done|].
  destruct (Get (transposition_table_ s) b) as [r0|] eqn:Hr.
  2:{ rewrite (visit_absent_eq fuel p b idx s Hr) in Hv. injection Hv as <- <-.
      cbn [transposition_table_ mc_game_count trace].
      split; [|split; [done|split]].
      - eexists. split; [reflexivity|]. simpl. by repeat constructor.
      - intros k Hk. destruct (decide (b = k)) as [->|Hne].
        + rewrite lookup_insert_eq. eauto.
        + by rewrite lookup_insert_ne.
      - intros Hpos. apply map_Forall_insert_2; [simpl; lia|done]. }
  destruct (IsEnd b) eqn:Hend.
  { pose proof (visit_terminal_inv _ _ _ _ _ _ _ _ Hr Hend Hv) as Hrange.
    rewrite (visit_terminal_eq fuel p b idx s r0 Hr Hend) in Hv by done.
    injection Hv as <- <-. cbn [transposition_table_ mc_game_count trace].
    split; [|split; [done|split]].
    - eexists. split; [reflexivity|]. simpl. constructor.
    - intros k Hk. destruct (decide (b = k)) as [->|Hne].
      + rewrite lookup_insert_eq. eauto.
      + by rewrite lookup_insert_ne.
    - intros Hpos. apply map_Forall_insert_2; [|done]. simpl.
      specialize (Hpos b r0 Hr). simpl in Hpos. lia. }
  destruct (visit_present_inv _ _ _ _ _ _ _ _ Hr Hend Hv)
    as (next & s1 & child & s2 & r & Hd & Hrec & Hr2 & Hrange & -> & ->).
  apply descend_inv in Hd as (Ht1 & Hc1 & Htr1 & _).
  apply IH in Hrec as ((new2 & Htr2 & Hseed2) & Hc2 & Hdom2 & Hpos2).
  unfold updated, marked in *. cbn [transposition_table_ mc_game_count trace] in *.
  split; [|split; [|split]].
  - destruct Htr1 as [Htr1|Htr1]; rewrite Htr2, Htr1; eexists;
      (split; [rewrite <- !app_assoc; reflexivity|]);
      rewrite ?playouts_app; simpl; rewrite ?app_nil_r; done.
  - congruence.
  - intros k Hk. destruct (decide (b = k)) as [->|Hne].
    + rewrite lookup_insert_eq. eauto.
    + rewrite lookup_insert_ne by done. apply Hdom2. rewrite Ht1.
      by rewrite lookup_insert_ne.
  - intros Hpos. apply map_Forall_insert_2.
    + simpl. assert (1 <= GetVisitedTime r); [|lia].
      refine (Hpos2 _ b r Hr2). rewrite Ht1.
      apply map_Forall_insert_2; [|done]. simpl. apply (Hpos b r0 Hr).
    + apply Hpos2. rewrite Ht1. apply map_Forall_insert_2; [|done].
      simpl. apply (Hpos b r0 Hr).
Qed.

(** *** The worker loop *)

Lemma search_playouts fuel depth (p : UctPlayer) b thread_index :
  forall s u s',
  SearchAndModifyNodes fuel depth p b thread_index s = Done (u, s') ->
  exists new, trace s' = trace s ++ new
              /\ Forall (fun g => mc_seed g = seed_ p) (playouts new).
Proof.
  induction fuel as [|fuel IH]; intros s u s' Hs; [done|].
  cbn [SearchAndModifyNodes] in Hs.
  unfold mbind at 1, M_bind at 1, counter in Hs.
  destruct (mc_game_count s <? mc_game_count_per_move_ p).
  - apply M_bind_inv in Hs as (m & s1 & Hm & Hs).
    apply M_bind_inv in Hs as (x & s2 & Hv & Hs).
    apply MaxUcbChild_inv in Hm as [_ ->].
    apply visit_effects in Hv as ((new2 & Htr2 & Hseed2) & _).
    apply IH in Hs as (new3 & Htr3 & Hseed3).
    cbn [trace] in Htr2.
    exists ([EvLock; EvUnlock] ++ new2 ++ new3). split.
    + rewrite Htr3, Htr2, <- !app_assoc. reflexivity.
    + rewrite !playouts_app. simpl. apply Forall_app. done.
  - injection Hs as <- <-. exists []. rewrite app_nil_r. split; [done|constructor].
Qed.

(** C10: every playout built during a worker's search, whatever the worker
    and the iteration, carries the seed the player was constructed with;
    hence two playouts built from equal boards are the same playout and run
    to the same result. *)
Theorem playouts_carry_the_constructor_seed fuel depth
    (seed mc_game_count_per_move thread_count : Z) b thread_index s s' :
  SearchAndModifyNodes fuel depth
    (UctPlayer_new seed mc_game_count_per_move thread_count) b thread_index s
  = Done (tt, s') ->
  exists new,
    trace s' = trace s ++ new
    /\ Forall (fun g => mc_seed g = seed) (playouts new)
    /\ forall g1 g2,
         g1 ∈ playouts new -> g2 ∈ playouts new ->
         GetFullBoard g1 = GetFullBoard g2 ->
         g1 = g2 /\ Run g1 = Run g2.
Proof.
  intros Hs. apply search_playouts in Hs as (new & Htr & Hseed).
  cbn [seed_ UctPlayer_new] in Hseed.
  exists new. split; [done|]. split; [done|].
  intros g1 g2 H1 H2 Hb. rewrite Forall_forall in Hseed.
  assert (g1 = g2) as ->; [|done].
  destruct g1 as [b1 sd1], g2 as [b2 sd2].
  pose proof (Hseed _ H1) as E1. pose proof (Hseed _ H2) as E2.
  simpl in *. congruence.
Qed.

End SearchTheorems.

Section RootChildren.

Context {FullBoard : Type} `{Countable FullBoard}.
Context `{!BoardOps FullBoard} `{!PlayoutOps FullBoard} `{!Libm}.

Implicit Types (t : gmap FullBoard NodeRecord) (b : FullBoard) (s : State FullBoard).

Lemma count_children_inv t b l : forall (sum : Z) n (sum' : Z) n',
  count_children t b l sum n = Done (sum', n') ->
  n' = n ++ filter (fun i => GetChild t b i = None) l.
Proof.
  induction l as [|i l IH]; intros s n s' n'; cbn [count_children].
  - intros [= <- <-]. by rewrite app_nil_r.
  - destruct (GetChild t b i) as [r|] eqn:E.
    + rewrite filter_cons_False by congruence.
      destruct n as [|n0 n]; [|apply IH].
      destruct (int_add s (GetVisitedTime r)) as [s1|f]; [|done].
      apply IH.
    + rewrite filter_cons_True by done. intros Hc. apply IH in Hc.
      by rewrite Hc, <- app_assoc.
Qed.

(** With a single worker, the move returned while some child has no record
    is the first such child. *)
Lemma MaxUcbChild_single_worker (p : UctPlayer) t b m u0 us :
  thread_count_ p = 1 ->
  unknown_children t b = u0 :: us ->
  MaxUcbChild_locked p t b 0 = Done m ->
  m = u0.
Proof.
  intros Htc Hu. unfold MaxUcbChild_locked. fold (legal_moves b).
  destruct (legal_moves b) as [|i0 l0] eqn:El; [done|]. rewrite <- El.
  destruct (count_children t b (legal_moves b) 0 []) as [[sum nulls]|f] eqn:Ec;
    [|done].
  apply count_children_inv in Ec. simpl in Ec.
  fold (unknown_children t b) in Ec. rewrite Hu in Ec. subst nulls.
  change (Done (sum, u0 :: us) ≫= ?k) with (k (sum, u0 :: us)). cbv beta iota.
  rewrite Htc. vm_compute. by intros [= ->].
Qed.

Lemma filter_length_lt {A} (P Q : A -> Prop)
    `{!forall x, Decision (P x)} `{!forall x, Decision (Q x)} (l : list A) x :
  (forall y, Q y -> P y) -> x ∈ l -> P x -> ~ Q x ->
  (length (filter Q l) < length (filter P l))%nat.
Proof.
  intros HQP Hx HPx HQx. induction l as [|y l IH]; [by apply elem_of_nil in Hx|].
  assert (Hle : (length (filter Q l) <= length (filter P l))%nat).
  { clear -HQP. induction l as [|z l IH]; [done|].
    rewrite !filter_cons. destruct (decide (Q z)) as [Hq|Hq].
    - rewrite decide_True by auto. simpl. lia.
    - destruct (decide (P z)); simpl; lia. }
  rewrite !filter_cons.
  apply elem_of_cons in Hx as [<-|Hx].
  - destruct (decide (Q x)); [done|]. destruct (decide (P x)); [|done].
    simpl. lia.
  - specialize (IH Hx). destruct (decide (Q y)) as [Hq|Hq].
    + rewrite decide_True by auto. simpl. lia.
    + destruct (decide (P y)); simpl; lia.
Qed.

Lemma unknown_children_nil_mono t t' b :
  (forall k, is_Some (t !! k) -> is_Some (t' !! k)) ->
  unknown_children t b = [] -> unknown_children t' b = [].
Proof.
  unfold unknown_children, GetChild, Get. intros Hdom Hnil.
  induction (legal_moves b) as [|i l IH]; [done|].
  rewrite filter_cons in Hnil. destruct (decide (t !! Play b i = None)) as [|Hn]; [done|].
  rewrite filter_cons_False; [by apply IH|].
  destruct (t !! Play b i) as [r|] eqn:E; [|done].
  destruct (Hdom (Play b i)) as [r' Hr']; [by rewrite E|]. congruence.
Qed.

Lemma unknown_children_insert t b u0 us r :
  unknown_children t b = u0 :: us ->
  (length (unknown_children (<[Play b u0 := r]> t) b)
   < length (unknown_children t b))%nat.
Proof.
  intros Hu. unfold unknown_children.
  assert (Hin : u0 ∈ unknown_children t b) by (rewrite Hu; by left).
  unfold unknown_children in Hin. apply list_elem_of_filter in Hin as [Hnone Hin].
  apply (filter_length_lt _ _ _ u0); auto.
  - unfold GetChild, Get. intros y Hy.
    destruct (decide (Play b u0 = Play b y)) as [E|E].
    + rewrite E, lookup_insert_eq in Hy. done.
    + by rewrite lookup_insert_ne in Hy.
  - unfold GetChild, Get. by rewrite lookup_insert_eq.
Qed.

Lemma search_covers_root fuel depth (p : UctPlayer) b :
  thread_count_ p = 1 ->
  mc_game_count_per_move_ p <= CInt.INT_MAX ->
  forall s u s',
  root_progress p b s ->
  SearchAndModifyNodes fuel depth p b 0 s = Done (u, s') ->
  root_progress p b s' /\ mc_game_count_per_move_ p <= mc_game_count s'.
Proof.
  intros Htc Htarget.
  induction fuel as [|fuel IH]; intros s u s' Hinv Hs; [done|].
  cbn [SearchAndModifyNodes] in Hs.
  unfold mbind at 1, M_bind at 1, counter in Hs.
  destruct (mc_game_count s <? mc_game_count_per_move_ p) eqn:Ec.
  2:{ injection Hs as <- <-. apply Z.ltb_ge in Ec. done. }
  apply Z.ltb_lt in Ec.
  apply M_bind_inv in Hs as (m & s1 & Hm & Hs).
  apply M_bind_inv in Hs as (x & s2 & Hv & Hs).
  apply MaxUcbChild_inv in Hm as [Hm ->].
  apply IH in Hs; [done|].
  destruct Hinv as (Hpos & Hc0 & Hunk).
  assert (Hwrap : CInt.wrap (mc_game_count s + 1) = mc_game_count s + 1).
  { apply wrap_in_range, in_range_iff. unfold CInt.INT_MIN, CInt.INT_MAX in *. lia. }
  destruct (unknown_children (transposition_table_ s) b) as [|u0 us] eqn:Eu.
  - apply visit_effects in Hv as (_ & Hc2 & Hdom & Hpos2).
    cbn [transposition_table_ mc_game_count trace] in *.
    split; [by apply Hpos2|]. split; [lia|]. left.
    by apply (unknown_children_nil_mono (transposition_table_ s)).
  - pose proof (MaxUcbChild_single_worker _ _ _ _ _ _ Htc Eu Hm) as ->.
    assert (Hnone : Get (transposition_table_ s) (Play b u0) = None).
    { assert (Hin : u0 ∈ unknown_children (transposition_table_ s) b)
        by (rewrite Eu; by left).
      unfold unknown_children in Hin. by apply list_elem_of_filter in Hin as [? _]. }
    destruct depth as [|depth]; [done|].
    rewrite visit_absent_eq in Hv by done. injection Hv as _ <-.
    unfold root_progress. cbn [transposition_table_ mc_game_count trace].
    split; [|split; [lia|]].
    + apply map_Forall_insert_2; [simpl; lia|done].
    + right. rewrite Hwrap.
      pose proof (unknown_children_insert (transposition_table_ s) b u0 us
        (MkNodeRecord 1
           (GetRegionRatio
              (GetFullBoard
                 (if IsEnd (Play b u0)
                  then MkMonteCarloGame (Play b u0) (seed_ p)
                  else Run (MkMonteCarloGame (Play b u0) (seed_ p))))
              (LastForce (Play b u0))) false) Eu) as Hlt.
      destruct Hunk as [Hunk|Hunk]; [done|].
      rewrite Eu in Hlt. lia.
Qed.

(** C4: in a search with a single worker whose playout target is at least
    the number of legal root moves (the counter starts at zero and the
    records the table already holds have been visited at least once), when
    the worker loop has finished every legal root move has a child record
    with at least one visit: that is the table [BestChild] is called on. *)
Theorem single_worker_search_visits_every_root_child fuel depth
    (p : UctPlayer) t b s' :
  legal_moves b <> [] ->
  thread_count_ p = 1 ->
  Z.of_nat (length (legal_moves b)) <= mc_game_count_per_move_ p <= CInt.INT_MAX ->
  map_Forall (fun _ r => 1 <= GetVisitedTime r) t ->
  SearchAndModifyNodes fuel depth p b 0 (MkState t 0 []) = Done (tt, s') ->
  Forall (fun m => exists r, GetChild (transposition_table_ s') b m = Some r
                             /\ 1 <= GetVisitedTime r)
    (legal_moves b).
Proof.
  intros _ Htc [Hn Htarget] Hpos Hs.
  apply search_covers_root in Hs as [(Hpos' & Hc & Hunk) Hdone]; try done.
  2:{ split; [done|]. split; [done|]. right.
      cbn [transposition_table_ mc_game_count].
      unfold unknown_children.
      pose proof (length_filter (fun i => GetChild t b i = None) (legal_moves b)).
      lia. }
  assert (Hnil : unknown_children (transposition_table_ s') b = []).
  { destruct Hunk as [|Hunk]; [done|].
    destruct (unknown_children (transposition_table_ s') b); [done|].
    simpl in Hunk. lia. }
  apply Forall_forall. intros m Hm.
  destruct (GetChild (transposition_table_ s') b m) as [r|] eqn:E.
  - exists r. split; [done|]. apply (Hpos' _ _ E).
  - exfalso. assert (Hin : m ∈ unknown_children (transposition_table_ s') b).
    { unfold unknown_children. by apply list_elem_of_filter. }
    rewrite Hnil in Hin. by apply elem_of_nil in Hin.
Qed.

End RootChildren.

Section ProfitRange.

Context {FullBoard : Type} `{Countable FullBoard}.
Context `{!BoardOps FullBoard} `{!PlayoutOps FullBoard} `{!Libm}.

Implicit Types (t : gmap FullBoard NodeRecord) (b : FullBoard) (s : State FullBoard).

(** The contract of the board: the black region is a number of points of
    the board, and the number of points fits an [int]. *)
Hypothesis region_bounds : forall board, 0 <= BlackRegion board <= BoardLenSquare.
Hypothesis board_size : 1 <= BoardLenSquare <= CInt.INT_MAX.

Lemma GetRegionRatio_unit board force : unit_float (GetRegionRatio board force).
Proof.
  unfold GetRegionRatio.
  assert (Hr : unit_float (F32.div (F32.of_int (BlackRegion board))
                             (F32.of_int BoardLenSquare))).
  { apply region_ratio_unit; [apply region_bounds|].
    unfold CInt.INT_MAX in board_size. change (2 ^ 31) with 2147483648. lia. }
  destruct force; [done|].
  change (F32.of_int 1) with F32.one. by apply sub_one_unit.
Qed.

Lemma writes_ok_app (tr1 tr2 : list (Event FullBoard)) :
  writes_ok tr1 -> writes_ok tr2 -> writes_ok (tr1 ++ tr2).
Proof. unfold writes_ok. intros. by apply Forall_app. Qed.

Lemma visit_profits fuel (p : UctPlayer) : forall b thread_index s x s',
  ModifyAverageProfitAndReturnNewProfit fuel p b thread_index s = Done (x, s') ->
  profits_ok (transposition_table_ s) ->
  profits_ok (transposition_table_ s')
  /\ unit_float x
  /\ exists new, trace s' = trace s ++ new /\ writes_ok new.
Proof.
  induction fuel as [|fuel IH]; intros b idx s x s' Hv Hok; [done|].
  destruct (Get (transposition_table_ s) b) as [r0|] eqn:Hr.
  2:{ rewrite (visit_absent_eq fuel p b idx s Hr) in Hv. injection Hv as <- <-.
      cbn [transposition_table_ mc_game_count trace].
      pose proof (GetRegionRatio_unit
        (GetFullBoard (if IsEnd b then MkMonteCarloGame b (seed_ p)
                       else Run (MkMonteCarloGame b (seed_ p))))
        (LastForce b)) as Hu.
      split; [|split; [done|]].
      - apply map_Forall_insert_2; [|done]. simpl. split; [done|lia].
      - eexists. split; [reflexivity|].
        apply Forall_cons. split; [exact I|].
        apply Forall_cons. split; [exact Hu|constructor]. }
  pose proof (Hok b r0 Hr) as [Hr0u Hr0v]. cbn beta in Hr0u, Hr0v.
  destruct (IsEnd b) eqn:Hend.
  { pose proof (visit_terminal_inv _ _ _ _ _ _ _ _ Hr Hend Hv) as Hrange.
    rewrite (visit_terminal_eq fuel p b idx s r0 Hr Hend) in Hv by done.
    injection Hv as <- <-. cbn [transposition_table_ mc_game_count trace].
    split; [|split; [done|]].
    - apply map_Forall_insert_2; [|done]. simpl. split; [done|lia].
    - eexists. split; [reflexivity|]. unfold writes_ok.
      repeat (apply Forall_cons; split; [exact I|]). constructor. }
  destruct (visit_present_inv _ _ _ _ _ _ _ _ Hr Hend Hv)
    as (next & s1 & child & s2 & r & Hd & Hrec & Hr2 & Hrange & -> & ->).
  apply descend_inv in Hd as (Ht1 & Hc1 & Htr1 & _).
  apply IH in Hrec as (Hok2 & Hchild & new2 & Htr2 & Hw2).
  2:{ rewrite Ht1. unfold marked. cbn [transposition_table_].
      apply map_Forall_insert_2; [|done]. simpl. done. }
  pose proof (Hok2 b r Hr2) as [Hru Hrv]. cbn beta in Hru, Hrv.
  pose proof (sub_one_unit child Hchild) as Hx.
  pose proof (update_unit (GetAverageProfit r) (F32.sub F32.one child)
                (GetVisitedTime r) Hru Hx Hrv ltac:(lia)) as Hupd.
  unfold updated, marked in *. cbn [transposition_table_ mc_game_count trace] in *.
  split; [|split; [done|]].
  - apply map_Forall_insert_2; [|done]. simpl. split; [done|lia].
  - assert (Hlast : writes_ok
      [EvSetAverageProfit b
         (F32.div
            (F32.add (F32.mul (GetAverageProfit r) (F32.of_int (GetVisitedTime r)))
               (F32.sub F32.one child))
            (F32.of_int (GetVisitedTime r + 1)));
       EvSetVisitedTimes b (GetVisitedTime r + 1);
       EvLock; EvSetIsInSearch b false; @EvUnlock FullBoard]).
    { apply Forall_cons. split; [exact Hupd|].
      repeat (apply Forall_cons; split; [exact I|]). constructor. }
    destruct Htr1 as [Htr1|Htr1]; rewrite Htr2, Htr1; eexists;
      (split; [rewrite <- !app_assoc; reflexivity|]);
      repeat apply writes_ok_app; try done; unfold writes_ok;
      repeat (apply Forall_cons; split; [exact I|]); constructor.
Qed.

Lemma search_profits fuel depth (p : UctPlayer) b thread_index :
  forall s u s',
  SearchAndModifyNodes fuel depth p b thread_index s = Done (u, s') ->
  profits_ok (transposition_table_ s) ->
  profits_ok (transposition_table_ s')
  /\ exists new, trace s' = trace s ++ new /\ writes_ok new.
Proof.
  induction fuel as [|fuel IH]; intros s u s' Hs Hok; [done|].
  cbn [SearchAndModifyNodes] in Hs.
  unfold mbind at 1, M_bind at 1, counter in Hs.
  destruct (mc_game_count s <? mc_game_count_per_move_ p).
  - apply M_bind_inv in Hs as (m & s1 & Hm & Hs).
    apply M_bind_inv in Hs as (x & s2 & Hv & Hs).
    apply MaxUcbChild_inv in Hm as [_ ->].
    apply visit_profits in Hv as (Hok2 & _ & new2 & Htr2 & Hw2); [|done].
    apply IH in Hs as (Hok3 & new3 & Htr3 & Hw3); [|done].
    cbn [trace] in Htr2. split; [done|].
    exists ([EvLock; EvUnlock] ++ new2 ++ new3). split.
    + rewrite Htr3, Htr2, <- !app_assoc. reflexivity.
    + repeat apply writes_ok_app; try done; unfold writes_ok;
      repeat (apply Forall_cons; split; [exact I|]); constructor.
  - injection Hs as <- <-. split; [done|].
    exists []. rewrite app_nil_r. split; [done|constructor].
Qed.

(** X21: in a worker's search (run on its own), if every record of the table
    starts with an average in [0, 1] (and at least one visit), then every
    average the search writes, at an insertion or at an update, is in
    [0, 1], and so is every average of the table when the search ends.  The
    board's black region is assumed to lie between 0 and the number of
    points. *)
Theorem average_profit_stays_in_unit_interval fuel depth (p : UctPlayer)
    b thread_index s s' :
  profits_ok (transposition_table_ s) ->
  SearchAndModifyNodes fuel depth p b thread_index s = Done (tt, s') ->
  map_Forall (fun _ r => F32.le F32.zero (GetAverageProfit r) = true
                         /\ F32.le (GetAverageProfit r) F32.one = true)
    (transposition_table_ s')
  /\ exists new,
       trace s' = trace s ++ new
       /\ Forall (fun ev =>
                    match ev with
                    | EvInsert _ r =>
                        F32.le F32.zero (GetAverageProfit r) = true
                        /\ F32.le (GetAverageProfit r) F32.one = true
                    | EvSetAverageProfit _ x =>
                        F32.le F32.zero x = true /\ F32.le x F32.one = true
                    | _ => True
                    end) new.
Proof.
  intros Hok Hs.
  apply search_profits in Hs as (Hok' & new & Htr & Hw); [|done].
  split.
  - intros k r Hk. destruct (Hok' k r Hk) as [(_ & Hlo & Hhi) _]. done.
  - exists new. split; [done|].
    eapply Forall_impl; [exact Hw|]. intros ev Hev.
    destruct ev; try done; destruct Hev as (_ & Hlo & Hhi); done.
Qed.

End ProfitRange.

(** ** The theorems on the small board *)

Section OnTheSmallBoard.

Import Toy.

Ltac decide_by_computation := compute_done.

(** C1, as stated, fails: with four workers and the unknown children
    [1; 3] of the empty board, worker 3 gets child 1, the head of the list,
    where [unknown[3 mod 2]] is child 3. *)
Lemma MaxUcbChild_not_modulo_unknown :
  unknown_children table02 [] = [1; 3]
  /\ MaxUcbChild_locked player4 table02 [] 3 = Done 1
  /\ ~ (exists m,
         unknown_children table02 []
         !! Z.to_nat (3 mod Z.of_nat (length (unknown_children table02 [])))
         = Some m
         /\ MaxUcbChild_locked player4 table02 [] 3 = Done m).
Proof.
  split; [vm_compute; reflexivity|]. split; [vm_compute; reflexivity|].
  intros (m & Hm & Hr). vm_compute in Hm, Hr. congruence.
Qed.

Lemma MaxUcbChild_unknown_choice_witness :
  exists m,
    MaxUcbChild_locked player4 table02 [] 3 = Done m
    /\ unknown_children table02 []
       !! Z.to_nat (let index := Z.rem 3 (thread_count_ player4) in
                    if index <? Z.of_nat (length (unknown_children table02 []))
                    then index else 0)
       = Some m.
Proof.
  apply (MaxUcbChild_unknown_choice player4 table02 [] 3).
  - unfold CInt.INT_MAX. lia.
  - reflexivity.
  - decide_by_computation.
  - vm_compute. discriminate.
  - vm_compute. discriminate.
Defined.

Lemma BestChild_first_most_visited_witness :
  exists m pre post,
    BestChild table0123 [] = Done m
    /\ legal_moves [] = pre ++ m :: post
    /\ Forall (fun j => child_visits table0123 [] j < child_visits table0123 [] m) pre
    /\ Forall (fun j => child_visits table0123 [] j <= child_visits table0123 [] m) post.
Proof.
  apply (BestChild_first_most_visited table0123 []).
  - vm_compute. discriminate.
  - decide_by_computation.
  - decide_by_computation.
Defined.

Lemma small_board_log_nonneg n :
  1 <= n <= CInt.INT_MAX -> zero_le (log (F64.of_int n)).
Proof.
  intros Hn. destruct (F64_of_int_finite n ltac:(lia)) as (m & e & ->).
  cbn [log libm]. apply binary_normalize_zero_le. lia.
Qed.

Lemma MaxUcbChild_known_choice_witness :
  exists m,
    MaxUcbChild_locked player4 table0123 [] 1 = Done m
    /\ match selectable_children table0123 [] with
       | [] => m = POSITION_INDEX_PASS
       | _ :: _ =>
           exists pre post,
             selectable_children table0123 [] = pre ++ m :: post
             /\ Forall (fun j => F32.gt (child_ucb table0123 [] m)
                                   (child_ucb table0123 [] j) = true) pre
             /\ Forall (fun j => F32.gt (child_ucb table0123 [] j)
                                   (child_ucb table0123 [] m) = false) post
       end
    /\ (selectable_children table0123 [] = [] \/
        (m ∈ legal_moves []
         /\ IsSuicide [] (MkMove (NextForce []) m) = false
         /\ exists r, GetChild table0123 [] m = Some r /\ IsInSearch r = false)).
Proof.
  apply (MaxUcbChild_known_choice player4 table0123 [] 1).
  - vm_compute. discriminate.
  - decide_by_computation.
  - decide_by_computation.
  - vm_compute. discriminate.
  - repeat (apply Forall_cons; split;
            [intros r Hr; vm_compute in Hr; injection Hr as <-; reflexivity|]).
    constructor.
  - exact small_board_log_nonneg.
Defined.

(** C2, as stated, fails: the visit of a full board that has a record with
    one visit leaves the record with two. *)
Lemma terminal_visit_counts_the_visit :
  IsEnd full = true
  /\ GetVisitedTime <$> Get table_full full = Some 1
  /\ exists x s',
       ModifyAverageProfitAndReturnNewProfit 1 player1 full 0
         (MkState table_full 0 []) = Done (x, s')
       /\ GetVisitedTime <$> Get (transposition_table_ s') full = Some 2.
Proof.
  split; [reflexivity|]. split; [vm_compute; reflexivity|].
  eexists _, _. split; [vm_compute; reflexivity|]. vm_compute. reflexivity.
Qed.

Lemma visit_terminal_record_witness :
  ModifyAverageProfitAndReturnNewProfit 1 player1 full 0 (MkState table_full 0 [])
  = Done (half,
          MkState (<[full := MkNodeRecord 2 half false]> table_full) 1
            [EvLock; EvSetIsInSearch full true; EvUnlock;
             EvSetVisitedTimes full 2;
             EvLock; EvSetIsInSearch full false; EvUnlock]).
Proof.
  apply (visit_terminal_record 0 player1 full 0 (MkState table_full 0 [])
           (MkNodeRecord 1 half false)).
  - vm_compute. reflexivity.
  - reflexivity.
  - unfold CInt.INT_MIN, CInt.INT_MAX. simpl. lia.
Defined.

Lemma visit_absent_record_witness :
  let s := MkState table02 0 [] in
  let b := [1] in
  let game := MkMonteCarloGame b (seed_ player1) in
  let final := GetFullBoard (if IsEnd b then game else Run game) in
  let black_ratio :=
    F32.div (F32.of_int (BlackRegion final)) (F32.of_int (BOARD_LEN * BOARD_LEN)) in
  let profit :=
    match LastForce b with
    | BLACK_FORCE => black_ratio
    | WHITE_FORCE => F32.sub F32.one black_ratio
    end in
  ModifyAverageProfitAndReturnNewProfit 1 player1 b 0 s
  = Done (profit,
          MkState (<[b := MkNodeRecord 1 profit false]> (transposition_table_ s))
            (CInt.wrap (mc_game_count s + 1))
            (trace s ++ [EvMonteCarloGame game;
                         EvInsert b (MkNodeRecord 1 profit false)]))
  /\ (CInt.INT_MIN <= mc_game_count s < CInt.INT_MAX ->
      CInt.wrap (mc_game_count s + 1) = mc_game_count s + 1).
Proof.
  apply (visit_absent_record 0 player1 [1] 0 (MkState table02 0 [])).
  vm_compute. reflexivity.
Defined.

Lemma visit_update_law_witness :
  exists s',
    ModifyAverageProfitAndReturnNewProfit 2 player1 [0] 0 (MkState table02 0 [])
    = Done (half, s')
    /\ Get (transposition_table_ s') [0] = Some (MkNodeRecord 3 half false).
Proof.
  eexists. split.
  - eapply (visit_update_law 1 player1 [0] 0 (MkState table02 0 [])
              (MkNodeRecord 2 half false) [1; 0] _ half _
              (MkNodeRecord 2 half true)).
    + vm_compute. reflexivity.
    + reflexivity.
    + vm_compute. reflexivity.
    + vm_compute. reflexivity.
    + vm_compute. reflexivity.
    + unfold CInt.INT_MIN, CInt.INT_MAX. simpl. lia.
  - vm_compute. reflexivity.
Defined.

Lemma single_worker_search_visits_every_root_child_witness :
  exists s',
    SearchAndModifyNodes 10 10 player1 [] 0 (MkState ∅ 0 []) = Done (tt, s')
    /\ Forall (fun m => exists r, GetChild (transposition_table_ s') [] m = Some r
                                  /\ 1 <= GetVisitedTime r)
         (legal_moves []).
Proof.
  eexists. split; [vm_compute; reflexivity|].
  apply (single_worker_search_visits_every_root_child 10 10 player1 ∅ []).
  - vm_compute. discriminate.
  - reflexivity.
  - unfold CInt.INT_MAX. simpl. split; [|lia]. vm_compute. discriminate.
  - apply map_Forall_empty.
  - vm_compute. reflexivity.
Defined.

Lemma playouts_carry_the_constructor_seed_witness :
  exists s' new,
    SearchAndModifyNodes 10 10 (UctPlayer_new 1 6 1) [] 0 (MkState ∅ 0 [])
    = Done (tt, s')
    /\ trace s' = [] ++ new
    /\ Forall (fun g => mc_seed g = 1) (playouts new)
    /\ forall g1 g2,
         g1 ∈ playouts new -> g2 ∈ playouts new ->
         GetFullBoard g1 = GetFullBoard g2 ->
         g1 = g2 /\ Run g1 = Run g2.
Proof.
  eexists.
  assert (Hrun : SearchAndModifyNodes 10 10 (UctPlayer_new 1 6 1) [] 0
                   (MkState ∅ 0 []) = Done (tt, ?[s'])) by (vm_compute; reflexivity).
  destruct (playouts_carry_the_constructor_seed 10 10 1 6 1 [] 0 _ _ Hrun)
    as (new & Htr & Hseed & Hsame).
  exists new. split; [exact Hrun|]. split; [exact Htr|]. split; [exact Hseed|exact Hsame].
Defined.

Lemma small_board_region_bounds (board : Board) :
  0 <= BlackRegion board <= BoardLenSquare.
Proof.
  change (0 <= black_region board <= 4). unfold black_region.
  pose proof (List.filter_length_le
                (fun i => black_played i (rev board) true) points) as Hle.
  change (length points) with 4%nat in Hle. lia.
Qed.

Lemma average_profit_stays_in_unit_interval_witness :
  exists s',
    SearchAndModifyNodes 10 10 player1 [] 0 (MkState ∅ 0 []) = Done (tt, s')
    /\ map_Forall (fun _ r => F32.le F32.zero (GetAverageProfit r) = true
                              /\ F32.le (GetAverageProfit r) F32.one = true)
         (transposition_table_ s')
    /\ exists new,
         trace s' = [] ++ new
         /\ Forall (fun ev =>
                      match ev with
                      | EvInsert _ r =>
                          F32.le F32.zero (GetAverageProfit r) = true
                          /\ F32.le (GetAverageProfit r) F32.one = true
                      | EvSetAverageProfit _ x =>
                          F32.le F32.zero x = true /\ F32.le x F32.one = true
                      | _ => True
                      end) new.
Proof.
  eexists. split; [vm_compute; reflexivity|].
  refine (average_profit_stays_in_unit_interval small_board_region_bounds _
            10 10 player1 [] 0 (MkState ∅ 0 []) _ _ _).
  - vm_compute. split; discriminate.
  - apply map_Forall_empty.
  - vm_compute. reflexivity.
Defined.

(** C3 fails on the code: the insertion of a new record, and the writes of
    the visit count and of the average, are logged outside any
    lock/unlock pair; only the in-search flag is written under the mutex. *)
Lemma insertion_and_updates_outside_the_mutex :
  (exists x s',
     ModifyAverageProfitAndReturnNewProfit 1 player1 [1] 0 (MkState table02 0 [])
     = Done (x, s')
     /\ trace s' = [EvMonteCarloGame (MkMonteCarloGame [1] 1);
                    EvInsert [1] (MkNodeRecord 1 half false)]
     /\ mutations_under_mutex false (trace s') = false)
  /\ (exists x s',
        ModifyAverageProfitAndReturnNewProfit 2 player1 [0] 0 (MkState table02 0 [])
        = Done (x, s')
        /\ trace s' = [EvLock; EvSetIsInSearch [0] true; EvUnlock;
                       EvLock; EvUnlock;
                       EvMonteCarloGame (MkMonteCarloGame [1; 0] 1);
                       EvInsert [1; 0] (MkNodeRecord 1 half false);
                       EvSetAverageProfit [0] half;
                       EvSetVisitedTimes [0] 3;
                       EvLock; EvSetIsInSearch [0] false; EvUnlock]
        /\ mutations_under_mutex false (trace s') = false).
Proof.
  split.
  - eexists _, _. split; [vm_compute; reflexivity|]. split; vm_compute; reflexivity.
  - eexists _, _. split; [vm_compute; reflexivity|]. split; vm_compute; reflexivity.
Qed.

End OnTheSmallBoard.

(** ** More on the two selection routines *)

Section SelectionEdges.

Context {FullBoard : Type} `{Countable FullBoard}.
Context `{!BoardOps FullBoard} `{!PlayoutOps FullBoard} `{!Libm}.

Implicit Types (t : gmap FullBoard NodeRecord) (b : FullBoard).

(** *** How [MaxUcbChild] can fail *)

Lemma count_children_Abort t b l : forall (sum : Z) n f,
  count_children t b l sum n = Abort f -> f = UndefinedBehaviour.
Proof.
  induction l as [|i l IH]; intros sum n f; cbn [count_children]; [done|].
  destruct (GetChild t b i) as [r|]; [|apply IH].
  destruct n as [|n0 n]; [|apply IH].
  unfold int_add. destruct (CInt.in_range (sum + GetVisitedTime r)).
  - apply IH.
  - by intros [= <-].
Qed.

Lemma select_max_ucb_Abort t b sum l : forall max_ucb max_ucb_index f,
  select_max_ucb t b sum l max_ucb max_ucb_index = Abort f ->
  f = AssertionFailure.
Proof.
  induction l as [|i l IH]; intros mx idx f; cbn [select_max_ucb]; [done|].
  destruct (GetChild t b i) as [r|]; [|apply IH].
  destruct (IsInSearch r); [apply IH|].
  unfold Ucb. destruct (GetVisitedTime r >? 0).
  - change (Done ?x ≫= ?k) with (k x). cbv beta.
    destruct (_ && _); apply IH.
  - by intros [= <-].
Qed.

Lemma int_rem_Abort a c f : int_rem a c = Abort f -> f = UndefinedBehaviour.
Proof.
  unfold int_rem. destruct (c =? 0); [by intros [= <-]|].
  destruct (_ && _); [by intros [= <-]|done].
Qed.

(** The two calls of [null_indexes.at] stay inside the vector. *)
Lemma null_indexes_at {A} (null_indexes : list A) (index : Z) :
  null_indexes <> [] ->
  exists x,
    (if CInt.to_size_t index <? Z.of_nat (length null_indexes)
     then vector_at null_indexes index
     else vector_at null_indexes
            (if CInt.to_size_t index <? Z.of_nat (length null_indexes)
             then index else 0)) = Done x
    /\ null_indexes
       !! Z.to_nat (if CInt.to_size_t index <? Z.of_nat (length null_indexes)
                    then CInt.to_size_t index else 0) = Some x.
Proof.
  intros Hne.
  assert (Hnn : 0 <= CInt.to_size_t index)
    by (unfold CInt.to_size_t; apply Z.mod_pos_bound; lia).
  destruct (CInt.to_size_t index <? Z.of_nat (length null_indexes)) eqn:E.
  - apply Z.ltb_lt in E. unfold vector_at.
    destruct (lookup_lt_is_Some_2 null_indexes
                (Z.to_nat (CInt.to_size_t index))) as [x Hx]; [lia|].
    exists x. by rewrite Hx.
  - destruct null_indexes as [|x rest]; [done|]. exists x.
    split; reflexivity.
Qed.

(** X1: whatever the table, the board and the worker index,
    [MaxUcbChild] never leaves [null_indexes.at] with an out-of-range
    exception: when it does not return a move it stops at an assertion (no
    playable move, or a record without visits handed to [Ucb]) or at
    undefined behaviour of [int] arithmetic (the sum of the visits, the
    remainder by [thread_count_]). *)
Theorem MaxUcbChild_fails_only_on_assert_or_arithmetic
    (p : UctPlayer) t b thread_index f :
  MaxUcbChild_locked p t b thread_index = Abort f ->
  f = AssertionFailure \/ f = UndefinedBehaviour.
Proof.
  unfold MaxUcbChild_locked. fold (legal_moves b).
  destruct (legal_moves b) as [|i0 l0] eqn:El; [intros [= <-]; by left|].
  rewrite <- El.
  destruct (count_children t b (legal_moves b) 0 []) as [[sum nulls]|f'] eqn:Ec.
  2:{ intros [= <-]. right. by apply count_children_Abort in Ec. }
  change (Done (sum, nulls) ≫= ?k) with (k (sum, nulls)). cbv beta iota.
  destruct nulls as [|n0 ns].
  { intros Hs. left. by apply select_max_ucb_Abort in Hs. }
  destruct (int_rem thread_index (thread_count_ p)) as [index|f'] eqn:Er.
  2:{ intros [= <-]. right. by apply int_rem_Abort in Er. }
  change (Done index ≫= ?k) with (k index). cbv beta.
  destruct (null_indexes_at (n0 :: ns) index ltac:(done)) as (x & -> & _).
  done.
Qed.

(** *** What [MaxUcbChild] can return *)

Lemma select_max_ucb_range t b sum l : forall max_ucb max_ucb_index m,
  select_max_ucb t b sum l max_ucb max_ucb_index = Done m ->
  m = max_ucb_index \/ (m ∈ l /\ selectable t b m = true).
Proof.
  induction l as [|i l IH]; intros mx idx m; cbn [select_max_ucb].
  { intros [= <-]. by left. }
  assert (Hrest : forall mx' idx',
    select_max_ucb t b sum l mx' idx' = Done m ->
    idx' = idx \/ (idx' = i /\ selectable t b i = true) ->
    m = idx \/ (m ∈ i :: l /\ selectable t b m = true)).
  { intros mx' idx' Hs Hidx. apply IH in Hs as [->|[Hm Hsel]].
    - destruct Hidx as [->|[-> Hsel]]; [by left|].
      right. split; [by left|done].
    - right. split; [by right|done]. }
  destruct (GetChild t b i) as [r|] eqn:E.
  2:{ intros Hs. apply (Hrest _ _ Hs). by left. }
  destruct (IsInSearch r) eqn:Es.
  { intros Hs. apply (Hrest _ _ Hs). by left. }
  unfold Ucb. destruct (GetVisitedTime r >? 0); [|done].
  change (Done ?x ≫= ?k) with (k x). cbv beta.
  destruct (IsSuicide b (MkMove (NextForce b) i)) eqn:Esu.
  { rewrite andb_false_r. intros Hs. apply (Hrest _ _ Hs). by left. }
  rewrite andb_true_r.
  destruct (F32.gt (ucb_value r sum) mx); intros Hs; apply (Hrest _ _ Hs).
  - right. split; [done|]. unfold selectable. by rewrite E, Es, Esu.
  - by left.
Qed.

Lemma MaxUcbChild_locked_range (p : UctPlayer) t b thread_index m :
  MaxUcbChild_locked p t b thread_index = Done m ->
  m ∈ unknown_children t b
  \/ (unknown_children t b = []
      /\ (m = POSITION_INDEX_PASS \/ m ∈ selectable_children t b)).
Proof.
  unfold MaxUcbChild_locked. fold (legal_moves b).
  destruct (legal_moves b) as [|i0 l0] eqn:El; [done|]. rewrite <- El.
  destruct (count_children t b (legal_moves b) 0 []) as [[sum nulls]|f'] eqn:Ec;
    [|done].
  apply count_children_inv in Ec. simpl in Ec.
  fold (unknown_children t b) in Ec. subst nulls.
  change (Done (sum, unknown_children t b) ≫= ?k)
    with (k (sum, unknown_children t b)). cbv beta iota.
  destruct (unknown_children t b) as [|n0 ns] eqn:Eu.
  - intros Hs. right. split; [done|].
    apply select_max_ucb_range in Hs as [->|[Hm Hsel]]; [by left|].
    right. unfold selectable_children. by apply list_elem_of_filter.
  - destruct (int_rem thread_index (thread_count_ p)) as [index|f']; [|done].
    change (Done index ≫= ?k) with (k index). cbv beta.
    destruct (null_indexes_at (n0 :: ns) index ltac:(done)) as (x & -> & Hx).
    intros [= <-]. left. by apply list_elem_of_lookup_2 in Hx.
Qed.

(** X2: a move returned by [MaxUcbChild] is a playable move without a
    record if there is one; when every playable move has a record it is the
    PASS sentinel or a playable move whose record is not in search and
    which is not a suicide.  This holds whatever the scores are (not a
    number included). *)
Theorem MaxUcbChild_returns_unknown_or_selectable_or_pass
    (p : UctPlayer) t b thread_index m :
  MaxUcbChild_locked p t b thread_index = Done m ->
  m ∈ unknown_children t b
  \/ (unknown_children t b = []
      /\ (m = POSITION_INDEX_PASS \/ m ∈ selectable_children t b)).
Proof. apply MaxUcbChild_locked_range. Qed.

(** *** Workers on the children without a record *)

Lemma MaxUcbChild_unknown_lookup (p : UctPlayer) t b thread_index :
  0 <= thread_index < thread_count_ p ->
  thread_count_ p <= CInt.INT_MAX ->
  Forall (fun i => 0 <= child_visits t b i) (legal_moves b) ->
  visits_sum t b (legal_moves b) <= CInt.INT_MAX ->
  thread_index < Z.of_nat (length (unknown_children t b)) ->
  exists m,
    MaxUcbChild_locked p t b thread_index = Done m
    /\ unknown_children t b !! Z.to_nat thread_index = Some m.
Proof.
  intros Hidx Htc Hpos Hsum Hlt.
  unfold MaxUcbChild_locked. fold (legal_moves b).
  destruct (count_children_fresh t b (legal_moves b) 0) as (s' & Hcc & _);
    [lia|done|lia|].
  fold (unknown_children t b) in Hcc.
  destruct (legal_moves b) as [|i0 l0] eqn:El.
  { unfold unknown_children in Hlt. rewrite El in Hlt. simpl in Hlt. lia. }
  rewrite Hcc.
  change (Done (s', unknown_children t b) ≫= ?k)
    with (k (s', unknown_children t b)). cbv beta iota.
  destruct (unknown_children t b) as [|u0 us] eqn:Eu; [simpl in Hlt; lia|].
  rewrite int_rem_worker by lia.
  change (Done ?x ≫= ?k) with (k x). cbv beta zeta.
  rewrite Z.rem_small by lia.
  rewrite to_size_t_small by lia.
  destruct (thread_index <? Z.of_nat (length (u0 :: us))) eqn:E;
    [|apply Z.ltb_ge in E; lia].
  destruct (lookup_lt_is_Some_2 (u0 :: us) (Z.to_nat thread_index)) as [m Hm];
    [lia|].
  exists m. split; [|done]. apply vector_at_lookup; [lia|done].
Qed.

(** X3: two workers whose indexes are both below the number of children
    without a record are sent to different children: worker [i] gets the
    [i]-th and worker [j] the [j]-th of them, and these differ since a
    board lists a playable position once. *)
Theorem MaxUcbChild_sends_workers_to_different_children
    (p : UctPlayer) t b i j :
  NoDup (legal_moves b) ->
  0 <= i < j -> j < thread_count_ p -> thread_count_ p <= CInt.INT_MAX ->
  j < Z.of_nat (length (unknown_children t b)) ->
  Forall (fun k => 0 <= child_visits t b k) (legal_moves b) ->
  visits_sum t b (legal_moves b) <= CInt.INT_MAX ->
  exists mi mj,
    MaxUcbChild_locked p t b i = Done mi
    /\ MaxUcbChild_locked p t b j = Done mj
    /\ unknown_children t b !! Z.to_nat i = Some mi
    /\ unknown_children t b !! Z.to_nat j = Some mj
    /\ mi <> mj.
Proof.
  intros Hnd Hij Hj Htc Hlt Hpos Hsum.
  destruct (MaxUcbChild_unknown_lookup p t b i) as (mi & Hmi & Hli); try done; try lia.
  destruct (MaxUcbChild_unknown_lookup p t b j) as (mj & Hmj & Hlj); try done; try lia.
  exists mi, mj. repeat split; try done.
  intros ->.
  assert (Hndu : NoDup (unknown_children t b)).
  { unfold unknown_children. by apply NoDup_filter. }
  pose proof (NoDup_lookup _ _ _ _ Hndu Hli Hlj). lia.
Qed.

(** *** The outcomes of [BestChild] *)

Lemma most_visited_Abort t b l : forall max_visited_count most_visited_index f,
  most_visited t b l max_visited_count most_visited_index = Abort f ->
  f = AssertionFailure /\ exists i, i ∈ l /\ GetChild t b i = None.
Proof.
  induction l as [|i l IH]; intros mx cur f; cbn [most_visited]; [done|].
  destruct (GetChild t b i) as [r|] eqn:E.
  - intros Hm.
    assert (Hr : f = AssertionFailure /\ exists i, i ∈ l /\ GetChild t b i = None).
    { destruct (GetVisitedTime r >? mx); by apply IH in Hm. }
    destruct Hr as [-> (k & Hk & Hn)]. split; [done|].
    exists k. split; [by right|done].
  - intros [= <-]. split; [done|]. exists i. split; [by left|done].
Qed.

Lemma most_visited_Done t b l : forall max_visited_count most_visited_index r,
  most_visited t b l max_visited_count most_visited_index = Done r ->
  Forall (fun i => is_Some (GetChild t b i)) l.
Proof.
  induction l as [|i l IH]; intros mx cur r; cbn [most_visited];
    [constructor|].
  destruct (GetChild t b i) as [r0|] eqn:E; [|done].
  intros Hm. apply Forall_cons. split; [by rewrite E|].
  destruct (GetVisitedTime r0 >? mx); by apply IH in Hm.
Qed.

(** X4: [BestChild] stops at its assertion exactly when some playable
    move of the board has no record in the table. *)
Theorem BestChild_asserts_iff_a_child_is_missing t b :
  BestChild t b = Abort AssertionFailure
  <-> exists i, i ∈ legal_moves b /\ GetChild t b i = None.
Proof.
  unfold BestChild. fold (legal_moves b).
  destruct (most_visited t b (legal_moves b) (-1) None) as [r|f] eqn:Em.
  - split.
    + destruct r; done.
    + intros (i & Hi & Hn). apply most_visited_Done in Em.
      rewrite Forall_forall in Em. destruct (Em i Hi) as [r' Hr']. congruence.
  - apply most_visited_Abort in Em as [-> Hex]. done.
Qed.

Lemma most_visited_Some t b l : forall max_visited_count m,
  exists r,
    most_visited t b l max_visited_count (Some m) = r
    /\ match r with Done None => False | _ => True end.
Proof.
  induction l as [|i l IH]; intros mx m; cbn [most_visited].
  - by eexists.
  - destruct (GetChild t b i) as [r0|]; [|by eexists].
    destruct (GetVisitedTime r0 >? mx); apply IH.
Qed.

Lemma most_visited_None t b l : forall max_visited_count,
  most_visited t b l max_visited_count None = Done None
  <-> Forall (fun i => exists r, GetChild t b i = Some r
                                 /\ GetVisitedTime r <= max_visited_count) l.
Proof.
  induction l as [|i l IH]; intros mx; cbn [most_visited].
  { split; [constructor|done]. }
  rewrite Forall_cons.
  destruct (GetChild t b i) as [r0|] eqn:E.
  2:{ split; [done|]. intros [(r & Hr & _) _]. done. }
  destruct (GetVisitedTime r0 >? mx) eqn:Eg.
  - rewrite Z.gtb_ltb in Eg. apply Z.ltb_lt in Eg. split.
    + intros Hm.
      destruct (most_visited_Some t b l (GetVisitedTime r0) i) as (r & Hr & Hn).
      rewrite Hm in Hr. subst r. done.
    + intros [(r & [= <-] & Hle) _]. lia.
  - rewrite Z.gtb_ltb in Eg. apply Z.ltb_ge in Eg. rewrite IH. split.
    + intros Hl. split; [|done]. by exists r0.
    + by intros [_ Hl].
Qed.

(** X5: [BestChild] returns its local variable without ever having
    assigned it exactly when every playable move has a record whose visit
    count is negative; a board without a playable move is the case that
    can occur. *)
Theorem BestChild_returns_indeterminate_iff t b :
  BestChild t b = Abort UndefinedBehaviour
  <-> Forall (fun i => exists r, GetChild t b i = Some r
                                 /\ GetVisitedTime r <= -1) (legal_moves b).
Proof.
  rewrite <- most_visited_None.
  unfold BestChild. fold (legal_moves b).
  destruct (most_visited t b (legal_moves b) (-1) None) as [[m|]|f] eqn:Em.
  - split; done.
  - split; done.
  - apply most_visited_Abort in Em as [-> _]. split; done.
Qed.

Lemma most_visited_ext t1 t2 b l : forall max_visited_count most_visited_index,
  Forall (fun i => GetVisitedTime <$> GetChild t1 b i
                   = GetVisitedTime <$> GetChild t2 b i) l ->
  most_visited t1 b l max_visited_count most_visited_index
  = most_visited t2 b l max_visited_count most_visited_index.
Proof.
  induction l as [|i l IH]; intros mx cur Hl; cbn [most_visited]; [done|].
  apply Forall_cons in Hl as [Hi Hl].
  destruct (GetChild t1 b i) as [r1|], (GetChild t2 b i) as [r2|];
    simpl in Hi; try done.
  injection Hi as ->. destruct (GetVisitedTime r2 >? mx); by apply IH.
Qed.

(** X6: the move [BestChild] returns depends on the visit counts of the
    children only: two tables that agree on which playable moves have a
    record and on the visit counts of these records give the same outcome,
    whatever their averages and in-search marks. *)
Theorem BestChild_looks_at_visit_counts_only t1 t2 b :
  Forall (fun i => GetVisitedTime <$> GetChild t1 b i
                   = GetVisitedTime <$> GetChild t2 b i) (legal_moves b) ->
  BestChild t1 b = BestChild t2 b.
Proof.
  intros Hl. unfold BestChild. fold (legal_moves b).
  by rewrite (most_visited_ext t1 t2 b (legal_moves b) (-1) None Hl).
Qed.

End SelectionEdges.

(** ** What a visit keeps *)

Section VisitInvariants.

Context {FullBoard : Type} `{Countable FullBoard}.
Context `{!BoardOps FullBoard} `{!PlayoutOps FullBoard} `{!Libm}.

Implicit Types (t : gmap FullBoard NodeRecord) (b : FullBoard) (s : State FullBoard).

Lemma mutex_after_app (tr1 tr2 : list (Event FullBoard)) : forall held,
  mutex_after held (tr1 ++ tr2)
  = match mutex_after held tr1 with
    | Some held' => mutex_after held' tr2
    | None => None
    end.
Proof.
  induction tr1 as [|ev tr1 IH]; intros held; [done|].
  destruct ev, held; cbn [mutex_after app]; try done; apply IH.
Qed.

Lemma mutex_after_free (tr1 tr2 : list (Event FullBoard)) :
  mutex_after false tr1 = Some false -> mutex_after false tr2 = Some false ->
  mutex_after false (tr1 ++ tr2) = Some false.
Proof. intros H1 H2. by rewrite mutex_after_app, H1. Qed.

Lemma playout_boards_app (tr1 tr2 : list (Event FullBoard)) :
  playout_boards (tr1 ++ tr2) = playout_boards tr1 ++ playout_boards tr2.
Proof. unfold playout_boards. by rewrite playouts_app, fmap_app. Qed.

Lemma dom_insert_present t b (r : NodeRecord) :
  is_Some (t !! b) -> dom (<[b := r]> t) = dom t.
Proof.
  intros Hb. rewrite dom_insert_L. apply subseteq_union_1_L.
  by apply singleton_subseteq_l, elem_of_dom.
Qed.

(** The trace and the table between the start of a visit of a recorded,
    non-terminal board and the start of the visit of the board below. *)
Lemma descend_marked (p : UctPlayer) b thread_index s r0 next s1 :
  Get (transposition_table_ s) b = Some r0 ->
  descend p b thread_index (marked b r0 s) = Done (next, s1) ->
  transposition_table_ s1 = <[b := SetIsInSearch true r0]> (transposition_table_ s)
  /\ mc_game_count s1 = mc_game_count s
  /\ exists pre, trace s1 = trace s ++ pre
       /\ mutex_after false pre = Some false
       /\ playouts pre = [].
Proof.
  intros Hr Hd.
  apply descend_inv in Hd as (Ht1 & Hc1 & Htr1 & _).
  unfold marked in *. cbn [transposition_table_ mc_game_count trace] in *.
  split; [done|]. split; [done|].
  destruct Htr1 as [->| ->]; eexists;
    (split; [rewrite <- ?app_assoc; reflexivity|]); done.
Qed.

(** *** The mutex *)

Lemma visit_mutex fuel (p : UctPlayer) : forall b thread_index s x s',
  ModifyAverageProfitAndReturnNewProfit fuel p b thread_index s = Done (x, s') ->
  exists new, trace s' = trace s ++ new /\ mutex_after false new = Some false.
Proof.
  induction fuel as [|fuel IH]; intros b idx s x s' Hv; [done|].
  destruct (Get (transposition_table_ s) b) as [r0|] eqn:Hr.
  2:{ rewrite (visit_absent_eq fuel p b idx s Hr) in Hv. injection Hv as <- <-.
      cbn [trace]. eexists. split; [reflexivity|done]. }
  destruct (IsEnd b) eqn:Hend.
  { pose proof (visit_terminal_inv _ _ _ _ _ _ _ _ Hr Hend Hv) as Hrange.
    rewrite (visit_terminal_eq fuel p b idx s r0 Hr Hend) in Hv by done.
    injection Hv as <- <-. cbn [trace]. eexists. split; [reflexivity|done]. }
  destruct (visit_present_inv _ _ _ _ _ _ _ _ Hr Hend Hv)
    as (next & s1 & child & s2 & r & Hd & Hrec & Hr2 & Hrange & -> & ->).
  apply (descend_marked _ _ _ _ _ _ _ Hr) in Hd
    as (_ & _ & pre & Htr1 & Hm1 & _).
  apply IH in Hrec as (new2 & Htr2 & Hm2).
  unfold updated. cbn [trace]. rewrite Htr2, Htr1.
  eexists. split; [rewrite <- !app_assoc; reflexivity|].
  repeat apply mutex_after_free; done.
Qed.

(** *** Records and playouts *)

Lemma visit_growth fuel (p : UctPlayer) : forall b thread_index s x s',
  ModifyAverageProfitAndReturnNewProfit fuel p b thread_index s = Done (x, s') ->
  exists new,
    trace s' = trace s ++ new
    /\ ((playouts new = []
         /\ dom (transposition_table_ s') = dom (transposition_table_ s))
        \/ exists leaf,
             transposition_table_ s !! leaf = None
             /\ playouts new = [MkMonteCarloGame leaf (seed_ p)]
             /\ dom (transposition_table_ s')
                = {[leaf]} ∪ dom (transposition_table_ s)).
Proof.
  induction fuel as [|fuel IH]; intros b idx s x s' Hv; [done|].
  destruct (Get (transposition_table_ s) b) as [r0|] eqn:Hr.
  2:{ rewrite (visit_absent_eq fuel p b idx s Hr) in Hv. injection Hv as <- <-.
      cbn [trace transposition_table_]. eexists. split; [reflexivity|].
      right. exists b. split; [done|]. split; [done|].
      by rewrite dom_insert_L. }
  destruct (IsEnd b) eqn:Hend.
  { pose proof (visit_terminal_inv _ _ _ _ _ _ _ _ Hr Hend Hv) as Hrange.
    rewrite (visit_terminal_eq fuel p b idx s r0 Hr Hend) in Hv by done.
    injection Hv as <- <-. cbn [trace transposition_table_].
    eexists. split; [reflexivity|]. left. split; [done|].
    apply dom_insert_present. unfold Get in Hr. by rewrite Hr. }
  destruct (visit_present_inv _ _ _ _ _ _ _ _ Hr Hend Hv)
    as (next & s1 & child & s2 & r & Hd & Hrec & Hr2 & Hrange & -> & ->).
  apply (descend_marked _ _ _ _ _ _ _ Hr) in Hd
    as (Ht1 & _ & pre & Htr1 & _ & Hp1).
  apply IH in Hrec as (new2 & Htr2 & Hcases).
  assert (Hd1 : dom (transposition_table_ s1) = dom (transposition_table_ s)).
  { rewrite Ht1. apply dom_insert_present. unfold Get in Hr. by rewrite Hr. }
  assert (Hd2 : dom (transposition_table_
                       (updated b r (F32.sub F32.one child) s2))
                = dom (transposition_table_ s2)).
  { unfold updated. cbn [transposition_table_]. apply dom_insert_present.
    unfold Get in Hr2. by rewrite Hr2. }
  exists (pre ++ new2
          ++ drop (length (trace s2))
               (trace (updated b r (F32.sub F32.one child) s2))).
  split.
  { unfold updated. cbn [trace]. rewrite drop_app_length.
    rewrite Htr2, Htr1, <- !app_assoc. reflexivity. }
  unfold updated at 1 3. cbn [trace]. rewrite drop_app_length.
  rewrite !playouts_app, Hp1. cbn [app]. rewrite Hd2.
  assert (Hlast : forall (k : FullBoard) (a : float) (n : Z),
            playouts [EvSetAverageProfit k a; EvSetVisitedTimes k n;
                      EvLock; EvSetIsInSearch k false; @EvUnlock FullBoard] = [])
    by done.
  rewrite Hlast, app_nil_r.
  destruct Hcases as [[Hp2 Hdom]|(leaf & Hnone & Hp2 & Hdom)].
  - left. split; [done|]. congruence.
  - right. exists leaf. split.
    + rewrite Ht1 in Hnone.
      destruct (decide (b = leaf)) as [->|Hne].
      * by rewrite lookup_insert_eq in Hnone.
      * by rewrite lookup_insert_ne in Hnone.
    + split; [done|]. congruence.
Qed.


(** *** Visit counts *)

(** X8: a visit that returns never lowers a visit count, and it counts
    itself on the board it was called on: that board ends with a record
    whose count is 1 if it had none, and at least one more than before
    otherwise. *)
Theorem visit_raises_the_visit_count fuel (p : UctPlayer) :
  forall b thread_index s x s',
  ModifyAverageProfitAndReturnNewProfit fuel p b thread_index s = Done (x, s') ->
  (forall k r, transposition_table_ s !! k = Some r ->
     exists r', transposition_table_ s' !! k = Some r'
                /\ GetVisitedTime r <= GetVisitedTime r')
  /\ exists r', transposition_table_ s' !! b = Some r'
       /\ match transposition_table_ s !! b with
          | Some r => GetVisitedTime r' >= GetVisitedTime r + 1
          | None => GetVisitedTime r' = 1
          end.
Proof.
  induction fuel as [|fuel IH]; intros b idx s x s' Hv; [done|].
  destruct (Get (transposition_table_ s) b) as [r0|] eqn:Hr.
  2:{ rewrite (visit_absent_eq fuel p b idx s Hr) in Hv. injection Hv as <- <-.
      cbn [transposition_table_]. unfold Get in Hr. split.
      - intros k r Hk. destruct (decide (b = k)) as [->|Hne]; [congruence|].
        exists r. by rewrite lookup_insert_ne.
      - eexists. rewrite lookup_insert_eq, Hr. done. }
  destruct (IsEnd b) eqn:Hend.
  { pose proof (visit_terminal_inv _ _ _ _ _ _ _ _ Hr Hend Hv) as Hrange.
    rewrite (visit_terminal_eq fuel p b idx s r0 Hr Hend) in Hv by done.
    injection Hv as <- <-. cbn [transposition_table_]. unfold Get in Hr. split.
    - intros k r Hk. destruct (decide (b = k)) as [->|Hne].
      + rewrite lookup_insert_eq. eexists. split; [done|].
        simpl. assert (r = r0) as -> by congruence. lia.
      + exists r. by rewrite lookup_insert_ne.
    - eexists. rewrite lookup_insert_eq, Hr. split; [done|]. simpl. lia. }
  destruct (visit_present_inv _ _ _ _ _ _ _ _ Hr Hend Hv)
    as (next & s1 & child & s2 & r & Hd & Hrec & Hr2 & Hrange & -> & ->).
  apply (descend_marked _ _ _ _ _ _ _ Hr) in Hd as (Ht1 & _).
  apply IH in Hrec as [Hmono _].
  unfold Get in Hr, Hr2.
  assert (Hb : GetVisitedTime r0 <= GetVisitedTime r).
  { destruct (Hmono b (SetIsInSearch true r0)) as (r' & Hr' & Hle).
    - by rewrite Ht1, lookup_insert_eq.
    - assert (r' = r) as -> by congruence. done. }
  unfold updated. cbn [transposition_table_]. split.
  - intros k rk Hk. destruct (decide (b = k)) as [->|Hne].
    + rewrite lookup_insert_eq. eexists. split; [done|].
      simpl. assert (rk = r0) as -> by congruence. lia.
    + rewrite lookup_insert_ne by done. apply Hmono.
      by rewrite Ht1, lookup_insert_ne.
  - eexists. rewrite lookup_insert_eq, Hr. split; [done|]. simpl. lia.
Qed.

(** *** In-search marks *)

(** X9: a visit that returns sets no in-search mark for good: a record
    that is marked afterwards was marked before, and the record of the
    board visited ends unmarked. *)
Theorem visit_leaves_no_new_in_search_mark fuel (p : UctPlayer) :
  forall b thread_index s x s',
  ModifyAverageProfitAndReturnNewProfit fuel p b thread_index s = Done (x, s') ->
  forall k r', transposition_table_ s' !! k = Some r' -> IsInSearch r' = true ->
    k <> b /\ exists r, transposition_table_ s !! k = Some r
                        /\ IsInSearch r = true.
Proof.
  induction fuel as [|fuel IH]; intros b idx s x s' Hv; [done|].
  destruct (Get (transposition_table_ s) b) as [r0|] eqn:Hr.
  2:{ rewrite (visit_absent_eq fuel p b idx s Hr) in Hv. injection Hv as <- <-.
      cbn [transposition_table_]. intros k r' Hk Hf.
      destruct (decide (b = k)) as [->|Hne].
      - rewrite lookup_insert_eq in Hk. injection Hk as <-. done.
      - rewrite lookup_insert_ne in Hk by done. split; [done|]. by exists r'. }
  destruct (IsEnd b) eqn:Hend.
  { pose proof (visit_terminal_inv _ _ _ _ _ _ _ _ Hr Hend Hv) as Hrange.
    rewrite (visit_terminal_eq fuel p b idx s r0 Hr Hend) in Hv by done.
    injection Hv as <- <-. cbn [transposition_table_]. intros k r' Hk Hf.
    destruct (decide (b = k)) as [->|Hne].
    - rewrite lookup_insert_eq in Hk. injection Hk as <-. done.
    - rewrite lookup_insert_ne in Hk by done. split; [done|]. by exists r'. }
  destruct (visit_present_inv _ _ _ _ _ _ _ _ Hr Hend Hv)
    as (next & s1 & child & s2 & r & Hd & Hrec & Hr2 & Hrange & -> & ->).
  apply (descend_marked _ _ _ _ _ _ _ Hr) in Hd as (Ht1 & _).
  pose proof (IH _ _ _ _ _ Hrec) as Hflags.
  unfold updated. cbn [transposition_table_]. intros k r' Hk Hf.
  destruct (decide (b = k)) as [->|Hne].
  - rewrite lookup_insert_eq in Hk. injection Hk as <-. done.
  - rewrite lookup_insert_ne in Hk by done. split; [done|].
    destruct (Hflags k r' Hk Hf) as (_ & rk & Hrk & Hfk).
    rewrite Ht1, lookup_insert_ne in Hrk by done. by exists rk.
Qed.

End VisitInvariants.

(** ** What a worker's loop keeps *)

Section SearchInvariants.

Context {FullBoard : Type} `{Countable FullBoard}.
Context `{!BoardOps FullBoard} `{!PlayoutOps FullBoard} `{!Libm}.

Implicit Types (t : gmap FullBoard NodeRecord) (b : FullBoard) (s : State FullBoard).

(** One turn of the loop of [SearchAndModifyNodes]. *)
Lemma search_step fuel depth (p : UctPlayer) b thread_index s u s' :
  SearchAndModifyNodes (S fuel) depth p b thread_index s = Done (u, s') ->
  (mc_game_count_per_move_ p <= mc_game_count s /\ s' = s)
  \/ (mc_game_count s < mc_game_count_per_move_ p
      /\ exists m x s2,
           MaxUcbChild_locked p (transposition_table_ s) b thread_index = Done m
           /\ ModifyAverageProfitAndReturnNewProfit depth p (Play b m) thread_index
                (MkState (transposition_table_ s) (mc_game_count s)
                   (trace s ++ [EvLock; EvUnlock]))
              = Done (x, s2)
           /\ SearchAndModifyNodes fuel depth p b thread_index s2 = Done (u, s')).
Proof.
  intros Hs. cbn [SearchAndModifyNodes] in Hs.
  unfold mbind at 1, M_bind at 1, counter in Hs.
  destruct (mc_game_count s <? mc_game_count_per_move_ p) eqn:Ec.
  - apply Z.ltb_lt in Ec. right. split; [done|].
    apply M_bind_inv in Hs as (m & s1 & Hm & Hs).
    apply M_bind_inv in Hs as (x & s2 & Hv & Hs).
    apply MaxUcbChild_inv in Hm as [Hm ->].
    exists m, x, s2. done.
  - apply Z.ltb_ge in Ec. injection Hs as <- <-. by left.
Qed.

(** X10: in the log of a worker's search the mutex is used as a
    non-recursive mutex must be: the worker never locks it while holding
    it, never unlocks it while not holding it, writes an in-search mark
    only while holding it, and does not hold it when the search ends. *)
Theorem search_locks_and_unlocks_in_turn fuel depth (p : UctPlayer)
    b thread_index s s' :
  SearchAndModifyNodes fuel depth p b thread_index s = Done (tt, s') ->
  exists new, trace s' = trace s ++ new /\ mutex_after false new = Some false.
Proof.
  revert s. induction fuel as [|fuel IH]; intros s Hs; [done|].
  apply search_step in Hs as [[_ ->]|(_ & m & x & s2 & _ & Hv & Hs)].
  { exists []. by rewrite app_nil_r. }
  apply visit_mutex in Hv as (new2 & Htr2 & Hm2). cbn [trace] in Htr2.
  apply IH in Hs as (new3 & Htr3 & Hm3).
  exists ([EvLock; EvUnlock] ++ new2 ++ new3). split.
  - rewrite Htr3, Htr2, <- !app_assoc. reflexivity.
  - repeat apply mutex_after_free; done.
Qed.

(** X11: a worker's loop that returns leaves the counter at the budget
    [mc_game_count_per_move_] when it found it below, each pass through the
    loop adding one; when the counter has already reached the budget the
    loop changes nothing at all. *)
Theorem search_stops_at_the_budget fuel depth (p : UctPlayer)
    b thread_index s s' :
  CInt.INT_MIN <= mc_game_count s ->
  mc_game_count_per_move_ p <= CInt.INT_MAX ->
  SearchAndModifyNodes fuel depth p b thread_index s = Done (tt, s') ->
  mc_game_count s' = Z.max (mc_game_count s) (mc_game_count_per_move_ p)
  /\ (mc_game_count_per_move_ p <= mc_game_count s -> s' = s).
Proof.
  intros Hc Hbudget. revert s Hc.
  induction fuel as [|fuel IH]; intros s Hc Hs; [done|].
  apply search_step in Hs as [[Hge ->]|(Hlt & m & x & s2 & _ & Hv & Hs)].
  { split; [lia|done]. }
  apply visit_effects in Hv as (_ & Hc2 & _). cbn [mc_game_count] in Hc2.
  rewrite wrap_in_range in Hc2 by (apply in_range_iff; lia).
  apply IH in Hs as [Hend _]; [|lia]. split; [lia|lia].
Qed.

(** X12: during a worker's search no board is played out twice: the
    playouts built start from pairwise different boards, none of which had
    a record when the search began, and the boards recorded at the end are
    those recorded at the start together with the boards played out. *)
Theorem search_plays_out_each_board_once fuel depth (p : UctPlayer)
    b thread_index s s' :
  SearchAndModifyNodes fuel depth p b thread_index s = Done (tt, s') ->
  exists new,
    trace s' = trace s ++ new
    /\ NoDup (playout_boards new)
    /\ Forall (fun k => transposition_table_ s !! k = None) (playout_boards new)
    /\ dom (transposition_table_ s')
       = dom (transposition_table_ s) ∪ list_to_set (playout_boards new).
Proof.
  revert s. induction fuel as [|fuel IH]; intros s Hs; [done|].
  apply search_step in Hs as [[_ ->]|(_ & m & x & s2 & _ & Hv & Hs)].
  { exists []. rewrite app_nil_r. split; [done|]. split; [constructor|].
    split; [constructor|]. cbn. by rewrite union_empty_r_L. }
  apply visit_growth in Hv as (new2 & Htr2 & Hcases).
  cbn [trace transposition_table_] in Htr2, Hcases.
  apply IH in Hs as (new3 & Htr3 & Hnd3 & Hnew3 & Hdom3).
  exists ([EvLock; EvUnlock] ++ new2 ++ new3).
  split; [rewrite Htr3, Htr2, <- !app_assoc; reflexivity|].
  rewrite !playout_boards_app.
  change (playout_boards [EvLock; @EvUnlock FullBoard]) with (@nil FullBoard).
  cbn [app]. unfold playout_boards at 1 3 5.
  destruct Hcases as [[Hp2 Hdom2]|(leaf & Hnone & Hp2 & Hdom2)];
    rewrite Hp2; cbn [fmap list_fmap app GetFullBoard].
  - split; [done|]. split; [|congruence].
    eapply Forall_impl; [exact Hnew3|]. intros k Hk. cbn beta in Hk.
    apply not_elem_of_dom. apply not_elem_of_dom in Hk. congruence.
  - rewrite Forall_forall in Hnew3.
    assert (Hfresh : leaf ∉ playout_boards new3).
    { intros Hin. specialize (Hnew3 _ Hin). apply not_elem_of_dom in Hnew3.
      rewrite Hdom2 in Hnew3. apply Hnew3, elem_of_union_l.
      by apply elem_of_singleton. }
    split; [by apply NoDup_cons|]. split.
    + apply Forall_cons. split; [done|]. apply Forall_forall. intros k Hk.
      specialize (Hnew3 _ Hk). apply not_elem_of_dom.
      apply not_elem_of_dom in Hnew3. rewrite Hdom2 in Hnew3.
      intros Hin. by apply Hnew3, elem_of_union_r.
    + rewrite Hdom3, Hdom2. cbn [list_to_set].
      rewrite (comm_L (∪) {[leaf]} (dom (transposition_table_ s))).
      by rewrite <- (assoc_L (∪)).
Qed.

End SearchInvariants.

(** ** The score *)

(** X13: for a record with an average at or above zero and a positive
    visit count, and a sum of visits whose logarithm is at or above zero,
    [Ucb] passes its assertion and the score is at or above zero: it is
    not a NaN, and the exploration term has not taken the score below
    zero. *)
Theorem Ucb_scores_at_or_above_zero `{Libm} (node_record : NodeRecord)
    (visited_count_sum : Z) :
  zero_le (GetAverageProfit node_record) ->
  0 < GetVisitedTime node_record <= CInt.INT_MAX ->
  zero_le (log (F64.of_int visited_count_sum)) ->
  exists ucb,
    Ucb node_record visited_count_sum = Done ucb
    /\ F32.le F32.zero ucb = true
    /\ is_nan ucb = false.
Proof.
  intros Havg Hv Hlog. exists (ucb_value node_record visited_count_sum).
  unfold Ucb. destruct (GetVisitedTime node_record >? 0) eqn:E.
  2:{ rewrite Z.gtb_ltb in E. apply Z.ltb_ge in E. lia. }
  split; [done|].
  assert (Hu : zero_le (ucb_value node_record visited_count_sum)).
  { unfold ucb_value. apply F64_to_float_zero_le.
    apply SFadd_zero_le; [by apply F64_of_float_zero_le|].
    apply SFsqrt_zero_le.
    destruct (F64_of_int_finite (GetVisitedTime node_record)) as (m & e & ->);
      [lia|].
    apply SFdiv_zero_le.
    change (F64.of_int 2) with (S754_finite false 4503599627370496 (-51)).
    by apply SFmul_zero_le. }
  split; [exact Hu|].
  apply zero_le_cases in Hu.
  by destruct (ucb_value node_record visited_count_sum) as [s|[]| |[] m e].
Qed.

(** ** The region ratio *)

Lemma div_self m e :
  F32.div (S754_finite false m e) (S754_finite false m e) = F32.one.
Proof.
  unfold F32.div, F32.prec, F32.emax. cbn [SFdiv xorb].
  unfold SFdiv_core_binary.
  rewrite (Z.sub_diag e), (Z.sub_diag (Zdigits2 (Zpos m) + e)).
  change (fexp 24 128 0 `min` 0) with (-24).
  change (0 - -24) with 24.
  cbv beta iota.
  rewrite Z.shiftl_mul_pow2 by lia.
  rewrite Z_div_eucl_eq.
  rewrite Z.mul_comm, Z.div_mul, Z.mod_mul by lia.
  rewrite new_location_0. vm_compute. reflexivity.
Qed.

Lemma of_int_positive n :
  1 <= n <= 2 ^ 31 -> exists m e, F32.of_int n = S754_finite false m e.
Proof.
  intros Hn.
  assert (H32 : 2 ^ 31 <= 2 ^ 32) by (apply Z.pow_le_mono_r; lia).
  destruct (of_int_nonneg n ltac:(lia)) as [Hnn Hs].
  pose proof (rnd_int_pos n ltac:(lia)) as Hpos. pose proof scale_pos.
  destruct (nonneg_float_cases _ Hnn) as [[s Hz]|(m & e & Hf & _)].
  - rewrite Hz in Hs. simpl in Hs. lia.
  - by exists m, e.
Qed.

Section RegionRatio.

Context {FullBoard : Type} `{Countable FullBoard}.
Context `{!BoardOps FullBoard} `{!PlayoutOps FullBoard} `{!Libm}.

(** X14: for a board whose black region counts between 0 and
    [BoardLenSquare] points, [GetRegionRatio] is a [float] between 0 and 1
    for either side, rounding included. *)
Theorem GetRegionRatio_in_unit_interval (full_board : FullBoard) (force : Force) :
  0 <= BlackRegion full_board <= BoardLenSquare ->
  1 <= BoardLenSquare <= CInt.INT_MAX ->
  F32.le F32.zero (GetRegionRatio full_board force) = true
  /\ F32.le (GetRegionRatio full_board force) F32.one = true.
Proof.
  intros Hr Hp. unfold CInt.INT_MAX in Hp.
  assert (Hu : unit_float (F32.div (F32.of_int (BlackRegion full_board))
                             (F32.of_int BoardLenSquare))).
  { apply region_ratio_unit; [done|]. change (2 ^ 31) with 2147483648. lia. }
  unfold GetRegionRatio. destruct force.
  - by destruct Hu as (_ & Hlo & Hhi).
  - change (F32.of_int 1) with F32.one.
    by destruct (sub_one_unit _ Hu) as (_ & Hlo & Hhi).
Qed.

(** X15: at the two ends the ratio is exact.  With no black point black
    gets exactly 0 and white exactly 1; with every point black, black gets
    exactly 1 and white exactly 0, although the two integers may have been
    rounded on their way to [float]. *)
Theorem GetRegionRatio_is_exact_at_the_ends (full_board : FullBoard) :
  1 <= BoardLenSquare <= CInt.INT_MAX ->
  (BlackRegion full_board = 0 ->
   GetRegionRatio full_board BLACK_FORCE = F32.zero
   /\ GetRegionRatio full_board WHITE_FORCE = F32.one)
  /\ (BlackRegion full_board = BoardLenSquare ->
      GetRegionRatio full_board BLACK_FORCE = F32.one
      /\ GetRegionRatio full_board WHITE_FORCE = F32.zero).
Proof.
  intros Hp. unfold CInt.INT_MAX in Hp.
  destruct (of_int_positive BoardLenSquare) as (m & e & Hf).
  { change (2 ^ 31) with 2147483648. lia. }
  unfold GetRegionRatio. split; intros ->; rewrite Hf.
  - split; reflexivity.
  - rewrite div_self. split; reflexivity.
Qed.

(** The contract of the board, as for the averages. *)
Hypothesis region_bounds : forall board, 0 <= BlackRegion board <= BoardLenSquare.
Hypothesis board_size : 1 <= BoardLenSquare <= CInt.INT_MAX.

(** X16: the profit a visit returns to its caller is a [float] between 0
    and 1, when the averages of the table were: a region ratio at a new
    record, a stored average at a terminal board, and one minus the profit
    from below otherwise. *)
Theorem visit_returns_a_profit_in_unit_interval
    fuel (p : UctPlayer) b thread_index (s s' : State FullBoard) x :
  profits_ok (transposition_table_ s) ->
  ModifyAverageProfitAndReturnNewProfit fuel p b thread_index s = Done (x, s') ->
  F32.le F32.zero x = true /\ F32.le x F32.one = true.
Proof.
  intros Hok Hv.
  apply (visit_profits region_bounds board_size) in Hv as (_ & Hx & _); [|done].
  by destruct Hx as (_ & Hlo & Hhi).
Qed.

End RegionRatio.

(** ** The search returns

    On a board whose games end: [remaining] bounds the number of moves and
    passes that can still be made, and no board offers more than [width]
    moves. *)

Section FiniteGames.

Context {FullBoard : Type} `{Countable FullBoard}.
Context `{!BoardOps FullBoard} `{!PlayoutOps FullBoard} `{!Libm}.

Implicit Types (t : gmap FullBoard NodeRecord) (b : FullBoard) (s : State FullBoard).

Variable remaining : FullBoard -> nat.
Variable width : Z.

Hypothesis play_shortens : forall b i,
  IsEnd b = false -> i ∈ legal_moves b \/ i = POSITION_INDEX_PASS ->
  (remaining (Play b i) < remaining b)%nat.
Hypothesis pass_shortens : forall b,
  IsEnd b = false -> legal_moves b = [] ->
  (remaining (Pass b (NextForce b)) < remaining b)%nat.
Hypothesis moves_bounded : forall b, Z.of_nat (length (legal_moves b)) <= width.

(** *** [MaxUcbChild] returns *)

Lemma count_children_total (bound : Z) t b l : forall (sum : Z) n,
  visits_within bound t ->
  0 <= sum -> 0 <= bound ->
  sum + Z.of_nat (length l) * bound <= CInt.INT_MAX ->
  exists sum' n', count_children t b l sum n = Done (sum', n').
Proof.
  intros sum n Hin. revert sum n.
  induction l as [|i l IH]; intros sum n Hs Hb Hsum; cbn [count_children].
  { by eexists _, _. }
  cbn [length] in Hsum. rewrite Nat2Z.inj_succ in Hsum.
  destruct (GetChild t b i) as [r|] eqn:E.
  2:{ apply IH; [done|done|lia]. }
  destruct n as [|n0 n]; [|apply IH; [done|done|lia]].
  pose proof (Hin _ _ E) as Hr. cbn beta in Hr.
  rewrite int_add_Done by (unfold CInt.INT_MIN; lia).
  change (Done ?x ≫= ?k) with (k x). cbv beta.
  apply IH; [lia|done|lia].
Qed.

Lemma select_max_ucb_total (bound : Z) t b sum l :
  visits_within bound t ->
  forall max_ucb max_ucb_index,
  exists m, select_max_ucb t b sum l max_ucb max_ucb_index = Done m.
Proof.
  intros Hin. induction l as [|i l IH]; intros mx idx; cbn [select_max_ucb].
  { by eexists. }
  destruct (GetChild t b i) as [r|] eqn:E; [|apply IH].
  destruct (IsInSearch r); [apply IH|].
  pose proof (Hin _ _ E) as Hr. cbn beta in Hr.
  unfold Ucb. destruct (GetVisitedTime r >? 0) eqn:Ev.
  - change (Done ?x ≫= ?k) with (k x). cbv beta.
    destruct (_ && _); apply IH.
  - rewrite Z.gtb_ltb in Ev. apply Z.ltb_ge in Ev. lia.
Qed.

Lemma MaxUcbChild_locked_total (bound : Z) (p : UctPlayer) t b thread_index :
  legal_moves b <> [] ->
  0 <= thread_index <= CInt.INT_MAX -> 0 < thread_count_ p ->
  visits_within bound t -> 0 <= bound ->
  width * bound <= CInt.INT_MAX ->
  exists m,
    MaxUcbChild_locked p t b thread_index = Done m
    /\ (m ∈ legal_moves b \/ m = POSITION_INDEX_PASS).
Proof.
  intros Hne Hidx Htc Hin Hb Hw.
  assert (Hm : exists m, MaxUcbChild_locked p t b thread_index = Done m).
  { unfold MaxUcbChild_locked. fold (legal_moves b).
    destruct (legal_moves b) as [|i0 l0] eqn:El; [done|]. rewrite <- El.
    destruct (count_children_total bound t b (legal_moves b) 0 [])
      as (sum & nulls & ->); [done|lia|done| |].
    { pose proof (moves_bounded b).
      assert (Z.of_nat (length (legal_moves b)) * bound <= width * bound)
        by (apply Z.mul_le_mono_nonneg_r; lia).
      lia. }
    change (Done ?x ≫= ?k) with (k x). cbv beta iota.
    destruct nulls as [|n0 ns].
    - apply (select_max_ucb_total bound); done.
    - rewrite int_rem_worker by done.
      change (Done ?x ≫= ?k) with (k x). cbv beta.
      destruct (null_indexes_at (n0 :: ns)
                  (Z.rem thread_index (thread_count_ p)) ltac:(done))
        as (x & -> & _).
      by exists x. }
  destruct Hm as [m Hm]. exists m. split; [done|].
  apply MaxUcbChild_locked_range in Hm as [Hu|[_ [->|Hs]]].
  - left. unfold unknown_children in Hu.
    by apply list_elem_of_filter in Hu as [_ ?].
  - by right.
  - left. unfold selectable_children in Hs.
    by apply list_elem_of_filter in Hs as [_ ?].
Qed.

(** *** One visit returns *)

Lemma descend_pass (p : UctPlayer) b thread_index s :
  legal_moves b = [] ->
  descend p b thread_index s = Done (Pass b (NextForce b), s).
Proof.
  unfold descend, legal_moves. intros ->. reflexivity.
Qed.

Lemma descend_play (p : UctPlayer) b thread_index s m :
  legal_moves b <> [] ->
  MaxUcbChild_locked p (transposition_table_ s) b thread_index = Done m ->
  descend p b thread_index s
  = Done (Play b m,
          MkState (transposition_table_ s) (mc_game_count s)
            (trace s ++ [EvLock; EvUnlock])).
Proof.
  unfold descend, legal_moves. intros Hne Hm.
  destruct (PlayableIndexes b (NextForce b)) as [|i0 l0]; [done|].
  unfold MaxUcbChild, mbind, M_bind, mret, M_ret, lock, unlock, emit, table, lift.
  cbn [transposition_table_ mc_game_count trace]. rewrite Hm.
  cbn [transposition_table_ mc_game_count trace]. by rewrite <- app_assoc.
Qed.

Lemma visit_present_eq fuel (p : UctPlayer) b thread_index s
    r0 next s1 child_profit s2 r :
  Get (transposition_table_ s) b = Some r0 ->
  IsEnd b = false ->
  descend p b thread_index (marked b r0 s) = Done (next, s1) ->
  ModifyAverageProfitAndReturnNewProfit fuel p next thread_index s1
  = Done (child_profit, s2) ->
  Get (transposition_table_ s2) b = Some r ->
  CInt.INT_MIN <= GetVisitedTime r + 1 <= CInt.INT_MAX ->
  ModifyAverageProfitAndReturnNewProfit (S fuel) p b thread_index s
  = Done (F32.sub F32.one child_profit,
          updated b r (F32.sub F32.one child_profit) s2).
Proof.
  intros Hr Hend Hd Hv Hr2 Hn. unfold Get in Hr, Hr2.
  cbn [ModifyAverageProfitAndReturnNewProfit].
  unfold mbind, M_bind, mret, M_ret, lock, unlock, emit, table, counter,
    increment_counter, deref, store_IsInSearch, store_AverageProfit,
    store_VisitedTimes, write, table_Insert, lift;
    cbn [transposition_table_ mc_game_count trace].
  unfold Get. rewrite Hr, Hend.
  unfold mbind, M_bind, mret, M_ret, lock, unlock, emit, table, counter,
    increment_counter, deref, store_IsInSearch, store_AverageProfit,
    store_VisitedTimes, write, table_Insert, lift;
    cbn [transposition_table_ mc_game_count trace].
  rewrite (alter_present _ _ _ _ Hr). rewrite <- !app_assoc.
  change ([EvLock] ++ [EvSetIsInSearch b true] ++ [EvUnlock])
    with [EvLock; EvSetIsInSearch b true; EvUnlock].
  fold (marked b r0 s). rewrite Hd, Hv, Hr2.
  rewrite int_add_Done by done.
  cbn [transposition_table_ mc_game_count trace].
  rewrite (alter_present _ _ _ _ Hr2). rewrite lookup_insert_eq.
  cbn [GetVisitedTime SetAverageProfit].
  rewrite int_add_Done by done.
  cbn [transposition_table_ mc_game_count trace].
  unfold updated. f_equal. f_equal. f_equal.
  - unfold SetVisitedTimes, SetIsInSearch, SetAverageProfit.
    rewrite (alter_present _ _ _ _ (lookup_insert_eq _ _ _)).
    rewrite (alter_present _ _ _ _ (lookup_insert_eq _ _ _)).
    rewrite !insert_insert_eq. reflexivity.
  - rewrite <- !app_assoc. reflexivity.
Qed.

Lemma visits_within_insert (bound : Z) t b (r : NodeRecord) :
  visits_within bound t -> 1 <= GetVisitedTime r <= bound ->
  visits_within bound (<[b := r]> t).
Proof. intros Hin Hr. by apply map_Forall_insert_2. Qed.

Lemma visits_within_mono (bound bound' : Z) t :
  bound <= bound' -> visits_within bound t -> visits_within bound' t.
Proof.
  intros Hle Hin k r Hk. specialize (Hin k r Hk). cbn beta in *. lia.
Qed.

Lemma visit_total (p : UctPlayer) thread_index (bound : Z) :
  0 <= thread_index <= CInt.INT_MAX -> 0 < thread_count_ p ->
  0 <= bound < CInt.INT_MAX -> width * bound <= CInt.INT_MAX ->
  forall fuel b s,
  (remaining b < fuel)%nat ->
  visits_within bound (transposition_table_ s) ->
  exists x s',
    ModifyAverageProfitAndReturnNewProfit fuel p b thread_index s = Done (x, s')
    /\ visits_within (bound + 1) (transposition_table_ s')
    /\ forall k, (remaining b < remaining k)%nat ->
         transposition_table_ s' !! k = transposition_table_ s !! k.
Proof.
  intros Hidx Htc Hb Hw.
  induction fuel as [|fuel IH]; intros b s Hfuel Hin; [lia|].
  destruct (Get (transposition_table_ s) b) as [r0|] eqn:Hr.
  2:{ rewrite (visit_absent_eq fuel p b thread_index s Hr).
      eexists _, _. split; [reflexivity|]. cbn [transposition_table_]. split.
      - apply visits_within_insert; [|simpl; lia].
        eapply visits_within_mono; [|done]. lia.
      - intros k Hk. rewrite lookup_insert_ne; [done|]. intros ->. lia. }
  pose proof (Hin b r0 Hr) as Hr0. cbn beta in Hr0.
  destruct (IsEnd b) eqn:Hend.
  { rewrite (visit_terminal_eq fuel p b thread_index s r0 Hr Hend)
      by (unfold CInt.INT_MIN; lia).
    eexists _, _. split; [reflexivity|]. cbn [transposition_table_]. split.
    - apply visits_within_insert; [|simpl; lia].
      eapply visits_within_mono; [|done]. lia.
    - intros k Hk. rewrite lookup_insert_ne; [done|]. intros ->. lia. }
  assert (Hin1 : visits_within bound (transposition_table_ (marked b r0 s))).
  { unfold marked. cbn [transposition_table_].
    apply visits_within_insert; [done|]. simpl. lia. }
  assert (Hd : exists next s1,
             descend p b thread_index (marked b r0 s) = Done (next, s1)
             /\ transposition_table_ s1
                = <[b := SetIsInSearch true r0]> (transposition_table_ s)
             /\ (remaining next < remaining b)%nat).
  { destruct (legal_moves b) as [|i0 l0] eqn:El.
    - eexists _, _. split; [by apply descend_pass|]. split; [done|].
      by apply pass_shortens.
    - destruct (MaxUcbChild_locked_total bound p
                  (transposition_table_ (marked b r0 s)) b thread_index)
        as (m & Hm & Hrange); try done; try lia.
      { by rewrite El. }
      eexists _, _. split; [apply descend_play; [by rewrite El|exact Hm]|].
      split; [done|]. by apply play_shortens. }
  destruct Hd as (next & s1 & Hd & Ht1 & Hnext).
  destruct (IH next s1) as (child & s2 & Hv & Hin2 & Hframe); [lia| |].
  { rewrite Ht1. apply visits_within_insert; [done|]. simpl. lia. }
  assert (Hr2 : Get (transposition_table_ s2) b = Some (SetIsInSearch true r0)).
  { unfold Get. rewrite Hframe by done. by rewrite Ht1, lookup_insert_eq. }
  rewrite (visit_present_eq fuel p b thread_index s r0 next s1 child s2
             (SetIsInSearch true r0) Hr Hend Hd Hv Hr2)
    by (simpl; unfold CInt.INT_MIN; lia).
  eexists _, _. split; [reflexivity|].
  unfold updated. cbn [transposition_table_]. split.
  - apply visits_within_insert; [done|]. simpl. lia.
  - intros k Hk. rewrite lookup_insert_ne by (intros ->; lia).
    rewrite Hframe by lia. rewrite Ht1.
    rewrite lookup_insert_ne; [done|]. intros ->. lia.
Qed.

(** X17: on a board whose games end, a visit returns: with as much fuel
    as the board has moves left, worker indexes and a thread count as the
    player uses them, and visit counts that are positive and small enough
    for their sums to fit an [int], the call yields a profit and a table in
    which every count is still positive and has grown by one at most. *)
Theorem visit_returns_on_a_board_whose_games_end
    (p : UctPlayer) thread_index (bound : Z) fuel b s :
  0 <= thread_index <= CInt.INT_MAX -> 0 < thread_count_ p ->
  0 <= bound < CInt.INT_MAX -> width * bound <= CInt.INT_MAX ->
  (remaining b < fuel)%nat ->
  visits_within bound (transposition_table_ s) ->
  exists x s',
    ModifyAverageProfitAndReturnNewProfit fuel p b thread_index s = Done (x, s')
    /\ visits_within (bound + 1) (transposition_table_ s').
Proof.
  intros Hidx Htc Hb Hw Hfuel Hin.
  destruct (visit_total p thread_index bound Hidx Htc Hb Hw fuel b s Hfuel Hin)
    as (x & s' & Hv & Hin' & _).
  by exists x, s'.
Qed.

(** *** The loop returns *)

Lemma search_step_eq fuel depth (p : UctPlayer) b thread_index s m x s2 :
  mc_game_count s < mc_game_count_per_move_ p ->
  MaxUcbChild_locked p (transposition_table_ s) b thread_index = Done m ->
  ModifyAverageProfitAndReturnNewProfit depth p (Play b m) thread_index
    (MkState (transposition_table_ s) (mc_game_count s)
       (trace s ++ [EvLock; EvUnlock])) = Done (x, s2) ->
  SearchAndModifyNodes (S fuel) depth p b thread_index s
  = SearchAndModifyNodes fuel depth p b thread_index s2.
Proof.
  intros Hc Hm Hv. cbn [SearchAndModifyNodes].
  unfold mbind at 1, M_bind at 1, counter.
  apply Z.ltb_lt in Hc. rewrite Hc.
  unfold MaxUcbChild, mbind, M_bind, mret, M_ret, lock, unlock, emit, table, lift.
  cbn [transposition_table_ mc_game_count trace]. rewrite Hm.
  cbn [transposition_table_ mc_game_count trace].
  rewrite <- app_assoc. cbn [app]. by rewrite Hv.
Qed.

Lemma search_total (p : UctPlayer) b thread_index depth :
  legal_moves b <> [] -> IsEnd b = false -> (remaining b <= depth)%nat ->
  0 <= thread_index <= CInt.INT_MAX -> 0 < thread_count_ p ->
  forall fuel s (bound : Z),
  0 <= bound -> visits_within bound (transposition_table_ s) ->
  CInt.INT_MIN <= mc_game_count s ->
  mc_game_count_per_move_ p <= CInt.INT_MAX ->
  (Z.to_nat (mc_game_count_per_move_ p - mc_game_count s) < fuel)%nat ->
  width * (bound + Z.max 0 (mc_game_count_per_move_ p - mc_game_count s))
  <= CInt.INT_MAX ->
  exists s',
    SearchAndModifyNodes fuel depth p b thread_index s = Done (tt, s')
    /\ visits_within
         (bound + Z.max 0 (mc_game_count_per_move_ p - mc_game_count s))
         (transposition_table_ s')
    /\ mc_game_count s'
       = Z.max (mc_game_count s) (mc_game_count_per_move_ p).
Proof.
  intros Hne Hend Hdepth Hidx Htc.
  assert (Hw1 : 1 <= width).
  { pose proof (moves_bounded b). destruct (legal_moves b); [done|].
    simpl in *. lia. }
  induction fuel as [|fuel IH]; intros s bound Hb Hin Hc Hbudget Hfuel Hw; [lia|].
  destruct (Z_lt_ge_dec (mc_game_count s) (mc_game_count_per_move_ p))
    as [Hlt|Hge].
  2:{ exists s. cbn [SearchAndModifyNodes].
      unfold mbind at 1, M_bind at 1, counter.
      destruct (mc_game_count s <? mc_game_count_per_move_ p) eqn:E;
        [apply Z.ltb_lt in E; lia|].
      split; [done|]. rewrite Z.max_l by lia. rewrite Z.add_0_r.
      split; [done|lia]. }
  rewrite Z.max_r in Hw by lia.
  assert (Hwb : width * bound <= CInt.INT_MAX) by nia.
  assert (Hb1 : bound < CInt.INT_MAX) by nia.
  destruct (MaxUcbChild_locked_total bound p (transposition_table_ s) b
              thread_index) as (m & Hm & Hrange); try done.
  destruct (visit_total p thread_index bound Hidx Htc ltac:(lia) Hwb depth
              (Play b m)
              (MkState (transposition_table_ s) (mc_game_count s)
                 (trace s ++ [EvLock; EvUnlock])))
    as (x & s2 & Hv & Hin2 & _).
  { pose proof (play_shortens b m Hend Hrange). lia. }
  { done. }
  rewrite (search_step_eq fuel depth p b thread_index s m x s2 Hlt Hm Hv).
  pose proof (visit_effects _ _ _ _ _ _ _ Hv) as (_ & Hc2 & _).
  cbn [mc_game_count] in Hc2.
  rewrite wrap_in_range in Hc2 by (apply in_range_iff; lia).
  destruct (IH s2 (bound + 1)) as (s' & Hs & Hin' & Hc'); try done; try lia.
  { rewrite Hc2.
    destruct (Z_lt_ge_dec (mc_game_count s + 1) (mc_game_count_per_move_ p)).
    - rewrite Z.max_r by lia.
      replace (bound + 1 + (mc_game_count_per_move_ p - (mc_game_count s + 1)))
        with (bound + (mc_game_count_per_move_ p - mc_game_count s)) by lia.
      done.
    - rewrite Z.max_l by lia.
      replace (bound + 1 + 0)
        with (bound + (mc_game_count_per_move_ p - mc_game_count s)) by lia.
      done. }
  exists s'. split; [done|]. rewrite Hc2 in Hin', Hc'. split.
  - rewrite Z.max_r by lia.
    replace (bound + (mc_game_count_per_move_ p - mc_game_count s))
      with (bound + 1
            + Z.max 0 (mc_game_count_per_move_ p - (mc_game_count s + 1)))
      by lia.
    done.
  - lia.
Qed.

(** X18: on a board whose games end, the loop of a worker returns once
    it has as much fuel as playouts are missing: it leaves the counter at
    the budget and every visit count positive, each grown by at most the
    number of passes through the loop. *)
Theorem search_returns_on_a_board_whose_games_end
    (p : UctPlayer) b thread_index fuel depth s (bound : Z) :
  legal_moves b <> [] -> IsEnd b = false -> (remaining b <= depth)%nat ->
  0 <= thread_index <= CInt.INT_MAX -> 0 < thread_count_ p ->
  0 <= bound -> visits_within bound (transposition_table_ s) ->
  0 <= mc_game_count s <= mc_game_count_per_move_ p ->
  mc_game_count_per_move_ p <= CInt.INT_MAX ->
  (Z.to_nat (mc_game_count_per_move_ p - mc_game_count s) < fuel)%nat ->
  width * (bound + (mc_game_count_per_move_ p - mc_game_count s))
  <= CInt.INT_MAX ->
  exists s',
    SearchAndModifyNodes fuel depth p b thread_index s = Done (tt, s')
    /\ mc_game_count s' = mc_game_count_per_move_ p
    /\ visits_within (bound + (mc_game_count_per_move_ p - mc_game_count s))
         (transposition_table_ s').
Proof.
  intros Hne Hend Hdepth Hidx Htc Hb Hin Hc Hbudget Hfuel Hw.
  destruct (search_total p b thread_index depth Hne Hend Hdepth Hidx Htc
              fuel s bound Hb Hin) as (s' & Hs & Hin' & Hc').
  - unfold CInt.INT_MIN. lia.
  - done.
  - done.
  - rewrite Z.max_r by lia. done.
  - exists s'. split; [done|]. rewrite Z.max_r in Hin', Hc' by lia. done.
Qed.

(** *** [NextMoveWithPlayableBoard] returns *)

(** X19: with one worker, on a playable board whose games end, and a
    budget of playouts that is at least the number of playable moves,
    [NextMoveWithPlayableBoard] returns: the search stops with the counter
    at the budget, [BestChild] finds a record under every playable move,
    and the move returned is a playable move whose child has been visited
    at least as often as any other. *)
Theorem NextMoveWithPlayableBoard_returns_a_most_visited_move
    (p : UctPlayer) t b fuel depth (bound : Z) :
  thread_count_ p = 1 ->
  legal_moves b <> [] -> IsEnd b = false -> (remaining b <= depth)%nat ->
  Z.of_nat (length (legal_moves b)) <= mc_game_count_per_move_ p ->
  (Z.to_nat (mc_game_count_per_move_ p) < fuel)%nat ->
  0 <= bound -> visits_within bound t ->
  width * (bound + mc_game_count_per_move_ p) <= CInt.INT_MAX ->
  exists m s',
    NextMoveWithPlayableBoard fuel depth p t b = Done (m, s')
    /\ mc_game_count s' = mc_game_count_per_move_ p
    /\ m ∈ legal_moves b
    /\ Forall (fun j => child_visits (transposition_table_ s') b j
                        <= child_visits (transposition_table_ s') b m)
         (legal_moves b).
Proof.
  intros Htc Hne Hend Hdepth Hn Hfuel Hb Hin Hw.
  assert (Hw1 : 1 <= width).
  { pose proof (moves_bounded b). destruct (legal_moves b); [done|].
    simpl in *. lia. }
  assert (Hbudget : 0 <= mc_game_count_per_move_ p <= CInt.INT_MAX) by nia.
  destruct (search_total p b 0 depth Hne Hend Hdepth
              ltac:(unfold CInt.INT_MAX; lia) ltac:(lia)
              fuel (MkState t 0 []) bound Hb Hin)
    as (s' & Hs & Hin' & Hc'); cbn [mc_game_count transposition_table_].
  { unfold CInt.INT_MIN. lia. }
  { lia. }
  { by rewrite Z.sub_0_r. }
  { rewrite Z.sub_0_r, Z.max_r by lia. done. }
  cbn [mc_game_count] in Hc'. rewrite Z.max_r in Hc' by lia.
  (* every root child has a record *)
  pose proof (search_covers_root fuel depth p b Htc ltac:(lia)
                (MkState t 0 []) tt s') as Hcover.
  destruct Hcover as [(Hpos' & _ & Hunk) _]; [|done|].
  { split; [|split; [done|]]; cbn [transposition_table_ mc_game_count].
    - intros k r Hk. specialize (Hin k r Hk). cbn beta in *. lia.
    - right. unfold unknown_children.
      pose proof (length_filter (fun i => GetChild t b i = None) (legal_moves b)).
      lia. }
  assert (Hnil : unknown_children (transposition_table_ s') b = []).
  { destruct Hunk as [|Hunk]; [done|].
    destruct (unknown_children (transposition_table_ s') b); [done|].
    simpl in Hunk. lia. }
  assert (Hk : Forall (fun i => is_Some (GetChild (transposition_table_ s') b i))
                 (legal_moves b)).
  { apply Forall_forall. intros i Hi.
    destruct (GetChild (transposition_table_ s') b i) as [r|] eqn:E; [done|].
    exfalso.
    assert (Hu : i ∈ unknown_children (transposition_table_ s') b).
    { unfold unknown_children. by apply list_elem_of_filter. }
    rewrite Hnil in Hu. by apply elem_of_nil in Hu. }
  destruct (most_visited_spec (transposition_table_ s') b (legal_moves b)
              [] (-1) None Hk) as (mx & r & Hmv & Hinv).
  { simpl. split; [done|constructor]. }
  simpl in Hinv.
  assert (Hsome : exists m, r = Some m).
  { destruct r as [m|]; [by exists m|]. simpl in Hinv.
    destruct Hinv as [_ Hall]. exfalso.
    destruct (legal_moves b) as [|i l]; [done|].
    apply Forall_cons in Hall as [Hi _]. apply Forall_cons in Hk as [[ri Hri] _].
    unfold child_visits in Hi. rewrite Hri in Hi.
    pose proof (Hpos' _ _ Hri) as Hp. cbn beta in Hp. lia. }
  destruct Hsome as [m ->]. simpl in Hinv.
  destruct Hinv as (pre & post & Hdec & -> & Hpre & Hpost).
  exists m, s'. unfold NextMoveWithPlayableBoard. rewrite Hs.
  change (Done (tt, s') ≫= ?k) with (k (tt, s')). cbv beta iota.
  unfold BestChild. fold (legal_moves b). rewrite Hmv.
  change (Done (Some m) ≫= ?k) with (k (Some m)). cbv beta iota.
  change (Done m ≫= ?k) with (k m). cbv beta.
  split; [done|]. split; [done|]. split.
  - rewrite Hdec. apply elem_of_app. right. by left.
  - rewrite Hdec. apply Forall_app. split.
    + eapply Forall_impl; [exact Hpre|]. simpl. intros; lia.
    + apply Forall_cons. split; [lia|done].
Qed.

End FiniteGames.

(** ** The profit column of [LogProfits] *)

Lemma substring_length (n : nat) : forall text : string,
  (String.length (String.substring 0 n text) <= n)%nat.
Proof.
  induction n as [|n IH]; intros [|c text]; cbn; try lia.
  specialize (IH text). lia.
Qed.

Section Logging.

Context {FullBoard : Type} `{Countable FullBoard}.
Context `{!BoardOps FullBoard} `{!LexicalCast}.

(** X20: the text [get_profit_str] gives for a position is never longer
    than four characters, whatever the printer produces; it is the letter
    N followed by three blanks exactly for the positions that are not
    playable. *)
Theorem get_profit_str_is_at_most_four_characters
    (t : gmap FullBoard NodeRecord) (full_board : FullBoard)
    (position_index : PositionIndex) (text : string) :
  get_profit_str t full_board position_index = Done text ->
  (String.length text <= 4)%nat
  /\ (position_index ∉ legal_moves full_board -> text = "N   ").
Proof.
  unfold get_profit_str. fold (legal_moves full_board).
  destruct (decide (position_index ∈ legal_moves full_board)) as [Hin|Hout].
  - destruct (GetChild t full_board position_index) as [r|]; [|done].
    intros [= <-]. split; [apply substring_length|done].
  - intros [= <-]. split; [vm_compute; apply le_n|done].
Qed.

End Logging.

(** ** Several workers on one record *)

Section RacingUpdateProofs.

Context {FullBoard : Type} `{Countable FullBoard}.
Context `{!BoardOps FullBoard} `{!PlayoutOps FullBoard} `{!Libm}.

Lemma interleave_one (divisor_first : bool) (b : FullBoard)
    (rest : list nat) (w w' : Updater) (t t' : gmap FullBoard NodeRecord) :
  update_access divisor_first b w t = Done (w', t') ->
  interleave divisor_first b (0%nat :: rest) [w] t
  = interleave divisor_first b rest [w'] t'.
Proof.
  intros Ha.
  change (interleave divisor_first b (0%nat :: rest) [w] t)
    with (update_access divisor_first b w t
          ≫= (fun '(w', t') => interleave divisor_first b rest [w'] t')).
  by rewrite Ha.
Qed.

(** Taken by one worker with no access of another in between, the six
    accesses are the update of a visit: they leave the table the visit
    leaves, up to the in-search mark that the visit clears afterwards. *)
Lemma whole_update_alone (divisor_first : bool) (b : FullBoard) (x : float)
    (s2 : State FullBoard) (r : NodeRecord) :
  transposition_table_ s2 !! b = Some r ->
  CInt.INT_MIN <= GetVisitedTime r + 1 <= CInt.INT_MAX ->
  exists t',
    interleave divisor_first b (whole_update 0) [MkUpdater x AtAverage]
      (transposition_table_ s2)
    = Done ([MkUpdater x AtEnd], t')
    /\ alter (SetIsInSearch false) b t' = transposition_table_ (updated b r x s2).
Proof.
  intros Hr Hn.
  set (average :=
         F32.div
           (F32.add (F32.mul (GetAverageProfit r) (F32.of_int (GetVisitedTime r)))
              x)
           (F32.of_int (GetVisitedTime r + 1))).
  set (t := transposition_table_ s2) in *.
  set (t1 := alter (SetAverageProfit average) b t).
  set (t2 := alter (SetVisitedTimes (GetVisitedTime r + 1)) b t1).
  assert (Hr1 : t1 !! b = Some (SetAverageProfit average r)).
  { subst t1. by rewrite lookup_alter_eq, Hr. }
  exists t2. split.
  - unfold whole_update. cbn [replicate].
    rewrite (interleave_one _ _ _ _
               (MkUpdater x (AtFirstCount (GetAverageProfit r))) t t).
    2:{ unfold update_access, through. cbn [at_point new_profit]. by rewrite Hr. }
    rewrite (interleave_one _ _ _ _
               (MkUpdater x (AtSecondCount (GetAverageProfit r)
                               (GetVisitedTime r))) t t).
    2:{ unfold update_access, through. cbn [at_point new_profit]. by rewrite Hr. }
    rewrite (interleave_one _ _ _ _ (MkUpdater x (AtSetAverage average)) t t).
    2:{ unfold update_access, through. cbn [at_point new_profit]. rewrite Hr.
        change (Done r ≫= ?k) with (k r). cbv beta zeta.
        replace (if divisor_first then GetVisitedTime r else GetVisitedTime r)
          with (GetVisitedTime r) by (by destruct divisor_first).
        by rewrite int_add_Done. }
    rewrite (interleave_one _ _ _ _ (MkUpdater x AtCount) t t1).
    2:{ reflexivity. }
    rewrite (interleave_one _ _ _ _
               (MkUpdater x (AtSetCount (GetVisitedTime r + 1))) t1 t1).
    2:{ unfold update_access, through. cbn [at_point new_profit]. rewrite Hr1.
        change (Done ?a ≫= ?k) with (k a). cbv beta.
        cbn [GetVisitedTime SetAverageProfit]. by rewrite int_add_Done. }
    rewrite (interleave_one _ _ _ _ (MkUpdater x AtEnd) t1 t2).
    2:{ reflexivity. }
    reflexivity.
  - subst t2 t1. unfold updated. cbn [transposition_table_]. fold t. fold average.
    rewrite (alter_present _ _ _ _ Hr).
    rewrite (alter_present _ _ _ _ (lookup_insert_eq _ _ _)).
    rewrite (alter_present _ _ _ _ (lookup_insert_eq _ _ _)).
    rewrite !insert_insert_eq. reflexivity.
Qed.

End RacingUpdateProofs.

(** ** The small board again *)

Import Toy Small.

Ltac by_computation := vm_compute; reflexivity.

(** *** Games on the small board end *)

Lemma filter_agree {A} (P Q : A -> Prop)
    `{!forall x, Decision (P x)} `{!forall x, Decision (Q x)} (l : list A) :
  Forall (fun x => P x <-> Q x) l -> filter P l = filter Q l.
Proof.
  induction 1 as [|x l Hx _ IH]; [done|].
  rewrite !filter_cons, IH.
  destruct (decide (P x)), (decide (Q x)); tauto.
Qed.

Lemma free_pass (b : Board) : free (-1 :: b) = free b.
Proof.
  unfold free. apply filter_agree. unfold points.
  repeat (apply Forall_cons; split;
          [rewrite not_elem_of_cons; split; [tauto|done]|]).
  constructor.
Qed.

Lemma not_end_passes (b : Board) :
  is_end b = false -> (leading_passes b <= 1)%nat /\ free b <> [].
Proof.
  unfold is_end, leading_passes. intros Hend.
  assert (Hfree : free b <> []).
  { intros Hf. rewrite Hf in Hend.
    repeat case_match; done. }
  split; [|done].
  repeat case_match; try done; lia.
Qed.

Lemma leading_passes_pass (b : Board) :
  (leading_passes b <= 1)%nat ->
  leading_passes (-1 :: b) = S (leading_passes b).
Proof.
  unfold leading_passes. intros Hle. repeat case_match; try done; lia.
Qed.

Lemma leading_passes_point (b : Board) i :
  i ∈ points -> leading_passes (i :: b) = 0%nat.
Proof.
  unfold points. intros Hi.
  repeat (apply elem_of_cons in Hi as [->|Hi]; [reflexivity|]).
  by apply elem_of_nil in Hi.
Qed.

Lemma small_board_play_shortens (b : Board) (i : Z) :
  IsEnd b = false -> i ∈ legal_moves b \/ i = POSITION_INDEX_PASS ->
  (remaining (Play b i) < remaining b)%nat.
Proof.
  change (is_end b = false -> i ∈ free b \/ i = -1 ->
          (remaining (i :: b) < remaining b)%nat).
  intros Hend Hi. apply not_end_passes in Hend as [Hlp Hfree].
  unfold remaining. destruct Hi as [Hi| ->].
  - unfold free in Hi. apply list_elem_of_filter in Hi as [Hnew Hpt].
    rewrite (leading_passes_point b i Hpt).
    assert (Hlt : (length (free (i :: b)) < length (free b))%nat).
    { unfold free. apply (filter_length_lt _ _ _ i); [|done|done|].
      - intros y Hy Hin. apply Hy. by right.
      - intros Hn. apply Hn. by left. }
    lia.
  - rewrite free_pass, leading_passes_pass by done. lia.
Qed.

Lemma small_board_pass_shortens (b : Board) :
  IsEnd b = false -> legal_moves b = [] ->
  (remaining (Pass b (NextForce b)) < remaining b)%nat.
Proof.
  change (is_end b = false -> free b = [] ->
          (remaining ((-1)%Z :: b) < remaining b)%nat).
  intros Hend Hf. by apply not_end_passes in Hend as [_ Hfree].
Qed.

Lemma small_board_moves_bounded (b : Board) :
  Z.of_nat (length (legal_moves b)) <= 4.
Proof.
  change (Z.of_nat (length (free b)) <= 4). unfold free.
  pose proof (length_filter (fun i => i ∉ b) points) as Hle.
  change (length points) with 4%nat in Hle. lia.
Qed.

(** *** The properties above, on the small board *)

Lemma MaxUcbChild_fails_only_on_assert_or_arithmetic_witness :
  MaxUcbChild_locked player4 table_full full 0 = Abort AssertionFailure
  /\ (AssertionFailure = AssertionFailure
      \/ AssertionFailure = UndefinedBehaviour).
Proof.
  split; [by_computation|].
  apply (MaxUcbChild_fails_only_on_assert_or_arithmetic
           player4 table_full full 0 AssertionFailure).
  by_computation.
Defined.

Lemma MaxUcbChild_returns_unknown_or_selectable_or_pass_witness :
  MaxUcbChild_locked player4 table0123 [] 1 = Done 2
  /\ (2 ∈ unknown_children table0123 []
      \/ (unknown_children table0123 [] = []
          /\ (2 = POSITION_INDEX_PASS \/ 2 ∈ selectable_children table0123 []))).
Proof.
  split; [by_computation|].
  apply (MaxUcbChild_returns_unknown_or_selectable_or_pass
           player4 table0123 [] 1 2).
  by_computation.
Defined.

Lemma MaxUcbChild_sends_workers_to_different_children_witness :
  exists mi mj,
    MaxUcbChild_locked player4 table02 [] 0 = Done mi
    /\ MaxUcbChild_locked player4 table02 [] 1 = Done mj
    /\ unknown_children table02 [] !! Z.to_nat 0 = Some mi
    /\ unknown_children table02 [] !! Z.to_nat 1 = Some mj
    /\ mi <> mj.
Proof.
  apply (MaxUcbChild_sends_workers_to_different_children player4 table02 [] 0 1).
  - compute_done.
  - lia.
  - reflexivity.
  - unfold CInt.INT_MAX. simpl. lia.
  - vm_compute. reflexivity.
  - compute_done.
  - vm_compute. discriminate.
Defined.

Lemma BestChild_looks_at_visit_counts_only_witness :
  BestChild table0123 [] = BestChild table0123_flat [].
Proof.
  apply (BestChild_looks_at_visit_counts_only table0123 table0123_flat []).
  compute_done.
Defined.


Lemma visit_raises_the_visit_count_witness :
  exists x s',
    ModifyAverageProfitAndReturnNewProfit 2 player1 [0] 0 (MkState table02 0 [])
    = Done (x, s')
    /\ (forall k r, table02 !! k = Some r ->
          exists r', transposition_table_ s' !! k = Some r'
                     /\ GetVisitedTime r <= GetVisitedTime r')
    /\ exists r', transposition_table_ s' !! [0] = Some r'
         /\ match table02 !! [0] with
            | Some r => GetVisitedTime r' >= GetVisitedTime r + 1
            | None => GetVisitedTime r' = 1
            end.
Proof.
  eexists _, _. split; [by_computation|].
  eapply (visit_raises_the_visit_count 2 player1 [0] 0 (MkState table02 0 [])).
  by_computation.
Defined.

Lemma visit_leaves_no_new_in_search_mark_witness :
  exists x s',
    ModifyAverageProfitAndReturnNewProfit 2 player1 [0] 0 (MkState table0123 0 [])
    = Done (x, s')
    /\ transposition_table_ s' !! [1] = Some (MkNodeRecord 3 half true)
    /\ [1] <> [0]
    /\ exists r, table0123 !! [1] = Some r /\ IsInSearch r = true.
Proof.
  eexists _, _.
  assert (Hrun : ModifyAverageProfitAndReturnNewProfit 2 player1 [0] 0
                   (MkState table0123 0 []) = Done (?[x], ?[s']))
    by by_computation.
  split; [exact Hrun|]. split; [by_computation|].
  apply (visit_leaves_no_new_in_search_mark
           2 player1 [0] 0 (MkState table0123 0 []) _ _ Hrun [1]
           (MkNodeRecord 3 half true)).
  - by_computation.
  - reflexivity.
Defined.

Lemma search_locks_and_unlocks_in_turn_witness :
  exists s' new,
    SearchAndModifyNodes 10 10 player1 [] 0 (MkState ∅ 0 []) = Done (tt, s')
    /\ trace s' = [] ++ new /\ mutex_after false new = Some false.
Proof.
  eexists.
  assert (Hrun : SearchAndModifyNodes 10 10 player1 [] 0 (MkState ∅ 0 [])
                 = Done (tt, ?[s'])) by by_computation.
  destruct (search_locks_and_unlocks_in_turn 10 10 player1 [] 0 _ _ Hrun)
    as (new & Htr & Hm).
  exists new. split; [exact Hrun|]. split; [exact Htr|exact Hm].
Defined.

Lemma search_stops_at_the_budget_witness :
  exists s',
    SearchAndModifyNodes 10 10 player1 [] 0 (MkState ∅ 0 []) = Done (tt, s')
    /\ mc_game_count s' = Z.max 0 (mc_game_count_per_move_ player1)
    /\ (mc_game_count_per_move_ player1 <= 0 -> s' = MkState ∅ 0 []).
Proof.
  eexists. split; [by_computation|].
  apply (search_stops_at_the_budget 10 10 player1 [] 0 (MkState ∅ 0 [])).
  - unfold CInt.INT_MIN. simpl. lia.
  - unfold CInt.INT_MAX. simpl. lia.
  - by_computation.
Defined.

Lemma search_plays_out_each_board_once_witness :
  exists s' new,
    SearchAndModifyNodes 10 10 player1 [] 0 (MkState table02 0 []) = Done (tt, s')
    /\ trace s' = [] ++ new
    /\ NoDup (playout_boards new)
    /\ Forall (fun k => table02 !! k = None) (playout_boards new)
    /\ dom (transposition_table_ s')
       = dom table02 ∪ list_to_set (playout_boards new).
Proof.
  eexists.
  assert (Hrun : SearchAndModifyNodes 10 10 player1 [] 0 (MkState table02 0 [])
                 = Done (tt, ?[s'])) by by_computation.
  destruct (search_plays_out_each_board_once 10 10 player1 [] 0 _ _ Hrun)
    as (new & Htr & Hnd & Hnew & Hdom).
  exists new. split; [exact Hrun|]. split; [exact Htr|].
  split; [exact Hnd|]. split; [exact Hnew|exact Hdom].
Defined.

Lemma Ucb_scores_at_or_above_zero_witness :
  exists ucb,
    Ucb (MkNodeRecord 2 half false) 3 = Done ucb
    /\ F32.le F32.zero ucb = true
    /\ is_nan ucb = false.
Proof.
  apply (Ucb_scores_at_or_above_zero (MkNodeRecord 2 half false) 3).
  - reflexivity.
  - unfold CInt.INT_MAX. simpl. lia.
  - apply small_board_log_nonneg. unfold CInt.INT_MAX. lia.
Defined.

Lemma GetRegionRatio_in_unit_interval_witness :
  F32.le F32.zero (GetRegionRatio [2; 1; 0] WHITE_FORCE) = true
  /\ F32.le (GetRegionRatio [2; 1; 0] WHITE_FORCE) F32.one = true.
Proof.
  apply (GetRegionRatio_in_unit_interval [2; 1; 0] WHITE_FORCE).
  - vm_compute. split; discriminate.
  - vm_compute. split; discriminate.
Defined.

Lemma GetRegionRatio_is_exact_at_the_ends_witness :
  (BlackRegion [-1; -1] = 0 ->
   GetRegionRatio [-1; -1] BLACK_FORCE = F32.zero
   /\ GetRegionRatio [-1; -1] WHITE_FORCE = F32.one)
  /\ (BlackRegion [-1; -1] = BoardLenSquare ->
      GetRegionRatio [-1; -1] BLACK_FORCE = F32.one
      /\ GetRegionRatio [-1; -1] WHITE_FORCE = F32.zero).
Proof.
  apply (GetRegionRatio_is_exact_at_the_ends [-1; -1]).
  vm_compute. split; discriminate.
Defined.

Lemma visit_returns_a_profit_in_unit_interval_witness :
  exists x s',
    ModifyAverageProfitAndReturnNewProfit 2 player1 [0] 0 (MkState table02 0 [])
    = Done (x, s')
    /\ F32.le F32.zero x = true /\ F32.le x F32.one = true.
Proof.
  eexists _, _. split; [by_computation|].
  refine (visit_returns_a_profit_in_unit_interval small_board_region_bounds _
            2 player1 [0] 0 (MkState table02 0 []) _ _ _ _).
  - vm_compute. split; discriminate.
  - unfold profits_ok, table02.
    apply map_Forall_insert_2; [split; [repeat split|reflexivity]|].
    apply map_Forall_insert_2; [split; [repeat split|simpl; lia]|].
    apply map_Forall_empty.
  - by_computation.
Defined.

Lemma visit_returns_on_a_board_whose_games_end_witness :
  exists x s',
    ModifyAverageProfitAndReturnNewProfit 15 player1 [0] 0 (MkState table02 0 [])
    = Done (x, s')
    /\ visits_within (2 + 1) (transposition_table_ s').
Proof.
  refine (visit_returns_on_a_board_whose_games_end remaining 4
            small_board_play_shortens small_board_pass_shortens
            small_board_moves_bounded player1 0 2 15 [0]
            (MkState table02 0 []) _ _ _ _ _ _).
  - unfold CInt.INT_MAX. lia.
  - reflexivity.
  - unfold CInt.INT_MAX. lia.
  - unfold CInt.INT_MAX. lia.
  - vm_compute. lia.
  - unfold visits_within, table02. cbn [transposition_table_].
    apply map_Forall_insert_2; [simpl; lia|].
    apply map_Forall_insert_2; [simpl; lia|].
    apply map_Forall_empty.
Defined.

Lemma search_returns_on_a_board_whose_games_end_witness :
  exists s',
    SearchAndModifyNodes 7 14 player4 [] 2 (MkState ∅ 0 []) = Done (tt, s')
    /\ mc_game_count s' = mc_game_count_per_move_ player4
    /\ visits_within (0 + (mc_game_count_per_move_ player4 - 0))
         (transposition_table_ s').
Proof.
  refine (search_returns_on_a_board_whose_games_end remaining 4
            small_board_play_shortens small_board_pass_shortens
            small_board_moves_bounded player4 [] 2 7 14
            (MkState ∅ 0 []) 0 _ _ _ _ _ _ _ _ _ _ _).
  - vm_compute. discriminate.
  - reflexivity.
  - vm_compute. lia.
  - unfold CInt.INT_MAX. lia.
  - reflexivity.
  - lia.
  - apply map_Forall_empty.
  - simpl. lia.
  - unfold CInt.INT_MAX. simpl. lia.
  - vm_compute. lia.
  - unfold CInt.INT_MAX. simpl. lia.
Defined.

Lemma NextMoveWithPlayableBoard_returns_a_most_visited_move_witness :
  exists m s',
    NextMoveWithPlayableBoard 7 14 player1 ∅ [] = Done (m, s')
    /\ mc_game_count s' = mc_game_count_per_move_ player1
    /\ m ∈ legal_moves []
    /\ Forall (fun j => child_visits (transposition_table_ s') [] j
                        <= child_visits (transposition_table_ s') [] m)
         (legal_moves []).
Proof.
  refine (NextMoveWithPlayableBoard_returns_a_most_visited_move remaining 4
            small_board_play_shortens small_board_pass_shortens
            small_board_moves_bounded player1 ∅ [] 7 14 0 _ _ _ _ _ _ _ _ _).
  - reflexivity.
  - vm_compute. discriminate.
  - reflexivity.
  - vm_compute. lia.
  - vm_compute. discriminate.
  - vm_compute. lia.
  - lia.
  - apply map_Forall_empty.
  - unfold CInt.INT_MAX. simpl. lia.
Defined.

Lemma get_profit_str_is_at_most_four_characters_witness :
  get_profit_str table02 [] 0 = Done "0.50"
  /\ (String.length "0.50" <= 4)%nat
  /\ (0 ∉ legal_moves [] -> "0.50" = "N   ").
Proof.
  split; [by_computation|].
  apply (get_profit_str_is_at_most_four_characters table02 [] 0 "0.50").
  by_computation.
Defined.

(** *** Several workers on the record of one board *)

(** C9 fails on the code when several workers update the same record.
    Every record starts with an average in [0, 1] and every worker brings a
    sample in [0, 1] (all are 1/2 here).  Worker 0 is held up between the
    read and the write of its [SetVisitedTimes]; five workers update the
    record meanwhile; worker 6 reads the count 6 for the product, the held
    write of 2 lands, and worker 6 reads the count 2 for the divisor: the
    average it writes is [(0.5 * 6 + 0.5) / 3], above 1.  When the divisor
    is evaluated before the product, a worker held up between its two reads
    of the count writes [(0.5 * 4 + 0.5) / 2], above 1 as well.  Taken one
    after the other, the same updates leave the average at 1/2. *)
Theorem unlocked_update_writes_an_average_above_one :
  profits_ok racing_table
  /\ Forall (fun w => unit_float (new_profit w)) (updaters 7)
  /\ (exists ws t,
        interleave false [0] stale_schedule (updaters 7) racing_table
        = Done (ws, t)
        /\ Forall (fun w => at_point w = AtEnd) ws
        /\ t !! [0]
           = Some (MkNodeRecord 3 (S754_finite false 9786709 (-23)) false)
        /\ F32.le (S754_finite false 9786709 (-23)) F32.one = false)
  /\ (exists ws t,
        interleave true [0] early_schedule (updaters 4) racing_table
        = Done (ws, t)
        /\ Forall (fun w => at_point w = AtEnd) ws
        /\ t !! [0]
           = Some (MkNodeRecord 5 (S754_finite false 10485760 (-23)) false)
        /\ F32.le (S754_finite false 10485760 (-23)) F32.one = false)
  /\ (forall divisor_first : bool, exists ws t,
        interleave divisor_first [0] serial_schedule (updaters 7) racing_table
        = Done (ws, t)
        /\ t !! [0] = Some (MkNodeRecord 8 half false)).
Proof.
  split.
  { unfold racing_table. apply map_Forall_insert_2; [|apply map_Forall_empty].
    split; [repeat split|reflexivity]. }
  split.
  { unfold updaters. cbn [replicate new_profit].
    repeat (apply Forall_cons; split; [repeat split|]). constructor. }
  split.
  { eexists _, _. split; [vm_compute; reflexivity|].
    split; [repeat constructor|]. split; vm_compute; reflexivity. }
  split.
  { eexists _, _. split; [vm_compute; reflexivity|].
    split; [repeat constructor|]. split; vm_compute; reflexivity. }
  intros [|]; eexists _, _; (split; [vm_compute; reflexivity|]);
    vm_compute; reflexivity.
Qed.
